(** * Derivative calculator in Brainfuck: code generator and interpreter

    A shallow embedding of [bf_interpreter.py] (the function [run_bf]) and of
    [bf_codegen.py] (the class [BF] and the function [generate]), followed by
    the verification of the properties stated about them.

    Conventions of the embedding.
    - A Python [str] is a [list ascii]: the interpreter keeps only eight
      characters of its program, and its input is encoded as latin-1, one
      byte per character.
    - Python integers are [Z]; list indices and positions in the program are
      [nat].  [%] is [Z.modulo] (the result has the sign of the divisor); a
      zero divisor raises [ZeroDivisionError].
    - The dictionary [brackets] is a [gmap nat nat]; the list [stack] is a
      Rocq list whose head is the top of the Python list (its last element).
    - The output, a list of one-character strings joined at the end, is the
      list of their code points. *)

From Stdlib Require Import ZArith List Ascii String Lia Bool DecimalString.
From stdpp Require Import base gmap list.

Open Scope Z_scope.

(** ** The interpreter: [bf_interpreter.py] *)

Module Interp.

(** The exceptions [run_bf] can raise.  The three [RuntimeError]s carry the
    values formatted into their messages. *)
Inductive error : Type :=
| UnmatchedClose (i : nat)                    (* "Unmatched ] at position i" *)
| UnmatchedOpen (i : nat)                     (* "Unmatched [ at position i" *)
| StepsExceeded (max_steps : Z) (out : list Z)
                          (* "Exceeded max_steps steps. Output so far: out" *)
| PointerBelowZero (steps : Z)        (* "Pointer moved below 0 at step n" *)
| ZeroDivisionError                           (* [x % 0] *)
| ValueError                                  (* [chr] outside its range *)
| KeyError (k : nat).                         (* [brackets[k]] missing *)

(** What a call of [run_bf] produces.  [OutOfFuel] is an artefact of the
    embedding; [run_bf_total] below shows that it is never produced. *)
Inductive result : Type :=
| Returned (out : list Z)
| Raised (e : error)
| OutOfFuel.


(** [c in "><+-.,[]"] *)
Definition is_op (c : ascii) : bool :=
  existsb (Ascii.eqb c) (list_ascii_of_string "><+-.,[]").

(** [ops = [c for c in code if c in "><+-.,[]"]] *)
Definition strip (code : list ascii) : list ascii := List.filter is_op code.

(** The [for i, op in enumerate(ops)] loop that fills [brackets], started at
    index [i] with the given [stack] and [brackets]. *)
Fixpoint scan_loop (i : nat) (ops : list ascii) (stack : list nat)
    (brackets : gmap nat nat) : error + (list nat * gmap nat nat) :=
  match ops with
  | [] => inr (stack, brackets)
  | op :: rest =>
      if (op =? "[")%char then scan_loop (S i) rest (i :: stack) brackets
      else if (op =? "]")%char then
        match stack with
        | [] => inl (UnmatchedClose i)
        | j :: stack' =>
            scan_loop (S i) rest stack' (<[i := j]> (<[j := i]> brackets))
        end
      else scan_loop (S i) rest stack brackets
  end.

(** The whole pre-computation of the bracket table, with the final
    [if stack: raise]. *)
Definition match_brackets (ops : list ascii) : error + gmap nat nat :=
  match scan_loop 0 ops [] ∅ with
  | inl e => inl e
  | inr ([], brackets) => inr brackets
  | inr (top :: _, _) => inl (UnmatchedOpen top)
  end.

(** The variables of the execution phase other than [ip] and [steps]. *)
Record machine : Type := Machine {
  tape : list Z;
  ptr : Z;
  input_pos : nat;
  output : list Z
}.

(** How the [while] loop ends. *)
Inductive loop_result : Type :=
| Halted (m : machine)
| Failed (e : error)
| Cut.

(** [tape[c]] for a cell index [c >= 0]; cells past the end of the list do
    not exist yet and will be created holding 0. *)
Definition cell_at (m : machine) (c : Z) : Z := nth (Z.to_nat c) (tape m) 0.

(** [tape[ptr]].  The pointer is never negative and never past the end when
    the tape is read (lemma [turns_wf] below), so no [IndexError] is
    modelled. *)
Definition cell (m : machine) : Z := cell_at m (ptr m).

(** [[0] * n] *)
Definition zeros (n : Z) : list Z := repeat 0 (Z.to_nat n).

#[global] Arguments zeros : simpl never.

(** [tape[ptr] = v] *)
Definition set_cell (v : Z) (m : machine) : machine :=
  Machine (<[Z.to_nat (ptr m) := v]> (tape m)) (ptr m) (input_pos m) (output m).

(** [input_str.encode("latin-1")] *)
Definition encode_latin1 (s : list ascii) : list Z :=
  map (fun c => Z.of_N (N_of_ascii c)) s.

(** [chr(v)], defined on [range(0x110000)] *)
Definition chr (v : Z) : option Z :=
  if (0 <=? v) && (v <? 1114112) then Some v else None.

Section Run.

Variable ops : list ascii.
Variable brackets : gmap nat nat.
Variable input_bytes : list Z.
Variable cell_size : Z.
Variable max_steps : Z.

(** The [if]/[elif] chain on [op] in the body of the [while] loop, up to but
    not including [ip += 1].  [steps] is the counter already incremented. *)
Definition exec_op (op : ascii) (m : machine) (ip : nat) (steps : Z)
    : error + (machine * nat) :=
  if (op =? ">")%char then
    let ptr' := ptr m + 1 in
    let tape' := if ptr' >=? Z.of_nat (length (tape m))
                 then tape m ++ zeros 1000 else tape m in
    inr (Machine tape' ptr' (input_pos m) (output m), ip)
  else if (op =? "<")%char then
    let ptr' := ptr m - 1 in
    if ptr' <? 0 then inl (PointerBelowZero steps)
    else inr (Machine (tape m) ptr' (input_pos m) (output m), ip)
  else if (op =? "+")%char then
    if cell_size =? 0 then inl ZeroDivisionError
    else inr (set_cell ((cell m + 1) mod cell_size) m, ip)
  else if (op =? "-")%char then
    if cell_size =? 0 then inl ZeroDivisionError
    else inr (set_cell ((cell m - 1) mod cell_size) m, ip)
  else if (op =? ".")%char then
    match chr (cell m) with
    | Some c => inr (Machine (tape m) (ptr m) (input_pos m) (output m ++ [c]), ip)
    | None => inl ValueError
    end
  else if (op =? ",")%char then
    match nth_error input_bytes (input_pos m) with
    | Some b =>
        let m' := set_cell b m in
        inr (Machine (tape m') (ptr m') (S (input_pos m)) (output m'), ip)
    | None => inr (set_cell 0 m, ip)
    end
  else if (op =? "[")%char then
    if cell m =? 0 then
      match brackets !! ip with
      | Some j => inr (m, j)
      | None => inl (KeyError ip)
      end
    else inr (m, ip)
  else if (op =? "]")%char then
    if negb (cell m =? 0) then
      match brackets !! ip with
      | Some j => inr (m, j)
      | None => inl (KeyError ip)
      end
    else inr (m, ip)
  else inr (m, ip).

(** One turn of [while ip < len(ops)]: [None] when the loop condition is
    false, otherwise the outcome of the body. *)
Definition step (m : machine) (ip : nat) (steps : Z)
    : option (error + (machine * nat * Z)) :=
  match nth_error ops ip with
  | None => None
  | Some op =>
      let steps := steps + 1 in
      if steps >? max_steps then
        Some (inl (StepsExceeded max_steps (output m)))
      else
        match exec_op op m ip steps with
        | inl e => Some (inl e)
        | inr (m', ip') => Some (inr (m', S ip', steps))
        end
  end.

(** The [while] loop, cut after [fuel] turns: it leaves the loop with the
    variables in some state, raises, or is cut. *)
Fixpoint run_loop (fuel : nat) (m : machine) (ip : nat) (steps : Z)
    : loop_result :=
  match fuel with
  | O => Cut
  | S fuel' =>
      match step m ip steps with
      | None => Halted m
      | Some (inl e) => Failed e
      | Some (inr (m', ip', steps')) => run_loop fuel' m' ip' steps'
      end
  end.

End Run.

(** [tape = [0] * 30000], [ptr = 0], [input_pos = 0], [output = []] *)
Definition initial : machine :=
  Machine (zeros 30000) 0 0 [].

(** The loop body raises as soon as [steps] exceeds [max_steps], so the loop
    makes at most [max_steps] full turns and one more that leaves it. *)
Definition enough_fuel (max_steps : Z) : nat := S (Z.to_nat max_steps).

(** [run_bf(code, input_str, cell_size, max_steps)] *)
Definition run_bf (code input_str : list ascii) (cell_size max_steps : Z)
    : result :=
  let ops := strip code in
  match match_brackets ops with
  | inl e => Raised e
  | inr brackets =>
      match run_loop ops brackets (encode_latin1 input_str) cell_size max_steps
              (enough_fuel max_steps) initial 0 0 with
      | Halted m => Returned (output m)       (* [return "".join(output)] *)
      | Failed e => Raised e
      | Cut => OutOfFuel
      end
  end.

(** The default arguments [cell_size=256], [max_steps=1_000_000]. *)
Definition default_cell_size : Z := 256.
Definition default_max_steps : Z := 1000000.

End Interp.

(** ** The code generator: [bf_codegen.py] *)

Module Codegen.

(** The string literal [s] as a Python string. *)
Definition str (s : string) : list ascii := list_ascii_of_string s.

(** [c * n] for a one-character string [c] *)
Definition times (c : ascii) (n : Z) : list ascii := repeat c (Z.to_nat n).

(** The fields of a [BF] object. *)
Record BF : Type := mkBF {
  code : list (list ascii);
  pos : Z
}.

(** [BF()] *)
Definition new : BF := mkBF [] 0.

(** [self.code.append(s)] *)
Definition append (s : list ascii) (self : BF) : BF :=
  mkBF (code self ++ [s]) (pos self).

(** [self.pos = p] *)
Definition set_pos (p : Z) (self : BF) : BF := mkBF (code self) p.

(** A method body is a sequence of statements, each a change of the object. *)
Definition seq_ (stmts : list (BF -> BF)) (self : BF) : BF :=
  fold_left (fun bf stmt => stmt bf) stmts self.

Definition _goto (cell : Z) (self : BF) : BF :=
  let diff := cell - pos self in
  set_pos cell
    (if diff >? 0 then append (times ">" diff) self
     else if diff <? 0 then append (times "<" (- diff)) self
     else self).

Definition inc (cell : Z) (n : Z) : BF -> BF :=
  seq_ [_goto cell; append (times "+" n)].

Definition dec (cell : Z) (n : Z) : BF -> BF :=
  seq_ [_goto cell; append (times "-" n)].

Definition clear (cell : Z) : BF -> BF :=
  seq_ [_goto cell; append (str "[-]")].

Definition read (cell : Z) : BF -> BF :=
  seq_ [_goto cell; append (str ",")].

Definition write (cell : Z) : BF -> BF :=
  seq_ [_goto cell; append (str ".")].

Definition loop_open (cell : Z) : BF -> BF :=
  seq_ [_goto cell; append (str "[")].

Definition loop_close (cell : Z) : BF -> BF :=
  seq_ [_goto cell; append (str "]")].

Definition move (src dst : Z) : BF -> BF :=
  seq_ [_goto src; append (str "[-");
        _goto dst; append (str "+");
        _goto src; append (str "]")].

Definition copy (src dst tmp : Z) : BF -> BF :=
  seq_ [_goto src; append (str "[-");
        _goto dst; append (str "+");
        _goto tmp; append (str "+");
        _goto src; append (str "]");
        move tmp src].

Definition multiply (a b result tmp : Z) : BF -> BF :=
  seq_ [_goto a; append (str "[-");
        _goto b; append (str "[-");
        _goto result; append (str "+");
        _goto tmp; append (str "+");
        _goto b; append (str "]");
        move tmp b;
        _goto a; append (str "]")].

Definition divmod_10 (base : Z) : BF -> BF :=
  seq_ [inc (base + 2) 10;
        _goto base;
        append (str ">");
        set_pos (base + 1);
        append (str "[->-[>+>>]>[+[-<+>]>+>>]<<<<<]");
        set_pos (base + 1);
        clear (base + 2)].

Definition print_number (val_cell ws : Z) : BF -> BF :=
  seq_ [move val_cell (ws + 1);
        divmod_10 ws;
        move (ws + 4) (ws + 7);
        divmod_10 (ws + 6);
        inc (ws + 12) 1;
        inc (ws + 13) 1;
        (* Branch 1: hundreds > 0 *)
        loop_open (ws + 10);
        dec (ws + 12) 1;
        dec (ws + 13) 1;
        inc (ws + 10) 48;
        write (ws + 10);
        clear (ws + 10);
        inc (ws + 9) 48;
        write (ws + 9);
        clear (ws + 9);
        inc (ws + 3) 48;
        write (ws + 3);
        clear (ws + 3);
        loop_close (ws + 10);
        (* Branch 2: hundreds == 0 *)
        loop_open (ws + 12);
        dec (ws + 12) 1;
        (* Sub-branch 2a: tens > 0 *)
        loop_open (ws + 9);
        dec (ws + 13) 1;
        inc (ws + 9) 48;
        write (ws + 9);
        clear (ws + 9);
        inc (ws + 3) 48;
        write (ws + 3);
        clear (ws + 3);
        loop_close (ws + 9);
        (* Sub-branch 2b: tens == 0 *)
        loop_open (ws + 13);
        dec (ws + 13) 1;
        inc (ws + 3) 48;
        write (ws + 3);
        clear (ws + 3);
        loop_close (ws + 13);
        loop_close (ws + 12)].

(** [raw = "".join(self.code)] filtered by [c in "><+-.,[]"] *)
Definition output (self : BF) : list ascii :=
  List.filter Interp.is_op (concat (code self)).

(** The statements of [generate] between [bf = BF()] and
    [return bf.output()]. *)
Definition generate_body : BF -> BF :=
  seq_ [(* Phase 0: read and discard the constant term *)
        read 0;
        clear 0;
        read 0;
        dec 0 32;
        inc 1 1;
        loop_open 0;
        dec 1 1;
        clear 0;
        loop_close 0;
        inc 6 1;
        loop_open 1;
        dec 6 1;
        dec 1 1;
        inc 0 1;
        loop_close 1;
        loop_open 6;
        dec 6 1;
        inc 1 48;
        write 1;
        clear 1;
        inc 1 10;
        write 1;
        clear 1;
        loop_close 6;
        (* Phase 1: main derivative loop *)
        inc 3 1;
        loop_open 0;
        dec 0 1;
        read 2;
        dec 2 48;
        multiply 2 3 4 5;
        print_number 4 7;
        inc 3 1;
        read 1;
        dec 1 32;
        inc 6 1;
        loop_open 1;
        dec 6 1;
        clear 1;
        inc 1 10;
        write 1;
        clear 1;
        loop_close 1;
        loop_open 6;
        dec 6 1;
        inc 0 1;
        inc 1 32;
        write 1;
        clear 1;
        loop_close 6;
        loop_close 0].

Definition generate : list ascii := output (generate_body new).

End Codegen.

Import Interp Codegen.

(** ** Structured programs

    The interpreter runs a flat list of characters with a jump table.  To
    reason about loops the proofs use the same programs as trees, with a
    big-step semantics that counts the turns of the interpreter's loop. *)

Module Structured.

#[local] Set Warnings "-register-all".


Inductive simple : Type := SRight | SLeft | SInc | SDec | SWrite | SRead.

Inductive instr : Type :=
| Op (o : simple)
| Loop (body : list instr).

Definition op_char (o : simple) : ascii :=
  match o with
  | SRight => ">" | SLeft => "<" | SInc => "+" | SDec => "-"
  | SWrite => "." | SRead => ","
  end%char.

Fixpoint flat_instr (i : instr) : list ascii :=
  match i with
  | Op o => [op_char o]
  | Loop body => "["%char :: flat_map flat_instr body ++ ["]"%char]
  end.

(** The characters of a structured program. *)
Definition flat (p : list instr) : list ascii := flat_map flat_instr p.

(** Reading a flat program back: [cur] is the reversed body under
    construction, [stack] the reversed bodies of the enclosing loops. *)
Fixpoint parse_loop (ops : list ascii) (cur : list instr)
    (stack : list (list instr)) : option (list instr) :=
  match ops with
  | [] => match stack with [] => Some (rev cur) | _ => None end
  | c :: rest =>
      if (c =? "[")%char then parse_loop rest [] (cur :: stack)
      else if (c =? "]")%char then
        match stack with
        | [] => None
        | up :: stack' => parse_loop rest (Loop (rev cur) :: up) stack'
        end
      else if (c =? ">")%char then parse_loop rest (Op SRight :: cur) stack
      else if (c =? "<")%char then parse_loop rest (Op SLeft :: cur) stack
      else if (c =? "+")%char then parse_loop rest (Op SInc :: cur) stack
      else if (c =? "-")%char then parse_loop rest (Op SDec :: cur) stack
      else if (c =? ".")%char then parse_loop rest (Op SWrite :: cur) stack
      else if (c =? ",")%char then parse_loop rest (Op SRead :: cur) stack
      else None
  end.

Definition parse (ops : list ascii) : list instr :=
  match parse_loop ops [] [] with Some p => p | None => [] end.

(** Net pointer motion of a program whose loops all return to the cell they
    started on; [None] when some loop does not. *)
Fixpoint shift_instr (i : instr) : option Z :=
  match i with
  | Op SRight => Some 1
  | Op SLeft => Some (-1)
  | Op _ => Some 0
  | Loop body =>
      match fold_right (fun i acc =>
                          match shift_instr i, acc with
                          | Some a, Some b => Some (a + b)
                          | _, _ => None
                          end) (Some 0) body with
      | Some 0 => Some 0
      | _ => None
      end
  end.

Definition shift (p : list instr) : option Z :=
  fold_right (fun i acc =>
                match shift_instr i, acc with
                | Some a, Some b => Some (a + b)
                | _, _ => None
                end) (Some 0) p.

(** *** Big-step semantics over any state space *)

Section BigStep.

Context {St : Type}.
Variable eff : simple -> St -> option St.
Variable cur : St -> Z.

(** [bs p s n s']: from [s] the program [p] runs to its end in [n] turns of
    the interpreter's loop and leaves [s'].  Each test of a loop, on either
    bracket, is one turn. *)
Inductive bs : list instr -> St -> nat -> St -> Prop :=
| bs_nil s : bs [] s 0 s
| bs_op o r s s1 n s2 :
    eff o s = Some s1 -> bs r s1 n s2 -> bs (Op o :: r) s (S n) s2
| bs_skip b r s n s2 :
    cur s = 0 -> bs r s n s2 -> bs (Loop b :: r) s (S n) s2
| bs_iter b r s n1 s1 n2 s2 :
    cur s <> 0 -> bs b s n1 s1 -> bs (Loop b :: r) s1 n2 s2 ->
    bs (Loop b :: r) s (S (n1 + n2)) s2.

(** An executable version, cut after [fuel] nested calls. *)
Fixpoint bs_run (fuel : nat) (p : list instr) (s : St) : option (St * nat) :=
  match fuel with
  | O => None
  | S fuel' =>
      match p with
      | [] => Some (s, O)
      | Op o :: r =>
          match eff o s with
          | Some s1 =>
              match bs_run fuel' r s1 with
              | Some (s2, n) => Some (s2, S n)
              | None => None
              end
          | None => None
          end
      | Loop b :: r =>
          if cur s =? 0 then
            match bs_run fuel' r s with
            | Some (s2, n) => Some (s2, S n)
            | None => None
            end
          else
            match bs_run fuel' b s with
            | Some (s1, n1) =>
                match bs_run fuel' (Loop b :: r) s1 with
                | Some (s2, n2) => Some (s2, S (n1 + n2)%nat)
                | None => None
                end
            | None => None
            end
      end
  end.

End BigStep.

End Structured.

Import Structured.

(** ** The interpreter runs structured programs as their semantics says *)

Module Simulation.

(** *** Structured programs: basic facts *)

Lemma flat_nil : flat [] = [].
Proof. reflexivity. Qed.

Lemma flat_op o r : flat (Op o :: r) = op_char o :: flat r.
Proof. reflexivity. Qed.

Lemma flat_loop b r : flat (Loop b :: r) = "["%char :: flat b ++ "]"%char :: flat r.
Proof.
  unfold flat. simpl. rewrite <- app_assoc. reflexivity.
Qed.

Lemma flat_app p q : flat (p ++ q) = flat p ++ flat q.
Proof. unfold flat. apply flat_map_app. Qed.

Section ProgInd.

Variable Q : list instr -> Prop.
Hypothesis Hnil : Q [].
Hypothesis Hop : forall o r, Q r -> Q (Op o :: r).
Hypothesis Hloop : forall b r, Q b -> Q r -> Q (Loop b :: r).

Fixpoint instr_bodies (i : instr) : match i with Loop b => Q b | Op _ => True end :=
  match i with
  | Op _ => I
  | Loop b =>
      (fix go (l : list instr) : Q l :=
         match l with
         | [] => Hnil
         | x :: r =>
             match x return match x with Loop b => Q b | Op _ => True end ->
                            Q (x :: r) with
             | Op o => fun _ => Hop o r (go r)
             | Loop b' => fun H => Hloop b' r H (go r)
             end (instr_bodies x)
         end) b
  end.

Lemma prog_ind (p : list instr) : Q p.
Proof.
  induction p as [|[o|b] r IH].
  - exact Hnil.
  - apply Hop, IH.
  - apply Hloop; [exact (instr_bodies (Loop b)) | exact IH].
Qed.

End ProgInd.

(** *** The bracket table of a program that contains a structured loop *)

Lemma scan_loop_app l1 : forall l2 i st br,
  scan_loop i (l1 ++ l2) st br =
  match scan_loop i l1 st br with
  | inl e => inl e
  | inr (st1, br1) => scan_loop (i + length l1)%nat l2 st1 br1
  end.
Proof.
  induction l1 as [|c l1 IH]; intros l2 i st br; simpl.
  - f_equal. lia.
  - destruct (c =? "[")%char.
    + rewrite IH. destruct scan_loop as [|[? ?]]; [reflexivity|f_equal; lia].
    + destruct (c =? "]")%char.
      * destruct st as [|j st']; [reflexivity|].
        rewrite IH. destruct scan_loop as [|[? ?]]; [reflexivity|f_equal; lia].
      * rewrite IH. destruct scan_loop as [|[? ?]]; [reflexivity|f_equal; lia].
Qed.

Lemma scan_loop_op o i rest st br :
  scan_loop i (op_char o :: rest) st br = scan_loop (S i) rest st br.
Proof. destruct o; reflexivity. Qed.

(** Scanning a structured program leaves the stack as it was and touches
    only the table entries of its own positions. *)
Lemma scan_flat p : forall i st br,
  exists br', scan_loop i (flat p) st br = inr (st, br') /\
    forall k, (k < i \/ i + length (flat p) <= k)%nat -> br' !! k = br !! k.
Proof.
  induction p as [|o r IH|b r IHb IHr] using prog_ind; intros i st br.
  - exists br. split; reflexivity.
  - rewrite flat_op, scan_loop_op.
    destruct (IH (S i) st br) as [br' [H1 H2]].
    exists br'. split; [exact H1|].
    intros k Hk. apply H2. simpl in Hk. lia.
  - rewrite flat_loop. simpl scan_loop.
    rewrite scan_loop_app.
    destruct (IHb (S i) (i :: st) br) as [br1 [H1 H2]].
    rewrite H1. simpl scan_loop.
    destruct (IHr (S (S i + length (flat b))) st
                (<[(S i + length (flat b))%nat := i]>
                   (<[i := (S i + length (flat b))%nat]> br1)))
      as [br2 [H3 H4]].
    exists br2. split; [exact H3|].
    intros k Hk. simpl in Hk. rewrite length_app in Hk. simpl in Hk.
    rewrite H4 by lia.
    rewrite !lookup_insert_ne by lia.
    apply H2. lia.
Qed.

(** Later turns of the scan write only at later positions and at positions
    still on the stack. *)
Lemma scan_keep l : forall i st br st' br',
  scan_loop i l st br = inr (st', br') ->
  forall k, (k < i)%nat -> k ∉ st -> br' !! k = br !! k.
Proof.
  induction l as [|c l IH]; intros i st br st' br' H k Hk Hst; simpl in H.
  - congruence.
  - destruct (c =? "[")%char.
    + apply (IH _ _ _ _ _ H); [lia|].
      rewrite not_elem_of_cons. split; [lia|exact Hst].
    + destruct (c =? "]")%char.
      * destruct st as [|j st1]; [discriminate|].
        rewrite not_elem_of_cons in Hst. destruct Hst as [Hj Hst].
        rewrite (IH _ _ _ _ _ H) by (try lia; assumption).
        rewrite !lookup_insert_ne by lia. reflexivity.
      * apply (IH _ _ _ _ _ H); [lia|exact Hst].
Qed.

Lemma scan_stack_lt l : forall i st br st' br',
  scan_loop i l st br = inr (st', br') ->
  (forall x, x ∈ st -> (x < i)%nat) ->
  forall x, x ∈ st' -> (x < i + length l)%nat.
Proof.
  induction l as [|c l IH]; intros i st br st' br' H Hst x Hx; simpl in H.
  - inversion H; subst. specialize (Hst x Hx). simpl. lia.
  - simpl length.
    assert (Hgoal : forall st1 br1,
      scan_loop (S i) l st1 br1 = inr (st', br') ->
      (forall y, y ∈ st1 -> (y < S i)%nat) -> (x < i + S (length l))%nat).
    { intros st1 br1 H1 H2.
      pose proof (IH _ _ _ _ _ H1 H2 x Hx). lia. }
    destruct (c =? "[")%char.
    + apply (Hgoal _ _ H). intros y Hy.
      apply elem_of_cons in Hy as [->|Hy]; [lia|]. specialize (Hst y Hy). lia.
    + destruct (c =? "]")%char.
      * destruct st as [|j st1]; [discriminate|].
        apply (Hgoal _ _ H). intros y Hy.
        assert (y < i)%nat by (apply Hst; right; exact Hy). lia.
      * apply (Hgoal _ _ H). intros y Hy. specialize (Hst y Hy). lia.
Qed.

(** The table maps the two brackets of a structured loop to each other. *)
Lemma brackets_loop pre b post br :
  match_brackets (pre ++ "["%char :: flat b ++ "]"%char :: post) = inr br ->
  br !! length pre = Some (length pre + length (flat b) + 1)%nat /\
  br !! (length pre + length (flat b) + 1)%nat = Some (length pre).
Proof.
  unfold match_brackets. rewrite scan_loop_app.
  destruct (scan_loop 0 pre [] ∅) as [e|[st1 br1]] eqn:Hpre; [discriminate|].
  simpl scan_loop. rewrite scan_loop_app.
  destruct (scan_flat b (S (length pre)) (length pre :: st1) br1) as [br2 [H1 H2]].
  simpl plus. rewrite H1. simpl scan_loop.
  set (c := (S (length pre) + length (flat b))%nat).
  match goal with
  | |- context [scan_loop ?i post st1 ?d] =>
      destruct (scan_loop i post st1 d) as [e|[st3 br3]] eqn:Hpost; [discriminate|]
  end.
  intros H.
  assert (br3 = br) by (destruct st3; congruence). subst br3.
  assert (Hlt : forall x, x ∈ st1 -> (x < length pre)%nat).
  { intros x Hx.
    pose proof (scan_stack_lt _ _ _ _ _ _ Hpre) as Hs.
    apply (Hs ltac:(intros y Hy; inversion Hy) x Hx). }
  assert (Ha : length pre ∉ st1) by (intros Hin; apply Hlt in Hin; lia).
  assert (Hc : c ∉ st1) by (intros Hin; apply Hlt in Hin; unfold c in Hin; lia).
  replace (length pre + length (flat b) + 1)%nat with c by (unfold c; lia).
  split.
  - rewrite (scan_keep _ _ _ _ _ _ Hpost) by (try assumption; unfold c; lia).
    rewrite lookup_insert_ne by (unfold c; lia).
    apply lookup_insert_eq.
  - rewrite (scan_keep _ _ _ _ _ _ Hpost) by (try assumption; lia).
    apply lookup_insert_eq.
Qed.

(** *** The machine as a state space for structured programs *)

Section Concrete.

Variable input_bytes : list Z.
Variable cell_size : Z.

(** The effect of a character other than a bracket, read off [exec_op]. *)
Definition ceff (o : simple) (m : machine) : option machine :=
  match exec_op ∅ input_bytes cell_size (op_char o) m 0 0 with
  | inr (m', _) => Some m'
  | inl _ => None
  end.

Lemma exec_op_simple br o m m' ip s :
  ceff o m = Some m' ->
  exec_op br input_bytes cell_size (op_char o) m ip s = inr (m', ip).
Proof.
  unfold ceff, exec_op.
  destruct o; simpl; repeat case_match; intros; simplify_eq; reflexivity.
Qed.

Lemma exec_op_open br m ip s :
  exec_op br input_bytes cell_size "[" m ip s =
  if cell m =? 0 then
    match br !! ip with Some j => inr (m, j) | None => inl (KeyError ip) end
  else inr (m, ip).
Proof. reflexivity. Qed.

Lemma exec_op_close br m ip s :
  exec_op br input_bytes cell_size "]" m ip s =
  if negb (cell m =? 0) then
    match br !! ip with Some j => inr (m, j) | None => inl (KeyError ip) end
  else inr (m, ip).
Proof. reflexivity. Qed.

Variable ops : list ascii.
Variable brackets : gmap nat nat.
Variable max_steps : Z.
Hypothesis Hbrackets : match_brackets ops = inr brackets.

#[local] Abbreviation run := (run_loop ops brackets input_bytes cell_size max_steps).
#[local] Abbreviation turn := (step ops brackets input_bytes cell_size max_steps).

Lemma nth_error_mid {A} (pre : list A) x post :
  nth_error (pre ++ x :: post) (length pre) = Some x.
Proof. rewrite nth_error_app2 by lia. rewrite Nat.sub_diag. reflexivity. Qed.

Lemma turn_within m ip s op :
  nth_error ops ip = Some op -> s + 1 <= max_steps ->
  turn m ip s =
  match exec_op brackets input_bytes cell_size op m ip (s + 1) with
  | inl e => Some (inl e)
  | inr (m', ip') => Some (inr (m', S ip', s + 1))
  end.
Proof.
  intros Hop Hs. unfold step. rewrite Hop.
  destruct (s + 1 >? max_steps) eqn:E; [lia|reflexivity].
Qed.

(** A structured program placed anywhere in [ops] is run by the loop of the
    interpreter as its big-step semantics says, in as many turns; a loop
    may be entered at either of its brackets. *)
Lemma run_structured p m n m' :
  bs ceff cell p m n m' ->
  forall pre post, ops = pre ++ flat p ++ post ->
  forall f s, s + Z.of_nat n <= max_steps ->
    run (n + f) m (length pre) s =
    run f m' (length pre + length (flat p)) (s + Z.of_nat n) /\
    forall b r, p = Loop b :: r ->
      run (n + f) m (length pre + length (flat b) + 1) s =
      run f m' (length pre + length (flat p)) (s + Z.of_nat n).
Proof.
  induction 1 as [m|o r m m1 n m2 Heff Hbs IH
                 |b r m n m2 Hz Hbs IH
                 |b r m n1 m1 n2 m2 Hnz Hb IHb Hr IHr];
    intros pre post Hops f s Hs.
  - split; [|discriminate].
    simpl. f_equal; lia.
  - split; [|discriminate].
    rewrite flat_op in Hops. simpl app in Hops.
    simpl run_loop.
    rewrite (turn_within _ _ _ (op_char o)) by (try lia; rewrite Hops; apply nth_error_mid).
    rewrite (exec_op_simple _ _ _ _ _ _ Heff).
    destruct (IH (pre ++ [op_char o]) post) with (f := f) (s := s + 1) as [IH1 _].
    { rewrite Hops, <- app_assoc. reflexivity. }
    { lia. }
    rewrite length_app in IH1. simpl length in IH1.
    replace (length pre + 1)%nat with (S (length pre)) in IH1 by lia.
    rewrite IH1. f_equal; lia.
  - rewrite flat_loop in Hops. simpl app in Hops. rewrite <- app_assoc in Hops. simpl app in Hops.
    destruct (brackets_loop pre b (flat r ++ post) brackets) as [Ho Hc].
    { rewrite <- Hbrackets, Hops. reflexivity. }
    destruct (IH (pre ++ "["%char :: flat b ++ ["]"%char]) post)
      with (f := f) (s := s + 1) as [IH1 _].
    { rewrite Hops, <- !app_assoc. simpl. rewrite <- !app_assoc. reflexivity. }
    { lia. }
    rewrite length_app in IH1. simpl length in IH1.
    rewrite length_app in IH1. simpl length in IH1.
    assert (Hend : forall ip,
      ip = (length pre + length (flat b) + 1)%nat ->
      run f m2 (length pre + length (flat (Loop b :: r))) (s + Z.of_nat (S n)) =
      run (n + f) m (S ip) (s + 1)).
    { intros ip ->. rewrite flat_loop. simpl length. rewrite length_app. simpl length.
      replace (S (length pre + length (flat b) + 1))
        with (length pre + S (length (flat b) + 1))%nat by lia.
      rewrite IH1. f_equal; lia. }
    split.
    + simpl run_loop.
      rewrite (turn_within _ _ _ "["%char) by (try lia; rewrite Hops; apply nth_error_mid).
      rewrite exec_op_open, Hz. simpl. rewrite Ho.
      symmetry. apply Hend. reflexivity.
    + intros b' r' Heq. inversion Heq; subst b' r'.
      simpl run_loop.
      rewrite (turn_within _ _ _ "]"%char).
      2:{ rewrite Hops.
          replace (pre ++ "["%char :: flat b ++ "]"%char :: flat r ++ post)
            with ((pre ++ "["%char :: flat b) ++ "]"%char :: flat r ++ post)
            by (rewrite <- app_assoc; reflexivity).
          replace (length pre + length (flat b) + 1)%nat
            with (length (pre ++ "["%char :: flat b))
            by (rewrite length_app; simpl; lia).
          apply nth_error_mid. }
      2:{ lia. }
      rewrite exec_op_close, Hz. simpl.
      symmetry. apply Hend. reflexivity.
  - rewrite flat_loop in Hops. simpl app in Hops. rewrite <- app_assoc in Hops. simpl app in Hops.
    destruct (brackets_loop pre b (flat r ++ post) brackets) as [Ho Hc].
    { rewrite <- Hbrackets, Hops. reflexivity. }
    destruct (IHb (pre ++ ["["%char]) ("]"%char :: flat r ++ post))
      with (f := (n2 + f)%nat) (s := s + 1) as [IH1 _].
    { rewrite Hops, <- !app_assoc. reflexivity. }
    { lia. }
    destruct (IHr pre post) with (f := f) (s := s + 1 + Z.of_nat n1) as [_ IH2].
    { rewrite Hops, flat_loop. simpl. rewrite <- app_assoc. reflexivity. }
    { lia. }
    specialize (IH2 b r eq_refl).
    rewrite length_app in IH1. simpl length in IH1.
    assert (Hbody :
      run (n1 + n2 + f) m (S (length pre)) (s + 1) =
      run f m2 (length pre + length (flat (Loop b :: r))) (s + Z.of_nat (S (n1 + n2)))).
    { replace (n1 + n2 + f)%nat with (n1 + (n2 + f))%nat by lia.
      replace (S (length pre)) with (length pre + 1)%nat by lia.
      rewrite IH1.
      replace (length pre + 1 + length (flat b))%nat
        with (length pre + length (flat b) + 1)%nat by lia.
      rewrite IH2. f_equal; lia. }
    assert (Hnz' : (cell m =? 0) = false) by (apply Z.eqb_neq; exact Hnz).
    split.
    + simpl run_loop.
      rewrite (turn_within _ _ _ "["%char) by (try lia; rewrite Hops; apply nth_error_mid).
      rewrite exec_op_open, Hnz'. exact Hbody.
    + intros b' r' Heq. inversion Heq; subst b' r'.
      simpl run_loop.
      rewrite (turn_within _ _ _ "]"%char).
      2:{ rewrite Hops.
          replace (pre ++ "["%char :: flat b ++ "]"%char :: flat r ++ post)
            with ((pre ++ "["%char :: flat b) ++ "]"%char :: flat r ++ post)
            by (rewrite <- app_assoc; reflexivity).
          replace (length pre + length (flat b) + 1)%nat
            with (length (pre ++ "["%char :: flat b))
            by (rewrite length_app; simpl; lia).
          apply nth_error_mid. }
      2:{ lia. }
      rewrite exec_op_close, Hnz'. simpl. rewrite Hc. exact Hbody.
Qed.

End Concrete.

End Simulation.

Import Simulation.

(** ** A window of the tape

    The macros of the generator work on a few neighbouring cells.  A window
    is such a run of cells with a pointer inside it, the input still to be
    read and the output written so far.  Structured programs run on windows
    by computation, and what they do there carries over to the tape of the
    interpreter at any offset. *)

Module Window.

Record wstate : Type := W {
  wcells : list Z;
  wptr : nat;
  winp : list Z;
  wout : list Z
}.

Definition wcur (w : wstate) : Z := nth (wptr w) (wcells w) 0.

Definition wset (v : Z) (w : wstate) : wstate :=
  W (<[wptr w := v]> (wcells w)) (wptr w) (winp w) (wout w).

(** Leaving the window is an error.  With [strict] set, so is reading past
    the end of the input. *)
Definition weff (strict : bool) (cell_size : Z) (o : simple) (w : wstate)
    : option wstate :=
  match o with
  | SRight =>
      if (S (wptr w) <? length (wcells w))%nat
      then Some (W (wcells w) (S (wptr w)) (winp w) (wout w)) else None
  | SLeft =>
      match wptr w with
      | O => None
      | S p => Some (W (wcells w) p (winp w) (wout w))
      end
  | SInc => Some (wset ((wcur w + 1) mod cell_size) w)
  | SDec => Some (wset ((wcur w - 1) mod cell_size) w)
  | SWrite =>
      match chr (wcur w) with
      | Some c => Some (W (wcells w) (wptr w) (winp w) (wout w ++ [c]))
      | None => None
      end
  | SRead =>
      match winp w with
      | b :: rest => Some (W (<[wptr w := b]> (wcells w)) (wptr w) rest (wout w))
      | [] => if strict then None else Some (wset 0 w)
      end
  end.

(** The window [w] sits at cell [base] of the machine [m]; outside of it
    the tape is that of [m0]. *)
Record fits (input_bytes : list Z) (base : Z) (m0 : machine)
    (w : wstate) (m : machine) : Prop := Fits {
  fits_ptr : ptr m = base + Z.of_nat (wptr w);
  fits_in : (wptr w < length (wcells w))%nat;
  fits_cells : forall j, (j < length (wcells w))%nat ->
               cell_at m (base + Z.of_nat j) = nth j (wcells w) 0;
  fits_frame : forall c, 0 <= c ->
               ~ (base <= c < base + Z.of_nat (length (wcells w))) ->
               cell_at m c = cell_at m0 c;
  fits_inp : skipn (input_pos m) input_bytes = winp w;
  fits_out : Interp.output m = wout w;
  fits_wf : 0 <= ptr m < Z.of_nat (length (tape m))
}.

(** A smaller window inside a larger one, which has written [out0] before
    and whose input is [inp0] throughout. *)
Record inside (pre post : list Z) (out0 inp0 : list Z)
    (w1 w2 : wstate) : Prop := Inside {
  inside_cells : wcells w2 = pre ++ wcells w1 ++ post;
  inside_ptr : wptr w2 = (length pre + wptr w1)%nat;
  inside_in : (wptr w1 < length (wcells w1))%nat;
  inside_out : wout w2 = out0 ++ wout w1;
  inside_inp : winp w2 = inp0
}.

(** The same window with more input behind the input of the first. *)
Record more_input (out0 extra : list Z) (w1 w2 : wstate) : Prop := MoreInput {
  more_cells : wcells w2 = wcells w1;
  more_ptr : wptr w2 = wptr w1;
  more_out : wout w2 = out0 ++ wout w1;
  more_inp : winp w2 = winp w1 ++ extra
}.

End Window.

Import Window.

(** ** Big-step semantics: composition, execution and transfer *)

Module BigStepFacts.

Section Generic.

Context {St : Type}.
Variable eff : simple -> St -> option St.
Variable cur : St -> Z.

Lemma bs_app p q s n s1 k s2 :
  bs eff cur p s n s1 -> bs eff cur q s1 k s2 ->
  bs eff cur (p ++ q) s (n + k) s2.
Proof.
  intros Hp. revert q k s2.
  induction Hp as [s|o r s s1 n s2 Heff Hbs IH
                  |b r s n s2 Hz Hbs IH
                  |b r s n1 s1 n2 s2 Hnz Hb IHb Hr IHr]; intros q k s3 Hq; simpl.
  - exact Hq.
  - eapply bs_op; [exact Heff|]. apply IH, Hq.
  - apply bs_skip; [exact Hz|]. apply IH, Hq.
  - replace (S (n1 + n2 + k)) with (S (n1 + (n2 + k))) by lia.
    eapply bs_iter; [exact Hnz|exact Hb|]. apply (IHr q k s3 Hq).
Qed.

Lemma bs_run_sound fuel : forall p s s' n,
  bs_run eff cur fuel p s = Some (s', n) -> bs eff cur p s n s'.
Proof.
  induction fuel as [|fuel IH]; intros p s s' n H; [discriminate|].
  simpl in H. destruct p as [|[o|b] r].
  - inversion H; subst. constructor.
  - destruct (eff o s) as [s1|] eqn:E; [|discriminate].
    destruct (bs_run eff cur fuel r s1) as [[s2 k]|] eqn:E2; [|discriminate].
    inversion H; subst. eapply bs_op; [exact E|]. apply IH, E2.
  - destruct (cur s =? 0) eqn:Ez.
    + destruct (bs_run eff cur fuel r s) as [[s2 k]|] eqn:E2; [|discriminate].
      inversion H; subst. apply bs_skip; [lia|]. apply IH, E2.
    + destruct (bs_run eff cur fuel b s) as [[s1 n1]|] eqn:E1; [|discriminate].
      destruct (bs_run eff cur fuel (Loop b :: r) s1) as [[s2 n2]|] eqn:E2;
        [|discriminate].
      inversion H; subst.
      eapply bs_iter; [lia|apply IH, E1|apply IH, E2].
Qed.

(** The semantics is a partial function. *)
Lemma bs_deterministic p s n s1 :
  bs eff cur p s n s1 -> forall k s2, bs eff cur p s k s2 -> n = k /\ s1 = s2.
Proof.
  induction 1 as [s|o r s s1 n s2 Heff Hbs IH
                 |b r s n s2 Hz Hbs IH
                 |b r s n1 s1 n2 s2 Hnz Hb IHb Hr IHr]; intros k s3 H';
    inversion H'; subst; try contradiction.
  - split; reflexivity.
  - match goal with
    | E : eff o s = Some ?t, B : bs eff cur r ?t _ _ |- _ =>
        assert (s1 = t) by congruence; subst t;
        destruct (IH _ _ B) as [-> ->]
    end.
    split; reflexivity.
  - match goal with
    | B : bs eff cur r s _ _ |- _ => destruct (IH _ _ B) as [-> ->]
    end.
    split; reflexivity.
  - match goal with
    | B : bs eff cur b s _ ?t, C : bs eff cur (Loop b :: r) ?t _ _ |- _ =>
        destruct (IHb _ _ B) as [-> ->]; destruct (IHr _ _ C) as [-> ->]
    end.
    split; reflexivity.
Qed.

End Generic.

(** Programs all of whose operations satisfy [ok]. *)
Inductive all_ops (ok : simple -> Prop) : list instr -> Prop :=
| all_nil : all_ops ok []
| all_op o r : ok o -> all_ops ok r -> all_ops ok (Op o :: r)
| all_loop b r : all_ops ok b -> all_ops ok r -> all_ops ok (Loop b :: r).

Lemma all_ops_true p : all_ops (fun _ => True) p.
Proof.
  induction p as [|o r IH|b r IHb IHr] using prog_ind; constructor; auto.
Qed.

Definition no_read (p : list instr) : bool :=
  forallb (fun c => negb (c =? ",")%char) (flat p).

Lemma no_read_all p : no_read p = true -> all_ops (fun o => o <> SRead) p.
Proof.
  unfold no_read.
  induction p as [|o r IH|b r IHb IHr] using prog_ind; intros H.
  - constructor.
  - rewrite flat_op in H. simpl in H. apply andb_true_iff in H as [H1 H2].
    constructor; [|apply IH, H2]. intros ->. discriminate.
  - rewrite flat_loop in H. simpl in H.
    rewrite forallb_app in H. apply andb_true_iff in H as [H1 H2].
    simpl in H2. constructor; [apply IHb, H1|apply IHr, H2].
Qed.

Section Transfer.

Context {St1 St2 : Type}.
Variable eff1 : simple -> St1 -> option St1.
Variable cur1 : St1 -> Z.
Variable eff2 : simple -> St2 -> option St2.
Variable cur2 : St2 -> Z.
Variable R : St1 -> St2 -> Prop.
Variable ok : simple -> Prop.

Hypothesis R_cur : forall a b, R a b -> cur1 a = cur2 b.
Hypothesis R_eff : forall o a a' b,
  ok o -> R a b -> eff1 o a = Some a' ->
  exists b', eff2 o b = Some b' /\ R a' b'.

(** A run in one state space is a run in any other that simulates it. *)
Lemma bs_transfer p a n a' :
  bs eff1 cur1 p a n a' -> all_ops ok p ->
  forall b, R a b -> exists b', bs eff2 cur2 p b n b' /\ R a' b'.
Proof.
  induction 1 as [s|o r s s1 n s2 Heff Hbs IH
                 |b r s n s2 Hz Hbs IH
                 |b r s n1 s1 n2 s2 Hnz Hb IHb Hr IHr]; intros Hok t Ht.
  - exists t. split; [constructor|exact Ht].
  - inversion Hok; subst.
    destruct (R_eff _ _ _ _ H1 Ht Heff) as [t1 [E1 Ht1]].
    destruct (IH H2 _ Ht1) as [t2 [E2 Ht2]].
    exists t2. split; [eapply bs_op; eassumption|exact Ht2].
  - inversion Hok; subst.
    destruct (IH H2 _ Ht) as [t2 [E2 Ht2]].
    exists t2. split; [|exact Ht2].
    apply bs_skip; [|exact E2]. rewrite <- (R_cur _ _ Ht). exact Hz.
  - inversion Hok; subst.
    destruct (IHb H1 _ Ht) as [t1 [E1 Ht1]].
    destruct (IHr Hok _ Ht1) as [t2 [E2 Ht2]].
    exists t2. split; [|exact Ht2].
    eapply bs_iter; [|exact E1|exact E2].
    rewrite <- (R_cur _ _ Ht). exact Hnz.
Qed.

End Transfer.

End BigStepFacts.

Import BigStepFacts.

(** ** Windows and the tape *)

Module WindowFacts.

Lemma nth_insert_eq {A} (l : list A) p v d :
  (p < length l)%nat -> nth p (<[p := v]> l) d = v.
Proof.
  revert p. induction l as [|x l IH]; intros [|p] H; simpl in *; try lia.
  - reflexivity.
  - apply IH. lia.
Qed.

Lemma nth_insert_ne {A} (l : list A) p j v d :
  j <> p -> nth j (<[p := v]> l) d = nth j l d.
Proof.
  revert p j. induction l as [|x l IH]; intros [|p] [|j] H; simpl;
    try reflexivity; try congruence.
  apply IH. congruence.
Qed.

Lemma nth_app_zeros (l : list Z) k j : nth j (l ++ zeros k) 0 = nth j l 0.
Proof.
  unfold zeros.
  destruct (Nat.lt_ge_cases j (length l)) as [H|H].
  - apply app_nth1, H.
  - rewrite app_nth2 by exact H. rewrite (nth_overflow l) by exact H.
    apply nth_repeat.
Qed.

Lemma length_zeros n : 0 <= n -> Z.of_nat (length (zeros n)) = n.
Proof. intros H. unfold zeros. rewrite repeat_length. lia. Qed.

Lemma nth_error_Some_lt {A} (l : list A) n x :
  nth_error l n = Some x -> (n < length l)%nat.
Proof. intros H. apply nth_error_Some. congruence. Qed.

Lemma skipn_cons_nth {A} (l : list A) n b r :
  skipn n l = b :: r -> nth_error l n = Some b /\ skipn (S n) l = r.
Proof.
  revert l. induction n as [|n IH]; intros [|x l] H; simpl in *; try discriminate.
  - inversion H; subst. split; reflexivity.
  - apply IH in H. exact H.
Qed.

Lemma skipn_nil_nth {A} (l : list A) n :
  skipn n l = [] -> nth_error l n = None.
Proof.
  revert l. induction n as [|n IH]; intros [|x l] H; simpl in *;
    try discriminate; try reflexivity.
  apply IH, H.
Qed.

(** *** How the operations act on the cells of the machine *)

Section Cells.

Variable input_bytes : list Z.
Variable cell_size : Z.

Lemma cell_at_set_cell v m c :
  0 <= ptr m < Z.of_nat (length (tape m)) -> 0 <= c ->
  cell_at (set_cell v m) c = if c =? ptr m then v else cell_at m c.
Proof.
  intros Hwf Hc. unfold cell_at, set_cell. simpl.
  destruct (c =? ptr m) eqn:E.
  - apply Z.eqb_eq in E. subst c. apply nth_insert_eq. lia.
  - apply Z.eqb_neq in E. apply nth_insert_ne. lia.
Qed.

Lemma ceff_right m :
  ceff input_bytes cell_size SRight m =
  Some (Machine (if ptr m + 1 >=? Z.of_nat (length (tape m))
                 then tape m ++ zeros 1000 else tape m)
          (ptr m + 1) (input_pos m) (Interp.output m)).
Proof. reflexivity. Qed.

Lemma ceff_left m :
  ceff input_bytes cell_size SLeft m =
  if ptr m - 1 <? 0 then None
  else Some (Machine (tape m) (ptr m - 1) (input_pos m) (Interp.output m)).
Proof. unfold ceff, exec_op. simpl. destruct (ptr m - 1 <? 0); reflexivity. Qed.

Lemma ceff_inc m :
  ceff input_bytes cell_size SInc m =
  if cell_size =? 0 then None
  else Some (set_cell ((cell m + 1) mod cell_size) m).
Proof. unfold ceff, exec_op. simpl. destruct (cell_size =? 0); reflexivity. Qed.

Lemma ceff_dec m :
  ceff input_bytes cell_size SDec m =
  if cell_size =? 0 then None
  else Some (set_cell ((cell m - 1) mod cell_size) m).
Proof. unfold ceff, exec_op. simpl. destruct (cell_size =? 0); reflexivity. Qed.

Lemma ceff_write m :
  ceff input_bytes cell_size SWrite m =
  match chr (cell m) with
  | Some c => Some (Machine (tape m) (ptr m) (input_pos m) (Interp.output m ++ [c]))
  | None => None
  end.
Proof. unfold ceff, exec_op. simpl. destruct (chr (cell m)); reflexivity. Qed.

Lemma ceff_read m :
  ceff input_bytes cell_size SRead m =
  match nth_error input_bytes (input_pos m) with
  | Some b => Some (Machine (<[Z.to_nat (ptr m) := b]> (tape m)) (ptr m)
                      (S (input_pos m)) (Interp.output m))
  | None => Some (set_cell 0 m)
  end.
Proof.
  unfold ceff, exec_op. simpl.
  destruct (nth_error input_bytes (input_pos m)); reflexivity.
Qed.

(** What every operation keeps: the pointer stays inside the tape. *)
Definition wf (m : machine) : Prop := 0 <= ptr m < Z.of_nat (length (tape m)).

Lemma ceff_wf o m m' : wf m -> ceff input_bytes cell_size o m = Some m' -> wf m'.
Proof.
  unfold wf. intros Hwf H. destruct o.
  - rewrite ceff_right in H. inversion H; subst; clear H. simpl.
    destruct (ptr m + 1 >=? Z.of_nat (length (tape m))) eqn:E.
    + rewrite length_app, Nat2Z.inj_add, length_zeros; lia.
    + lia.
  - rewrite ceff_left in H. destruct (ptr m - 1 <? 0) eqn:E; [discriminate|].
    inversion H; subst; clear H. simpl. lia.
  - rewrite ceff_inc in H. destruct (cell_size =? 0); [discriminate|].
    inversion H; subst; clear H. simpl. rewrite length_insert. lia.
  - rewrite ceff_dec in H. destruct (cell_size =? 0); [discriminate|].
    inversion H; subst; clear H. simpl. rewrite length_insert. lia.
  - rewrite ceff_write in H. destruct (chr (cell m)); [|discriminate].
    inversion H; subst; clear H. simpl. lia.
  - rewrite ceff_read in H.
    destruct (nth_error input_bytes (input_pos m));
      inversion H; subst; clear H; simpl; rewrite length_insert; lia.
Qed.

Lemma ceff_input_pos o m m' :
  (input_pos m <= length input_bytes)%nat ->
  ceff input_bytes cell_size o m = Some m' ->
  (input_pos m' <= length input_bytes)%nat.
Proof.
  intros Hp H. destruct o.
  - rewrite ceff_right in H. inversion H; subst. exact Hp.
  - rewrite ceff_left in H. destruct (ptr m - 1 <? 0); inversion H; subst. exact Hp.
  - rewrite ceff_inc in H. destruct (cell_size =? 0); inversion H; subst. exact Hp.
  - rewrite ceff_dec in H. destruct (cell_size =? 0); inversion H; subst. exact Hp.
  - rewrite ceff_write in H. destruct (chr (cell m)); inversion H; subst. exact Hp.
  - rewrite ceff_read in H.
    destruct (nth_error input_bytes (input_pos m)) eqn:E;
      inversion H; subst; simpl; [|exact Hp].
    apply nth_error_Some_lt in E. lia.
Qed.

(** Running a structured program keeps the pointer inside the tape and
    the input position inside the input. *)
Lemma bs_wf p m n m' :
  bs (ceff input_bytes cell_size) cell p m n m' -> wf m -> wf m'.
Proof.
  induction 1; intros Hm; eauto using ceff_wf.
Qed.

Lemma bs_input_pos p m n m' :
  bs (ceff input_bytes cell_size) cell p m n m' ->
  (input_pos m <= length input_bytes)%nat ->
  (input_pos m' <= length input_bytes)%nat.
Proof.
  induction 1; intros Hm; eauto using ceff_input_pos.
Qed.

Variable base : Z.
Variable m0 : machine.
Hypothesis Hcs : cell_size <> 0.
Hypothesis Hbase : 0 <= base.

Lemma fits_cur w m : fits input_bytes base m0 w m -> wcur w = cell m.
Proof.
  intros [Hp Hin Hc _ _ _ _]. unfold wcur, cell. rewrite Hp. symmetry.
  apply Hc, Hin.
Qed.

Lemma fits_set w m v :
  fits input_bytes base m0 w m ->
  fits input_bytes base m0 (wset v w) (set_cell v m).
Proof.
  intros [Hp Hin Hc Hf Hi Ho Hwf].
  constructor; simpl; try assumption.
  - rewrite length_insert. exact Hin.
  - rewrite length_insert. intros j Hj.
    rewrite cell_at_set_cell by lia.
    destruct (Nat.eq_dec j (wptr w)) as [->|Hne].
    + rewrite nth_insert_eq by exact Hin.
      rewrite Hp, Z.eqb_refl. reflexivity.
    + rewrite nth_insert_ne by exact Hne.
      destruct (base + Z.of_nat j =? ptr m) eqn:E; [lia|].
      apply Hc, Hj.
  - rewrite length_insert. intros c Hc0 Hout.
    rewrite cell_at_set_cell by lia.
    destruct (c =? ptr m) eqn:E; [lia|].
    apply Hf; assumption.
  - rewrite length_insert. exact Hwf.
Qed.

(** Every operation of the window is the same operation of the machine. *)
Lemma fits_eff strict o w w' m :
  fits input_bytes base m0 w m ->
  weff strict cell_size o w = Some w' ->
  exists m', ceff input_bytes cell_size o m = Some m' /\
             fits input_bytes base m0 w' m'.
Proof.
  intros Hfit H.
  pose proof (fits_cur _ _ Hfit) as Hcur.
  destruct o; simpl in H.
  - destruct (S (wptr w) <? length (wcells w))%nat eqn:E; [|discriminate].
    apply Nat.ltb_lt in E. inversion H; subst; clear H.
    rewrite ceff_right. eexists. split; [reflexivity|].
    destruct Hfit as [Hp Hin Hc Hf Hi Ho Hwf].
    assert (Hsame : forall c,
      cell_at (Machine (if ptr m + 1 >=? Z.of_nat (length (tape m))
                        then tape m ++ zeros 1000 else tape m)
                 (ptr m + 1) (input_pos m) (Interp.output m)) c = cell_at m c).
    { intros c. unfold cell_at. simpl.
      destruct (ptr m + 1 >=? Z.of_nat (length (tape m)));
        [apply nth_app_zeros|reflexivity]. }
    constructor; simpl; try assumption.
    + lia.
    + intros j Hj. rewrite Hsame. apply Hc, Hj.
    + intros c Hc0 Hout. rewrite Hsame. apply Hf; assumption.
    + destruct (ptr m + 1 >=? Z.of_nat (length (tape m))) eqn:E2.
      * rewrite length_app, Nat2Z.inj_add, length_zeros; lia.
      * lia.
  - destruct (wptr w) as [|p] eqn:Ep; [discriminate|].
    inversion H; subst; clear H.
    destruct Hfit as [Hp Hin Hc Hf Hi Ho Hwf].
    rewrite ceff_left. destruct (ptr m - 1 <? 0) eqn:E; [lia|].
    eexists. split; [reflexivity|].
    constructor; simpl; try assumption; lia.
  - inversion H; subst; clear H.
    rewrite ceff_inc. destruct (cell_size =? 0) eqn:E; [lia|].
    eexists. split; [reflexivity|]. rewrite Hcur. apply fits_set, Hfit.
  - inversion H; subst; clear H.
    rewrite ceff_dec. destruct (cell_size =? 0) eqn:E; [lia|].
    eexists. split; [reflexivity|]. rewrite Hcur. apply fits_set, Hfit.
  - rewrite ceff_write, <- Hcur.
    destruct (chr (wcur w)) as [c|]; [|discriminate].
    inversion H; subst; clear H.
    eexists. split; [reflexivity|].
    destruct Hfit as [Hp Hin Hc Hf Hi Ho Hwf].
    constructor; simpl; try assumption. rewrite Ho. reflexivity.
  - rewrite ceff_read.
    destruct (winp w) as [|b rest] eqn:Ei.
    + destruct strict; [discriminate|]. inversion H; subst; clear H.
      pose proof (fits_inp _ _ _ _ _ Hfit) as Hi. rewrite Ei in Hi.
      rewrite (skipn_nil_nth _ _ Hi).
      eexists. split; [reflexivity|]. apply fits_set, Hfit.
    + inversion H; subst; clear H.
      pose proof (fits_inp _ _ _ _ _ Hfit) as Hi. rewrite Ei in Hi.
      destruct (skipn_cons_nth _ _ _ _ Hi) as [Hn Hs]. rewrite Hn.
      eexists. split; [reflexivity|].
      pose proof (fits_set w m b Hfit) as [Hp Hin Hc Hf _ Ho Hwf].
      simpl in *.
      constructor; simpl; assumption.
Qed.

(** A structured program that runs inside a window runs on the machine. *)
Lemma bs_fits strict p w n w' m :
  bs (weff strict cell_size) wcur p w n w' ->
  fits input_bytes base m0 w m ->
  exists m', bs (ceff input_bytes cell_size) cell p m n m' /\
             fits input_bytes base m0 w' m'.
Proof.
  intros Hbs Hfit.
  eapply (bs_transfer (weff strict cell_size) wcur
            (ceff input_bytes cell_size) cell
            (fits input_bytes base m0) (fun _ => True)); eauto.
  - apply fits_cur.
  - intros o a a' b _ Hab Ha. eapply fits_eff; eassumption.
  - apply all_ops_true.
Qed.

End Cells.

(** *** A window inside a window *)

Section Inside.

Variable cell_size : Z.
Variables pre post out0 inp0 : list Z.

Lemma nth_inside (l : list Z) j :
  (j < length l)%nat -> nth (length pre + j) (pre ++ l ++ post) 0 = nth j l 0.
Proof.
  intros H. rewrite app_nth2 by lia.
  replace (length pre + j - length pre)%nat with j by lia.
  apply app_nth1, H.
Qed.

Lemma insert_inside (l : list Z) j v :
  (j < length l)%nat ->
  <[(length pre + j)%nat := v]> (pre ++ l ++ post) = pre ++ <[j := v]> l ++ post.
Proof.
  intros H. rewrite insert_app_r. f_equal. apply insert_app_l. exact H.
Qed.

Lemma inside_cur w1 w2 : inside pre post out0 inp0 w1 w2 -> wcur w1 = wcur w2.
Proof.
  intros [Hc Hp Hin _ _]. unfold wcur. rewrite Hc, Hp. symmetry.
  apply nth_inside, Hin.
Qed.

Lemma inside_set w1 w2 v :
  inside pre post out0 inp0 w1 w2 ->
  inside pre post out0 inp0 (wset v w1) (wset v w2).
Proof.
  intros [Hc Hp Hin Ho Hi]. constructor; simpl; try assumption.
  - rewrite Hc, Hp. apply insert_inside, Hin.
  - rewrite length_insert. exact Hin.
Qed.

Lemma inside_eff s1 s2 o w1 w1' w2 :
  o <> SRead ->
  inside pre post out0 inp0 w1 w2 ->
  weff s1 cell_size o w1 = Some w1' ->
  exists w2', weff s2 cell_size o w2 = Some w2' /\
              inside pre post out0 inp0 w1' w2'.
Proof.
  intros Hno Hin H.
  pose proof (inside_cur _ _ Hin) as Hcur.
  destruct o; simpl in H; simpl; try congruence.
  - destruct (S (wptr w1) <? length (wcells w1))%nat eqn:E; [|discriminate].
    apply Nat.ltb_lt in E. inversion H; subst; clear H.
    destruct Hin as [Hc Hp Hi Ho Hinp].
    assert (E2 : (S (wptr w2) <? length (wcells w2))%nat = true).
    { apply Nat.ltb_lt. rewrite Hc, Hp, !length_app. lia. }
    rewrite E2. eexists. split; [reflexivity|].
    constructor; simpl; try assumption. lia.
  - destruct (wptr w1) as [|p] eqn:Ep; [discriminate|].
    inversion H; subst; clear H.
    destruct Hin as [Hc Hp Hi Ho Hinp].
    rewrite Hp, Ep. replace (length pre + S p)%nat with (S (length pre + p)) by lia.
    eexists. split; [reflexivity|].
    constructor; simpl; try assumption; lia.
  - inversion H; subst; clear H. eexists. split; [reflexivity|].
    rewrite <- Hcur. apply inside_set, Hin.
  - inversion H; subst; clear H. eexists. split; [reflexivity|].
    rewrite <- Hcur. apply inside_set, Hin.
  - rewrite <- Hcur. destruct (chr (wcur w1)) as [c|]; [|discriminate].
    inversion H; subst; clear H. eexists. split; [reflexivity|].
    destruct Hin as [Hc Hp Hi Ho Hinp].
    constructor; simpl; try assumption.
    rewrite Ho, app_assoc. reflexivity.
Qed.

(** A program that does not read runs in a larger window as in the
    smaller. *)
Lemma bs_inside s1 s2 p w1 n w1' w2 :
  bs (weff s1 cell_size) wcur p w1 n w1' ->
  no_read p = true ->
  inside pre post out0 inp0 w1 w2 ->
  exists w2', bs (weff s2 cell_size) wcur p w2 n w2' /\
              inside pre post out0 inp0 w1' w2'.
Proof.
  intros Hbs Hnr Hin.
  eapply (bs_transfer (weff s1 cell_size) wcur (weff s2 cell_size) wcur
            (inside pre post out0 inp0) (fun o => o <> SRead)); eauto.
  - apply inside_cur.
  - intros o a a' b Ho Hab Ha. eapply inside_eff; eassumption.
  - apply no_read_all, Hnr.
Qed.

End Inside.

(** *** More input behind the input *)

Section MoreInput.

Variable cell_size : Z.
Variables out0 extra : list Z.

Lemma more_eff s2 o w1 w1' w2 :
  more_input out0 extra w1 w2 ->
  weff true cell_size o w1 = Some w1' ->
  exists w2', weff s2 cell_size o w2 = Some w2' /\
              more_input out0 extra w1' w2'.
Proof.
  intros [Hc Hp Ho Hi] H.
  assert (Hcur : wcur w2 = wcur w1) by (unfold wcur; rewrite Hc, Hp; reflexivity).
  destruct o; simpl in H; simpl; rewrite ?Hc, ?Hp, ?Hcur.
  - destruct (S (wptr w1) <? length (wcells w1))%nat; [|discriminate].
    inversion H; subst; clear H. eexists. split; [reflexivity|].
    constructor; simpl; rewrite ?Hc, ?Hp, ?Ho, ?Hi, <- ?app_assoc; reflexivity.
  - destruct (wptr w1) as [|p]; [discriminate|].
    inversion H; subst; clear H. eexists. split; [reflexivity|].
    constructor; simpl; rewrite ?Hc, ?Hp, ?Ho, ?Hi, <- ?app_assoc; reflexivity.
  - inversion H; subst; clear H. eexists. split; [reflexivity|].
    constructor; simpl; rewrite ?Hc, ?Hp, ?Ho, ?Hi, <- ?app_assoc; reflexivity.
  - inversion H; subst; clear H. eexists. split; [reflexivity|].
    constructor; simpl; rewrite ?Hc, ?Hp, ?Ho, ?Hi, <- ?app_assoc; reflexivity.
  - destruct (chr (wcur w1)) as [c|]; [|discriminate].
    inversion H; subst; clear H. eexists. split; [reflexivity|].
    constructor; simpl; rewrite ?Hc, ?Hp, ?Ho, ?Hi, <- ?app_assoc; reflexivity.
  - destruct (winp w1) as [|b rest] eqn:E; [discriminate|].
    inversion H; subst; clear H. rewrite Hi. simpl.
    eexists. split; [reflexivity|].
    constructor; simpl; rewrite ?Hc, ?Hp, ?Ho, <- ?app_assoc; reflexivity.
Qed.

(** A program that never reads past the end of its input runs the same
    when more input follows. *)
Lemma bs_more_input s2 p w1 n w1' w2 :
  bs (weff true cell_size) wcur p w1 n w1' ->
  more_input out0 extra w1 w2 ->
  exists w2', bs (weff s2 cell_size) wcur p w2 n w2' /\
              more_input out0 extra w1' w2'.
Proof.
  intros Hbs Hin.
  eapply (bs_transfer (weff true cell_size) wcur (weff s2 cell_size) wcur
            (more_input out0 extra) (fun _ => True)); eauto.
  - intros a b [Hc Hp _ _]. unfold wcur. rewrite Hc, Hp. reflexivity.
  - intros o a a' b _ Hab Ha. eapply more_eff; eassumption.
  - apply all_ops_true.
Qed.

End MoreInput.

End WindowFacts.

Import WindowFacts.

(** ** What the generated program is to compute *)

Module Spec.

(** [ord(c)] *)
Definition ord (c : ascii) : Z := Z.of_N (N_of_ascii c).

(** The character with code [b]. *)
Definition char (b : Z) : ascii := ascii_of_N (Z.to_N b).

(** [str(v)] for [v >= 0], as code points. *)
Definition decimal (v : Z) : list Z :=
  map ord (list_ascii_of_string (NilEmpty.string_of_uint (N.to_uint (Z.to_N v)))).

(** [sep.join(parts)] *)
Fixpoint join (sep : list Z) (parts : list (list Z)) : list Z :=
  match parts with
  | [] => []
  | [x] => x
  | x :: rest => x ++ sep ++ join sep rest
  end.

(** The coefficients [c1*i, c2*(i+1), ...] *)
Fixpoint derivative_from (i : Z) (cs : list Z) : list Z :=
  match cs with
  | [] => []
  | c :: rest => c * i :: derivative_from (i + 1) rest
  end.

(** The derivative of [c0 + c1 x + ... + ck x^k], given [[c1; ...; ck]]. *)
Definition derivative (cs : list Z) : list Z := derivative_from 1 cs.

(** The line ["(c1*1) (c2*2) ... (ck*k)\n"]. *)
Definition derivative_line (cs : list Z) : list Z :=
  join [32] (map decimal (derivative cs)) ++ [10].

(** The bytes [" c1 c2 ... ck\n"] that follow the constant term. *)
Fixpoint coeff_bytes (cs : list Z) : list Z :=
  match cs with
  | [] => [10]
  | c :: rest => 32 :: 48 + c :: coeff_bytes rest
  end.

(** The input ["c0 c1 ... ck\n"] as bytes and as text. *)
Definition input_bytes (c0 : Z) (cs : list Z) : list Z :=
  48 + c0 :: coeff_bytes cs.

Definition input_text (c0 : Z) (cs : list Z) : list ascii :=
  map char (input_bytes c0 cs).

Definition is_digit (c : Z) : Prop := 0 <= c <= 9.

(** Every product [ci * i] fits one cell of 8 bits. *)
Fixpoint products_fit (i : Z) (cs : list Z) : Prop :=
  match cs with
  | [] => True
  | c :: rest => c * i <= 255 /\ products_fit (i + 1) rest
  end.

(** Brackets are balanced: the empty text, a text that starts with a
    character other than a bracket and goes on balanced, or a balanced text
    in brackets followed by a balanced text. *)
Inductive balanced : list ascii -> Prop :=
| balanced_nil : balanced []
| balanced_other c l :
    c <> "["%char -> c <> "]"%char -> balanced l -> balanced (c :: l)
| balanced_loop b l :
    balanced b -> balanced l -> balanced ("["%char :: b ++ "]"%char :: l).

(** The ["]"] at position [i] closes nothing: all before it is balanced. *)
Definition unmatched_close (ops : list ascii) (i : nat) : Prop :=
  exists before after,
    ops = before ++ "]"%char :: after /\ length before = i /\ balanced before.

(** The ["["] at position [i] is never closed, and it is the last such:
    all after it is balanced. *)
Definition unmatched_open (ops : list ascii) (i : nat) : Prop :=
  exists before after,
    ops = before ++ "["%char :: after /\ length before = i /\ balanced after.

End Spec.

Import Spec.

(** ** The generated program as a structured program *)

Module Program.

(** The characters a method appends when the cursor is at [p]. *)
Definition emitted (method : BF -> BF) (p : Z) : list ascii :=
  Codegen.output (method (mkBF [] p)).

Definition gen_prog : list instr := Eval vm_compute in parse generate.

(** All of the program before the main loop, and the body of that loop. *)
Definition phase0 : list instr := Eval vm_compute in removelast gen_prog.

Definition main_body : list instr :=
  Eval vm_compute in
    match List.last gen_prog (Op SInc) with Loop b => b | Op _ => [] end.

(** The window of the 21 cells the program uses. *)
Definition cells21 (c0 m : Z) : list Z := c0 :: 0 :: 0 :: m :: repeat 0 17.

Definition range (n : nat) : list Z := map Z.of_nat (seq 0 n).

Definition list_eqb (l1 l2 : list Z) : bool :=
  (length l1 =? length l2)%nat && forallb (fun p => fst p =? snd p) (combine l1 l2).

Definition wstate_eqb (w1 w2 : wstate) : bool :=
  list_eqb (wcells w1) (wcells w2) && (wptr w1 =? wptr w2)%nat &&
  list_eqb (winp w1) (winp w2) && list_eqb (wout w1) (wout w2).

(** [p] run on [w] with [fuel] ends in [w'] within [bound] turns. *)
Definition ends_in (fuel : Z) (p : list instr) (w w' : wstate) (bound : Z) : bool :=
  match bs_run (weff true 256) wcur (Z.to_nat fuel) p w with
  | Some (w1, n) => wstate_eqb w1 w' && (Z.of_nat n <=? bound)
  | None => false
  end.

(** One turn of the main loop: coefficient [d], multiplier [m], and
    the byte [sep] after the coefficient. *)
Abbreviation iter_ok d m sep :=
  (ends_in 100000 main_body
    (W (cells21 1 m) 0 [48 + d; sep] [])
    (W (cells21 (if sep =? 32 then 1 else 0) ((m + 1) mod 256)) 0 []
       (decimal (d * m) ++ [if sep =? 32 then 32 else 10]))
    15000).

Abbreviation iter_all_ok :=
  (forallb (fun d =>
     forallb (fun m =>
       if d * m <=? 255 then iter_ok d m 32 && iter_ok d m 10 else true)
       (range 256)) (range 10)).

(** The part before the main loop when a coefficient follows the constant
    term, and when none does. *)
Abbreviation phase0_more_ok d :=
  (ends_in 10000 phase0 (W (cells21 0 0) 0 [48 + d; 32] [])
     (W (cells21 1 1) 0 [] []) 1000).

Abbreviation phase0_const_ok d t :=
  (ends_in 10000 phase0 (W (cells21 0 0) 0 [48 + d; t] [])
     (W (cells21 0 1) 0 [] [48; 10]) 1500).

Abbreviation phase0_all_ok :=
  (forallb (fun d =>
     phase0_more_ok d &&
     forallb (fun t => (t =? 32) || phase0_const_ok d t) (range 256))
     (range 10)).

End Program.

Import Program.

(** ** From a run on a window to a call of [run_bf] *)

Module Whole.

Lemma match_brackets_flat p : exists br, match_brackets (flat p) = inr br.
Proof.
  destruct (scan_flat p 0 [] ∅) as [br [H _]].
  exists br. unfold match_brackets. rewrite H. reflexivity.
Qed.

Lemma run_loop_end ops br inp cs ms f m ip s :
  nth_error ops ip = None ->
  run_loop ops br inp cs ms (S f) m ip s = Halted m.
Proof. intros H. simpl. unfold step. rewrite H. reflexivity. Qed.

(** A structured program that is the whole program runs to the end. *)
Lemma run_whole p br inp cs ms m n m' f s :
  match_brackets (flat p) = inr br ->
  bs (ceff inp cs) cell p m n m' ->
  s + Z.of_nat n <= ms ->
  run_loop (flat p) br inp cs ms (S (n + f)) m 0 s = Halted m'.
Proof.
  intros Hbr Hbs Hs.
  destruct (run_structured inp cs (flat p) br ms Hbr p m n m' Hbs [] [])
    with (f := S f) (s := s) as [H _].
  { rewrite app_nil_r. reflexivity. }
  { exact Hs. }
  replace (S (n + f)) with (n + S f)%nat by lia.
  simpl length in H. rewrite H.
  apply run_loop_end. apply nth_error_None. simpl. lia.
Qed.

Lemma nth_zeros n j : nth j (zeros n) 0 = 0.
Proof. unfold zeros. apply nth_repeat. Qed.

Lemma cell_at_initial c : cell_at initial c = 0.
Proof.
  unfold cell_at. change (tape initial) with (zeros 30000). apply nth_zeros.
Qed.

(** The window of [k] zero cells at the start of the fresh tape. *)
Lemma fits_initial inp k :
  (0 < k)%nat ->
  fits inp 0 initial (W (repeat 0 k) 0 inp []) initial.
Proof.
  intros Hk. constructor.
  - reflexivity.
  - cbn [wptr wcells]. rewrite repeat_length. exact Hk.
  - intros j _. cbn [wcells]. rewrite cell_at_initial, nth_repeat. reflexivity.
  - reflexivity.
  - reflexivity.
  - reflexivity.
  - change (0 <= 0 < Z.of_nat (length (zeros 30000))).
    rewrite length_zeros; lia.
Qed.

Lemma strip_generate : strip generate = flat gen_prog.
Proof. vm_compute. reflexivity. Qed.

Lemma skipn_pos {A} (l : list A) p a b extra :
  l = a :: b :: extra -> (p <= length l)%nat -> skipn p l = extra -> p = 2%nat.
Proof.
  intros -> Hp H.
  assert (Hl : length (skipn p (a :: b :: extra)) = length extra) by (rewrite H; reflexivity).
  rewrite length_skipn in Hl. simpl in *. lia.
Qed.

(** What the program does on the window of its 21 cells, [run_bf] does:
    the loop of the interpreter ends in a machine that has written what the
    window has and has read what the window has. *)
Lemma run_bf_window text w' n ms :
  bs (weff false 256) wcur gen_prog
     (W (repeat 0 21) 0 (encode_latin1 text) []) n w' ->
  Z.of_nat n <= ms ->
  run_bf generate text 256 ms = Returned (wout w') /\
  exists br m,
    match_brackets (strip generate) = inr br /\
    run_loop (strip generate) br (encode_latin1 text) 256 ms
      (enough_fuel ms) initial 0 0 = Halted m /\
    Interp.output m = wout w' /\
    skipn (input_pos m) (encode_latin1 text) = winp w' /\
    (input_pos m <= length (encode_latin1 text))%nat.
Proof.
  intros Hbs Hn.
  destruct (bs_fits (encode_latin1 text) 256 0 initial ltac:(lia) ltac:(lia)
              false gen_prog _ n w' initial Hbs
              (fits_initial _ 21 ltac:(lia))) as [m [Hm Hfit]].
  destruct (match_brackets_flat gen_prog) as [br Hbr].
  assert (Hrun : run_loop (strip generate) br (encode_latin1 text) 256 ms
                   (enough_fuel ms) initial 0 0 = Halted m).
  { rewrite strip_generate. unfold enough_fuel.
    replace (Z.to_nat ms) with (n + (Z.to_nat ms - n))%nat by lia.
    eapply run_whole; [exact Hbr|exact Hm|lia]. }
  split.
  - unfold run_bf. rewrite strip_generate, Hbr.
    rewrite strip_generate in Hrun. rewrite Hrun.
    f_equal. apply (fits_out _ _ _ _ _ Hfit).
  - exists br, m. rewrite strip_generate. split; [exact Hbr|].
    rewrite strip_generate in Hrun. split; [exact Hrun|].
    split; [apply (fits_out _ _ _ _ _ Hfit)|].
    split; [apply (fits_inp _ _ _ _ _ Hfit)|].
    apply (bs_input_pos _ _ _ _ _ _ Hm). simpl. lia.
Qed.

(** *** Checks by computation *)

Lemma range_In n v : 0 <= v < Z.of_nat n -> In v (range n).
Proof.
  intros H. unfold range. apply in_map_iff. exists (Z.to_nat v).
  split; [lia|]. apply in_seq. lia.
Qed.

Lemma list_eqb_eq l1 : forall l2, list_eqb l1 l2 = true -> l1 = l2.
Proof.
  unfold list_eqb.
  induction l1 as [|x l1 IH]; intros [|y l2] H; simpl in H; try discriminate.
  - reflexivity.
  - apply andb_true_iff in H as [Hl H]. apply andb_true_iff in H as [Hx H].
    apply Z.eqb_eq in Hx. f_equal; [exact Hx|].
    apply IH. rewrite Hl, H. reflexivity.
Qed.

Lemma wstate_eqb_eq w1 w2 : wstate_eqb w1 w2 = true -> w1 = w2.
Proof.
  unfold wstate_eqb. destruct w1, w2. simpl.
  rewrite !andb_true_iff. intros [[[H1 H2] H3] H4].
  apply list_eqb_eq in H1, H3, H4. apply Nat.eqb_eq in H2.
  congruence.
Qed.

Lemma ends_in_sound fuel p w w' bound :
  ends_in fuel p w w' bound = true ->
  exists n, Z.of_nat n <= bound /\ bs (weff true 256) wcur p w n w'.
Proof.
  unfold ends_in.
  destruct (bs_run _ _ _ p w) as [[w1 n]|] eqn:E; [|discriminate].
  rewrite andb_true_iff. intros [H1 H2].
  apply wstate_eqb_eq in H1. subst w1.
  exists n. split; [lia|]. eapply bs_run_sound, E.
Qed.

Lemma iter_checked : iter_all_ok = true.
Proof. vm_compute. reflexivity. Qed.

Lemma phase0_checked : phase0_all_ok = true.
Proof. vm_compute. reflexivity. Qed.

End Whole.

Import Whole.

(** ** The generated program computes the derivative *)

Module Derivative.

(** The output of the main loop from the coefficient of [x^i] on. *)
Fixpoint output_from (i : Z) (cs : list Z) : list Z :=
  match cs with
  | [] => []
  | c :: rest =>
      decimal (c * i) ++
      match rest with
      | [] => [10]
      | _ :: _ => 32 :: output_from (i + 1) rest
      end
  end.

Lemma output_from_line r : forall c i,
  output_from i (c :: r) =
  join [32] (map decimal (derivative_from i (c :: r))) ++ [10].
Proof.
  induction r as [|c' r IH]; intros c i.
  - reflexivity.
  - change (output_from i (c :: c' :: r))
      with (decimal (c * i) ++ 32 :: output_from (i + 1) (c' :: r)).
    rewrite IH.
    change (derivative_from i (c :: c' :: r))
      with (c * i :: derivative_from (i + 1) (c' :: r)).
    change (map decimal (c * i :: derivative_from (i + 1) (c' :: r)))
      with (decimal (c * i) :: map decimal (derivative_from (i + 1) (c' :: r))).
    simpl derivative_from. simpl map. simpl join.
    rewrite <- !app_assoc. reflexivity.
Qed.

(** A run that never reads past its input, started with no output, is a
    run for any output written before and any input that follows. *)
Lemma lift_strict p cells k inp n w' out extra :
  bs (weff true 256) wcur p (W cells k inp []) n w' ->
  bs (weff false 256) wcur p (W cells k (inp ++ extra) out) n
     (W (wcells w') (wptr w') (winp w' ++ extra) (out ++ wout w')).
Proof.
  intros Hbs.
  destruct (bs_more_input 256 out extra false p _ n w'
              (W cells k (inp ++ extra) out) Hbs) as [w2 [H2 [Hc Hp Ho Hi]]].
  { constructor; simpl; try reflexivity. rewrite app_nil_r. reflexivity. }
  destruct w2 as [c2 p2 i2 o2]. simpl in *. subst. exact H2.
Qed.

Lemma forallb_range n f v :
  forallb f (range n) = true -> 0 <= v < Z.of_nat n -> f v = true.
Proof.
  intros H Hv. rewrite forallb_forall in H. apply H, range_In, Hv.
Qed.

(** One turn of the main loop. *)
Lemma iteration d m sep extra out :
  is_digit d -> 0 <= m < 256 -> d * m <= 255 -> sep = 32 \/ sep = 10 ->
  exists n, Z.of_nat n <= 15000 /\
    bs (weff false 256) wcur main_body
       (W (cells21 1 m) 0 (48 + d :: sep :: extra) out) n
       (W (cells21 (if sep =? 32 then 1 else 0) ((m + 1) mod 256)) 0 extra
          (out ++ decimal (d * m) ++ [sep])).
Proof.
  intros Hd Hm Hdm Hsep.
  pose proof iter_checked as H.
  apply (forallb_range _ _ d) in H; [|unfold is_digit in Hd; simpl; lia].
  apply (forallb_range _ _ m) in H; [|simpl; lia].
  cbv beta in H.
  assert (E : (d * m <=? 255) = true) by lia. rewrite E in H.
  apply andb_true_iff in H as [H32 H10].
  assert (Hok : iter_ok d m sep = true) by (destruct Hsep; subst; assumption).
  clear H32 H10.
  apply ends_in_sound in Hok as [n [Hn Hbs]].
  exists n. split; [exact Hn|].
  apply (lift_strict _ _ _ _ _ _ out extra) in Hbs.
  cbn [wcells wptr winp wout app] in Hbs.
  replace (if sep =? 32 then 32 else 10) with sep in Hbs
    by (destruct Hsep; subst; reflexivity).
  exact Hbs.
Qed.

Lemma multiplier_exact c i : is_digit c -> 0 <= i -> c * i <= 255 ->
  c * (i mod 256) = c * i.
Proof.
  intros [Hc0 Hc9] Hi Hci.
  destruct (Z.eq_dec c 0) as [->|Hne]; [lia|].
  rewrite Z.mod_small; [reflexivity|nia].
Qed.

(** The main loop, entered with the multiplier [i] and the coefficients
    [c :: r] still to be read. *)
Lemma main_loop r : forall c i out extra,
  is_digit c -> Forall is_digit r -> products_fit i (c :: r) -> 0 <= i ->
  exists n, Z.of_nat n <= 15002 * (1 + Z.of_nat (length r)) /\
    bs (weff false 256) wcur [Loop main_body]
       (W (cells21 1 (i mod 256)) 0 (48 + c :: coeff_bytes r ++ extra) out) n
       (W (cells21 0 ((i + 1 + Z.of_nat (length r)) mod 256)) 0 extra
          (out ++ output_from i (c :: r))).
Proof.
  induction r as [|c' r IH]; intros c i out extra Hc Hr [Hci Hfit] Hi.
  - destruct (iteration c (i mod 256) 10 extra out Hc) as [n [Hn Hbs]].
    { apply Z.mod_pos_bound. lia. }
    { rewrite multiplier_exact; assumption. }
    { right. reflexivity. }
    exists (S (n + 1)). split; [simpl length; lia|].
    eapply bs_iter; [discriminate|exact Hbs|].
    rewrite multiplier_exact by assumption.
    rewrite Zplus_mod_idemp_l.
    replace (i + 1 + Z.of_nat (length (@nil Z))) with (i + 1) by (simpl; lia).
    apply bs_skip; [reflexivity|]. constructor.
  - inversion Hr as [|? ? Hc' Hr']; subst.
    destruct (iteration c (i mod 256) 32 (48 + c' :: coeff_bytes r ++ extra) out Hc)
      as [n [Hn Hbs]].
    { apply Z.mod_pos_bound. lia. }
    { rewrite multiplier_exact; assumption. }
    { left. reflexivity. }
    rewrite multiplier_exact in Hbs by assumption.
    rewrite Zplus_mod_idemp_l in Hbs.
    destruct (IH c' (i + 1) (out ++ decimal (c * i) ++ [32]) extra Hc' Hr' Hfit)
      as [n2 [Hn2 Hbs2]]; [lia|].
    exists (S (n + n2)). split; [simpl length; lia|].
    eapply bs_iter; [discriminate|exact Hbs|].
    replace (i + 1 + Z.of_nat (length (c' :: r)))
      with (i + 1 + 1 + Z.of_nat (length r)) by (simpl length; lia).
    replace (out ++ output_from i (c :: c' :: r))
      with ((out ++ decimal (c * i) ++ [32]) ++ output_from (i + 1) (c' :: r)).
    { exact Hbs2. }
    change (output_from i (c :: c' :: r))
      with (decimal (c * i) ++ 32 :: output_from (i + 1) (c' :: r)).
    rewrite <- !app_assoc. reflexivity.
Qed.

(** Before the main loop. *)
Lemma phase0_more d extra :
  is_digit d ->
  exists n, Z.of_nat n <= 1000 /\
    bs (weff false 256) wcur phase0
       (W (repeat 0 21) 0 (48 + d :: 32 :: extra) []) n
       (W (cells21 1 1) 0 extra []).
Proof.
  intros Hd.
  pose proof phase0_checked as H.
  apply (forallb_range _ _ d) in H; [|unfold is_digit in Hd; simpl; lia].
  cbv beta in H.
  apply andb_true_iff in H as [H _].
  apply ends_in_sound in H as [n [Hn Hbs]].
  exists n. split; [exact Hn|].
  apply (lift_strict _ _ _ _ _ _ [] extra) in Hbs. exact Hbs.
Qed.

Lemma phase0_const d t extra :
  is_digit d -> 0 <= t < 256 -> t <> 32 ->
  exists n, Z.of_nat n <= 1500 /\
    bs (weff false 256) wcur phase0
       (W (repeat 0 21) 0 (48 + d :: t :: extra) []) n
       (W (cells21 0 1) 0 extra [48; 10]).
Proof.
  intros Hd Ht Hne.
  pose proof phase0_checked as H.
  apply (forallb_range _ _ d) in H; [|unfold is_digit in Hd; simpl; lia].
  cbv beta in H.
  apply andb_true_iff in H as [_ H].
  apply (forallb_range _ _ t) in H; [|simpl; lia].
  cbv beta in H.
  apply orb_true_iff in H as [H|H]; [lia|].
  apply ends_in_sound in H as [n [Hn Hbs]].
  exists n. split; [exact Hn|].
  apply (lift_strict _ _ _ _ _ _ [] extra) in Hbs. exact Hbs.
Qed.

Lemma gen_prog_split : gen_prog = phase0 ++ [Loop main_body].
Proof. reflexivity. Qed.

(** The whole program on the input ["c0 c1 ... ck\n"], [k >= 1]. *)
Lemma gen_prog_derivative c0 c r extra :
  is_digit c0 -> Forall is_digit (c :: r) -> products_fit 1 (c :: r) ->
  exists n, Z.of_nat n <= 1000 + 15002 * Z.of_nat (length (c :: r)) /\
    exists cells,
    bs (weff false 256) wcur gen_prog
       (W (repeat 0 21) 0 (input_bytes c0 (c :: r) ++ extra) []) n
       (W cells 0 extra (derivative_line (c :: r))).
Proof.
  intros H0 Hcs Hfit. inversion Hcs as [|? ? Hc Hr]; subst.
  destruct (phase0_more c0 (48 + c :: coeff_bytes r ++ extra) H0) as [n1 [Hn1 Hbs1]].
  destruct (main_loop r c 1 [] extra Hc Hr Hfit ltac:(lia)) as [n2 [Hn2 Hbs2]].
  exists (n1 + n2)%nat. split; [simpl length; lia|].
  eexists. rewrite gen_prog_split.
  unfold derivative_line, derivative. rewrite <- output_from_line.
  eapply bs_app; [exact Hbs1|exact Hbs2].
Qed.

(** The whole program on a constant and a terminator other than a space. *)
Lemma gen_prog_constant d t extra :
  is_digit d -> 0 <= t < 256 -> t <> 32 ->
  exists n, Z.of_nat n <= 1501 /\
    bs (weff false 256) wcur gen_prog
       (W (repeat 0 21) 0 (48 + d :: t :: extra) []) n
       (W (cells21 0 1) 0 extra [48; 10]).
Proof.
  intros Hd Ht Hne.
  destruct (phase0_const d t extra Hd Ht Hne) as [n [Hn Hbs]].
  exists (n + 1)%nat. split; [lia|].
  rewrite gen_prog_split.
  eapply bs_app; [exact Hbs|].
  apply bs_skip; [reflexivity|]. constructor.
Qed.

(** *** Text and bytes *)

Lemma ord_char b : 0 <= b < 256 -> ord (char b) = b.
Proof.
  intros H. unfold ord, char.
  rewrite N_ascii_embedding by lia. lia.
Qed.

Lemma ord_range c : 0 <= ord c < 256.
Proof.
  unfold ord. pose proof (N_ascii_bounded c). lia.
Qed.

Lemma encode_chars bs :
  Forall (fun b => 0 <= b < 256) bs -> encode_latin1 (map char bs) = bs.
Proof.
  induction 1 as [|b bs Hb _ IH]; simpl; [reflexivity|].
  f_equal; [apply ord_char, Hb|exact IH].
Qed.

Lemma coeff_bytes_range cs :
  Forall is_digit cs -> Forall (fun b => 0 <= b < 256) (coeff_bytes cs).
Proof.
  induction 1 as [|c cs Hc _ IH]; simpl.
  - repeat constructor; lia.
  - unfold is_digit in Hc. repeat constructor; try lia. exact IH.
Qed.

Lemma encode_input_text c0 cs :
  is_digit c0 -> Forall is_digit cs ->
  encode_latin1 (input_text c0 cs) = input_bytes c0 cs.
Proof.
  intros H0 Hcs. apply encode_chars. unfold input_bytes.
  constructor; [unfold is_digit in H0; lia|apply coeff_bytes_range, Hcs].
Qed.

(** *** The result of [run_bf] *)

Lemma generate_derivative c0 c r ms :
  is_digit c0 -> Forall is_digit (c :: r) -> products_fit 1 (c :: r) ->
  1000 + 15002 * Z.of_nat (length (c :: r)) <= ms ->
  run_bf generate (input_text c0 (c :: r)) 256 ms =
  Returned (derivative_line (c :: r)).
Proof.
  intros H0 Hcs Hfit Hms.
  destruct (gen_prog_derivative c0 c r [] H0 Hcs Hfit) as [n [Hn [cells Hbs]]].
  rewrite app_nil_r, <- (encode_input_text c0 (c :: r) H0 Hcs) in Hbs.
  destruct (run_bf_window _ _ n ms Hbs ltac:(lia)) as [H _].
  exact H.
Qed.

End Derivative.

Import Derivative.

(** ** The interpreter on any program *)

Module Runs.

Section Loop.

Variable ops : list ascii.
Variable brackets : gmap nat nat.
Variable input_bytes : list Z.
Variable cell_size : Z.
Variable max_steps : Z.

#[local] Abbreviation run := (run_loop ops brackets input_bytes cell_size max_steps).
#[local] Abbreviation turn := (step ops brackets input_bytes cell_size max_steps).

(** The state after [n] full turns of the loop, if it makes that many. *)
Fixpoint turns (n : nat) (m : machine) (ip : nat) (steps : Z)
    : option (machine * nat * Z) :=
  match n with
  | O => Some (m, ip, steps)
  | S n' =>
      match turn m ip steps with
      | Some (inr (m', ip', steps')) => turns n' m' ip' steps'
      | _ => None
      end
  end.

(** The runs of the loop, as a relation. *)
Inductive loop_runs : machine -> nat -> Z -> loop_result -> Prop :=
| runs_halt m ip s : turn m ip s = None -> loop_runs m ip s (Halted m)
| runs_fail m ip s e : turn m ip s = Some (inl e) -> loop_runs m ip s (Failed e)
| runs_next m ip s m' ip' s' r :
    turn m ip s = Some (inr (m', ip', s')) -> loop_runs m' ip' s' r ->
    loop_runs m ip s r.

Lemma turn_steps m ip s m' ip' s' :
  turn m ip s = Some (inr (m', ip', s')) -> s' = s + 1 /\ s + 1 <= max_steps.
Proof.
  unfold step. destruct (nth_error ops ip) as [op|]; [|discriminate].
  destruct (s + 1 >? max_steps) eqn:E; [discriminate|].
  destruct (exec_op _ _ _ _ _ _ _) as [e|[m1 ip1]]; [discriminate|].
  intros H. inversion H; subst. split; [reflexivity|lia].
Qed.

(** The loop leaves or raises before the fuel is used up. *)
Lemma run_loop_not_cut fuel : forall m ip s,
  (Z.to_nat (max_steps - s) < fuel)%nat -> run fuel m ip s <> Cut.
Proof.
  induction fuel as [|fuel IH]; intros m ip s Hf; [lia|].
  simpl. destruct (turn m ip s) as [[e|[[m' ip'] s']]|] eqn:E; try discriminate.
  apply turn_steps in E as [-> Hs]. apply IH. lia.
Qed.

Lemma loop_runs_run fuel : forall m ip s,
  run fuel m ip s <> Cut -> loop_runs m ip s (run fuel m ip s).
Proof.
  induction fuel as [|fuel IH]; intros m ip s H; [contradiction|].
  simpl in *. destruct (turn m ip s) as [[e|[[m' ip'] s']]|] eqn:E.
  - apply runs_fail, E.
  - eapply runs_next; [exact E|]. apply IH, H.
  - apply runs_halt, E.
Qed.

Lemma loop_runs_unique m ip s r1 :
  loop_runs m ip s r1 -> forall r2, loop_runs m ip s r2 -> r1 = r2.
Proof.
  induction 1 as [m ip s H|m ip s e H|m ip s m' ip' s' r H Hr IH];
    intros r2 H2; inversion H2; subst; try congruence.
  apply IH. congruence.
Qed.

Lemma run_turns n : forall m ip s m' ip' s' f,
  turns n m ip s = Some (m', ip', s') ->
  run (n + f) m ip s = run f m' ip' s'.
Proof.
  induction n as [|n IH]; intros m ip s m' ip' s' f H; simpl in *.
  - inversion H; subst. reflexivity.
  - destruct (turn m ip s) as [[e|[[m1 ip1] s1]]|]; try discriminate.
    apply IH, H.
Qed.

Lemma turns_steps n : forall m ip s m' ip' s',
  turns n m ip s = Some (m', ip', s') ->
  s' = s + Z.of_nat n /\ (n = O \/ s' <= max_steps).
Proof.
  induction n as [|n IH]; intros m ip s m' ip' s' H; simpl in H.
  - inversion H; subst. split; [lia|left; reflexivity].
  - destruct (turn m ip s) as [[e|[[m1 ip1] s1]]|] eqn:E; try discriminate.
    apply turn_steps in E as [-> Hs].
    destruct (IH _ _ _ _ _ _ H) as [-> [->|Hle]]; split; try lia; right; lia.
Qed.

(** A failure of the loop is the failure of one turn, reached by full
    turns. *)
Lemma run_failed fuel : forall m ip s e,
  run fuel m ip s = Failed e ->
  exists n m' ip' s',
    turns n m ip s = Some (m', ip', s') /\ turn m' ip' s' = Some (inl e).
Proof.
  induction fuel as [|fuel IH]; intros m ip s e H; [discriminate|].
  simpl in H. destruct (turn m ip s) as [[e1|[[m1 ip1] s1]]|] eqn:E.
  - inversion H; subst. exists O, m, ip, s. split; [reflexivity|exact E].
  - destruct (IH _ _ _ _ H) as [n [m' [ip' [s' [H1 H2]]]]].
    exists (S n), m', ip', s'. split; [|exact H2]. simpl. rewrite E. exact H1.
  - discriminate.
Qed.

(** The budget is checked before anything else in a turn. *)
Lemma turn_over_budget m ip s :
  nth_error ops ip <> None -> max_steps < s + 1 ->
  turn m ip s = Some (inl (StepsExceeded max_steps (Interp.output m))).
Proof.
  intros Hop Hs. unfold step.
  destruct (nth_error ops ip) as [op|]; [|contradiction].
  destruct (s + 1 >? max_steps) eqn:E; [reflexivity|lia].
Qed.

Lemma turn_exceeded m ip s ms' out :
  turn m ip s = Some (inl (StepsExceeded ms' out)) ->
  ms' = max_steps /\ out = Interp.output m /\ max_steps < s + 1 /\
  nth_error ops ip <> None.
Proof.
  unfold step. destruct (nth_error ops ip) as [op|] eqn:Hop; [|discriminate].
  destruct (s + 1 >? max_steps) eqn:E.
  - intros H. inversion H; subst. repeat split; try lia. discriminate.
  - destruct (exec_op _ _ _ _ _ _ _) as [e|[m1 ip1]] eqn:Ex; [|discriminate].
    intros H. inversion H; subst. exfalso.
    unfold exec_op in Ex.
    repeat match type of Ex with
           | (if ?c then _ else _) = _ => destruct c
           | match ?c with _ => _ end = _ => destruct c
           end; discriminate.
Qed.

(** Moving left of cell 0 ends the run in that turn. *)
Lemma turn_below_zero m ip s :
  nth_error ops ip = Some "<"%char -> ptr m = 0 -> s + 1 <= max_steps ->
  turn m ip s = Some (inl (PointerBelowZero (s + 1))).
Proof.
  intros Hop Hp Hs. unfold step. rewrite Hop.
  destruct (s + 1 >? max_steps) eqn:E; [lia|].
  unfold exec_op. simpl. rewrite Hp. reflexivity.
Qed.

End Loop.

(** The runs of [run_bf], as a relation. *)
Inductive bf_runs (code input_str : list ascii) (cell_size max_steps : Z)
    : result -> Prop :=
| runs_unloaded e :
    match_brackets (strip code) = inl e ->
    bf_runs code input_str cell_size max_steps (Raised e)
| runs_returned br m :
    match_brackets (strip code) = inr br ->
    loop_runs (strip code) br (encode_latin1 input_str) cell_size max_steps
      initial 0 0 (Halted m) ->
    bf_runs code input_str cell_size max_steps (Returned (Interp.output m))
| runs_raised br e :
    match_brackets (strip code) = inr br ->
    loop_runs (strip code) br (encode_latin1 input_str) cell_size max_steps
      initial 0 0 (Failed e) ->
    bf_runs code input_str cell_size max_steps (Raised e).

Lemma enough_fuel_enough max_steps :
  (Z.to_nat (max_steps - 0) < enough_fuel max_steps)%nat.
Proof. unfold enough_fuel. lia. Qed.

(** [run_bf] is total: the fuel of the embedding never runs out. *)
Lemma run_bf_total code input_str cell_size max_steps :
  run_bf code input_str cell_size max_steps <> OutOfFuel.
Proof.
  unfold run_bf. destruct (match_brackets (strip code)) as [e|br]; [discriminate|].
  pose proof (run_loop_not_cut (strip code) br (encode_latin1 input_str)
                cell_size max_steps _ initial 0%nat 0
                (enough_fuel_enough max_steps)) as H.
  destruct (run_loop _ _ _ _ _ _ _ _ _); congruence.
Qed.

Lemma bf_runs_run_bf code input_str cell_size max_steps :
  bf_runs code input_str cell_size max_steps
    (run_bf code input_str cell_size max_steps).
Proof.
  unfold run_bf.
  destruct (match_brackets (strip code)) as [e|br] eqn:Hbr.
  - apply runs_unloaded, Hbr.
  - pose proof (run_loop_not_cut (strip code) br (encode_latin1 input_str)
                  cell_size max_steps _ initial 0%nat 0
                  (enough_fuel_enough max_steps)) as Hcut.
    pose proof (loop_runs_run _ _ _ _ _ _ _ _ _ Hcut) as H.
    destruct (run_loop _ _ _ _ _ _ _ _ _) as [m|e|] eqn:E.
    + eapply runs_returned; eassumption.
    + eapply runs_raised; eassumption.
    + contradiction.
Qed.

Lemma bf_runs_unique code input_str cell_size max_steps r1 r2 :
  bf_runs code input_str cell_size max_steps r1 ->
  bf_runs code input_str cell_size max_steps r2 -> r1 = r2.
Proof.
  intros H1 H2.
  destruct H1 as [e1 L1|br1 m1 L1 R1|br1 e1 L1 R1];
    destruct H2 as [e2 L2|br2 m2 L2 R2|br2 e2 L2 R2];
    try congruence;
    assert (br1 = br2) by congruence; subst br2;
    pose proof (loop_runs_unique _ _ _ _ _ _ _ _ _ R1 _ R2); congruence.
Qed.

End Runs.

Import Runs.

(** ** Loading: the bracket table exists exactly for balanced programs *)

Module Loading.

Lemma balanced_app a b : balanced a -> balanced b -> balanced (a ++ b).
Proof.
  induction 1 as [|c l H1 H2 Hl IH|b0 l Hb IHb Hl IHl]; intros Hb'; simpl.
  - exact Hb'.
  - apply balanced_other; auto.
  - rewrite <- app_assoc. simpl. apply balanced_loop; auto.
Qed.

Lemma balanced_wrap b : balanced b -> balanced ("["%char :: b ++ ["]"%char]).
Proof. intros H. apply balanced_loop; [exact H|constructor]. Qed.

Lemma balanced_flat p : balanced (flat p).
Proof.
  induction p as [|o r IH|b r IHb IHr] using prog_ind.
  - constructor.
  - rewrite flat_op. apply balanced_other; [destruct o; discriminate..|exact IH].
  - rewrite flat_loop. apply balanced_loop; assumption.
Qed.

(** [open_at pre stack]: [stack] holds the positions of the brackets of
    [pre] that are still open, the last one first. *)
Inductive open_at : list ascii -> list nat -> Prop :=
| open_none pre : balanced pre -> open_at pre []
| open_more pre st b :
    open_at pre st -> balanced b ->
    open_at (pre ++ "["%char :: b) (length pre :: st).

Lemma open_at_extend pre st ext :
  open_at pre st -> balanced ext -> open_at (pre ++ ext) st.
Proof.
  induction 1 as [pre Hb|pre st b Ho IH Hb]; intros He.
  - apply open_none, balanced_app; assumption.
  - rewrite <- app_assoc. simpl. apply open_more; [exact Ho|].
    apply balanced_app; assumption.
Qed.

Lemma scan_open_at l : forall pre st br,
  open_at pre st ->
  match scan_loop (length pre) l st br with
  | inl e => exists i, e = UnmatchedClose i /\ unmatched_close (pre ++ l) i
  | inr (st', _) => open_at (pre ++ l) st'
  end.
Proof.
  induction l as [|c l IH]; intros pre st br Hopen; simpl.
  - rewrite app_nil_r. exact Hopen.
  - assert (Hnext : forall st1 br1, open_at (pre ++ [c]) st1 ->
      match scan_loop (S (length pre)) l st1 br1 with
      | inl e => exists i, e = UnmatchedClose i /\ unmatched_close (pre ++ c :: l) i
      | inr (st', _) => open_at (pre ++ c :: l) st'
      end).
    { intros st1 br1 H1. specialize (IH (pre ++ [c]) st1 br1 H1).
      rewrite length_app in IH. simpl in IH.
      replace (length pre + 1)%nat with (S (length pre)) in IH by lia.
      rewrite <- app_assoc in IH. exact IH. }
    destruct (Ascii.eqb_spec c "["%char) as [->|Hno].
    + apply Hnext. apply open_more; [exact Hopen|constructor].
    + destruct (Ascii.eqb_spec c "]"%char) as [->|Hnc].
      * destruct st as [|j st1].
        -- exists (length pre). split; [reflexivity|].
           exists pre, l. split; [reflexivity|]. split; [reflexivity|].
           inversion Hopen; assumption.
        -- apply Hnext.
           inversion Hopen as [|pre0 st0 b Ho Hb]; subst.
           rewrite <- app_assoc. simpl.
           apply open_at_extend; [exact Ho|]. apply balanced_wrap, Hb.
      * apply Hnext. apply open_at_extend; [exact Hopen|].
        apply balanced_other; [assumption..|constructor].
Qed.

(** An unbalanced program does not load, and the error names a bracket
    without a partner. *)
Lemma load_unbalanced ops :
  ~ balanced ops ->
  exists i,
    (match_brackets ops = inl (UnmatchedClose i) /\ unmatched_close ops i) \/
    (match_brackets ops = inl (UnmatchedOpen i) /\ unmatched_open ops i).
Proof.
  intros Hno.
  pose proof (scan_open_at ops [] [] ∅ (open_none [] balanced_nil)) as H.
  simpl in H. unfold match_brackets.
  destruct (scan_loop 0 ops [] ∅) as [e|[st br]].
  - destruct H as [i [-> Hi]]. exists i. left. split; [reflexivity|exact Hi].
  - destruct st as [|top st].
    + inversion H; contradiction.
    + inversion H as [|pre0 st0 b Ho Hb]; subst.
      exists (length pre0). right. split; [reflexivity|].
      exists pre0, b. split; [reflexivity|]. split; [reflexivity|exact Hb].
Qed.

Lemma scan_balanced l :
  balanced l -> forall i st br,
  exists br', scan_loop i l st br = inr (st, br').
Proof.
  induction 1 as [|c l H1 H2 Hl IH|b l Hb IHb Hl IHl]; intros i st br.
  - exists br. reflexivity.
  - simpl. apply Ascii.eqb_neq in H1, H2. rewrite H1, H2. apply IH.
  - simpl. rewrite scan_loop_app.
    destruct (IHb (S i) (i :: st) br) as [br1 ->]. simpl. apply IHl.
Qed.

(** A balanced program loads. *)
Lemma load_balanced ops :
  balanced ops -> exists br, match_brackets ops = inr br.
Proof.
  intros H. destruct (scan_balanced ops H 0%nat [] ∅) as [br Hbr].
  exists br. unfold match_brackets. rewrite Hbr. reflexivity.
Qed.

Lemma strip_ops code : Forall (fun c => is_op c = true) (strip code).
Proof.
  unfold strip. apply List.Forall_forall. intros c Hc.
  apply filter_In in Hc. apply Hc.
Qed.

End Loading.

Import Loading.

(** ** The values of the cells *)

Module Range.

Section Range.

Variable ops : list ascii.
Variable brackets : gmap nat nat.
Variable input_bytes : list Z.
Variable cell_size : Z.
Variable max_steps : Z.

Definition in_range (m : machine) : Prop :=
  Forall (fun v => 0 <= v < cell_size) (tape m).

Hypothesis Hsize : 0 < cell_size.
Hypothesis Hinput : Forall (fun b => 0 <= b < cell_size) input_bytes.

Lemma in_range_set v m :
  0 <= v < cell_size -> in_range m -> in_range (set_cell v m).
Proof.
  intros Hv Hm. unfold in_range, set_cell. simpl.
  apply Forall_insert; assumption.
Qed.

Lemma exec_op_in_range op m ip s m' ip' :
  in_range m ->
  exec_op brackets input_bytes cell_size op m ip s = inr (m', ip') ->
  in_range m'.
Proof.
  intros Hm H. unfold exec_op in H.
  assert (Hmod : forall x, 0 <= x mod cell_size < cell_size)
    by (intros x; apply Z.mod_pos_bound, Hsize).
  destruct (op =? ">")%char.
  { inversion H; subst; clear H. unfold in_range. simpl.
    destruct (ptr m + 1 >=? Z.of_nat (length (tape m))); [|exact Hm].
    apply Forall_app. split; [exact Hm|].
    unfold zeros. apply List.Forall_forall. intros x Hx.
    apply repeat_spec in Hx. lia. }
  destruct (op =? "<")%char.
  { destruct (ptr m - 1 <? 0); inversion H; subst. exact Hm. }
  destruct (op =? "+")%char.
  { destruct (cell_size =? 0); inversion H; subst. apply in_range_set; auto. }
  destruct (op =? "-")%char.
  { destruct (cell_size =? 0); inversion H; subst. apply in_range_set; auto. }
  destruct (op =? ".")%char.
  { destruct (chr (cell m)); inversion H; subst. exact Hm. }
  destruct (op =? ",")%char.
  { destruct (nth_error input_bytes (input_pos m)) as [b|] eqn:E;
      inversion H; subst; clear H.
    - apply nth_error_In in E. rewrite List.Forall_forall in Hinput.
      apply (in_range_set b m (Hinput _ E) Hm).
    - apply in_range_set; [lia|exact Hm]. }
  destruct (op =? "[")%char.
  { destruct (cell m =? 0); [destruct (brackets !! ip)|];
      inversion H; subst; exact Hm. }
  destruct (op =? "]")%char.
  { destruct (negb (cell m =? 0)); [destruct (brackets !! ip)|];
      inversion H; subst; exact Hm. }
  inversion H; subst. exact Hm.
Qed.

Lemma turns_in_range n : forall m ip s m' ip' s',
  in_range m ->
  turns ops brackets input_bytes cell_size max_steps n m ip s = Some (m', ip', s') ->
  in_range m'.
Proof.
  induction n as [|n IH]; intros m ip s m' ip' s' Hm H; simpl in H.
  - inversion H; subst. exact Hm.
  - destruct (step _ _ _ _ _ m ip s) as [[e|[[m1 ip1] s1]]|] eqn:E;
      try discriminate.
    apply (IH _ _ _ _ _ _) in H; [exact H|].
    unfold step in E. destruct (nth_error ops ip) as [op|]; [|discriminate].
    destruct (s + 1 >? max_steps); [discriminate|].
    destruct (exec_op _ _ _ op m ip (s + 1)) as [e|[m2 ip2]] eqn:Ex;
      [discriminate|].
    inversion E; subst. eapply exec_op_in_range; eassumption.
Qed.

Lemma initial_in_range : in_range initial.
Proof.
  unfold in_range. change (tape initial) with (zeros 30000). unfold zeros.
  apply List.Forall_forall. intros x Hx. apply repeat_spec in Hx. lia.
Qed.

End Range.

Lemma exec_op_wf br inp cs op m ip s m' ip' :
  wf m -> exec_op br inp cs op m ip s = inr (m', ip') -> wf m'.
Proof.
  unfold wf. intros Hm H. unfold exec_op in H.
  destruct (op =? ">")%char.
  { inversion H; subst; clear H. simpl.
    destruct (ptr m + 1 >=? Z.of_nat (length (tape m))) eqn:E.
    - rewrite length_app, Nat2Z.inj_add, length_zeros; lia.
    - lia. }
  destruct (op =? "<")%char.
  { destruct (ptr m - 1 <? 0) eqn:E; inversion H; subst. simpl. lia. }
  destruct (op =? "+")%char.
  { destruct (cs =? 0); inversion H; subst. simpl. rewrite length_insert. lia. }
  destruct (op =? "-")%char.
  { destruct (cs =? 0); inversion H; subst. simpl. rewrite length_insert. lia. }
  destruct (op =? ".")%char.
  { destruct (chr (cell m)); inversion H; subst. simpl. lia. }
  destruct (op =? ",")%char.
  { destruct (nth_error inp (input_pos m));
      inversion H; subst; simpl; rewrite length_insert; lia. }
  destruct (op =? "[")%char.
  { destruct (cell m =? 0); [destruct (br !! ip)|]; inversion H; subst; exact Hm. }
  destruct (op =? "]")%char.
  { destruct (negb (cell m =? 0)); [destruct (br !! ip)|];
      inversion H; subst; exact Hm. }
  inversion H; subst. exact Hm.
Qed.

(** The pointer is inside the tape whenever the tape is read or written. *)
Lemma turns_wf ops br inp cs ms n : forall m ip s m' ip' s',
  wf m -> turns ops br inp cs ms n m ip s = Some (m', ip', s') -> wf m'.
Proof.
  induction n as [|n IH]; intros m ip s m' ip' s' Hm H; simpl in H.
  - inversion H; subst. exact Hm.
  - destruct (step _ _ _ _ _ m ip s) as [[e|[[m1 ip1] s1]]|] eqn:E;
      try discriminate.
    apply (IH _ _ _ _ _ _) in H; [exact H|].
    unfold step in E. destruct (nth_error ops ip) as [op|]; [|discriminate].
    destruct (s + 1 >? ms); [discriminate|].
    destruct (exec_op _ _ _ op m ip (s + 1)) as [e|[m2 ip2]] eqn:Ex;
      [discriminate|].
    inversion E; subst. eapply exec_op_wf; eassumption.
Qed.

Lemma initial_wf : wf initial.
Proof.
  unfold wf. change (tape initial) with (zeros 30000).
  rewrite length_zeros; simpl; lia.
Qed.

End Range.

Import Range.

(** ** What the methods of [BF] emit *)

Module Emitter.

(** The motion from cell [a] to cell [b]. *)
Definition goto (a b : Z) : list instr :=
  if b - a >? 0 then repeat (Op SRight) (Z.to_nat (b - a))
  else if b - a <? 0 then repeat (Op SLeft) (Z.to_nat (- (b - a)))
  else [].

(** A method only appends to the code, and what it appends and where it
    leaves the cursor depend on the cursor alone. *)
Definition appends (M : BF -> BF) : Prop :=
  forall c p,
    M (mkBF c p) = mkBF (c ++ code (M (mkBF [] p))) (pos (M (mkBF [] p))).

(** [M'] is [M] on cells moved by [k]. *)
Definition shifted (k : Z) (M M' : BF -> BF) : Prop :=
  forall c p,
    M' (mkBF c (p + k)) = mkBF (code (M (mkBF c p))) (pos (M (mkBF c p)) + k).

(** [M] starts by moving the cursor to [c]. *)
Definition begins (c : Z) (M : BF -> BF) : Prop :=
  forall b, M b = M (_goto c b).

Lemma appends_append s : appends (append s).
Proof. intros c p. reflexivity. Qed.

Lemma appends_set_pos q : appends (set_pos q).
Proof. intros c p. unfold set_pos. simpl. rewrite app_nil_r. reflexivity. Qed.

Lemma appends_goto cell : appends (_goto cell).
Proof.
  intros c p. unfold _goto. simpl.
  destruct (cell - p >? 0); [reflexivity|].
  destruct (cell - p <? 0); [reflexivity|].
  simpl. rewrite app_nil_r. reflexivity.
Qed.

Lemma seq_cons M Ms b : seq_ (M :: Ms) b = seq_ Ms (M b).
Proof. reflexivity. Qed.

Lemma seq_app l1 l2 b : seq_ (l1 ++ l2) b = seq_ l2 (seq_ l1 b).
Proof. unfold seq_. apply fold_left_app. Qed.

Lemma appends_seq Ms : Forall appends Ms -> appends (seq_ Ms).
Proof.
  induction 1 as [|M Ms HM _ IH]; intros c p.
  - simpl. rewrite app_nil_r. reflexivity.
  - rewrite !seq_cons. rewrite (HM c p), (HM [] p). simpl.
    rewrite IH. rewrite (IH (code (M (mkBF [] p)))). simpl.
    rewrite app_assoc. reflexivity.
Qed.

Ltac appends_prim :=
  idtac;
  lazymatch goal with
  | |- appends (append _) => apply appends_append
  | |- appends (set_pos _) => apply appends_set_pos
  | |- appends (Codegen._goto _) => apply appends_goto
  end.

Ltac appends_list prim :=
  apply appends_seq;
  repeat (apply List.Forall_cons; [prim|]); apply List.Forall_nil.

Lemma appends_inc c n : appends (inc c n).
Proof. unfold inc. appends_list appends_prim. Qed.

Lemma appends_dec c n : appends (dec c n).
Proof. unfold dec. appends_list appends_prim. Qed.

Lemma appends_clear c : appends (clear c).
Proof. unfold clear. appends_list appends_prim. Qed.

Lemma appends_read c : appends (read c).
Proof. unfold read. appends_list appends_prim. Qed.

Lemma appends_write c : appends (write c).
Proof. unfold write. appends_list appends_prim. Qed.

Lemma appends_loop_open c : appends (loop_open c).
Proof. unfold loop_open. appends_list appends_prim. Qed.

Lemma appends_loop_close c : appends (loop_close c).
Proof. unfold loop_close. appends_list appends_prim. Qed.

Lemma appends_move a b : appends (move a b).
Proof. unfold move. appends_list appends_prim. Qed.

Ltac appends_macro :=
  idtac;
  lazymatch goal with
  | |- appends (append _) => apply appends_append
  | |- appends (set_pos _) => apply appends_set_pos
  | |- appends (Codegen._goto _) => apply appends_goto
  | |- appends (inc _ _) => apply appends_inc
  | |- appends (dec _ _) => apply appends_dec
  | |- appends (clear _) => apply appends_clear
  | |- appends (read _) => apply appends_read
  | |- appends (write _) => apply appends_write
  | |- appends (loop_open _) => apply appends_loop_open
  | |- appends (loop_close _) => apply appends_loop_close
  | |- appends (move _ _) => apply appends_move
  end.

Lemma appends_copy a b t : appends (copy a b t).
Proof. unfold copy. appends_list appends_macro. Qed.

Lemma appends_multiply a b r t : appends (multiply a b r t).
Proof. unfold multiply. appends_list appends_macro. Qed.

Lemma appends_divmod_10 b : appends (divmod_10 b).
Proof. unfold divmod_10. appends_list appends_macro. Qed.

Ltac appends_any :=
  idtac;
  lazymatch goal with
  | |- appends (divmod_10 _) => apply appends_divmod_10
  | |- appends (copy _ _ _) => apply appends_copy
  | |- appends (multiply _ _ _ _) => apply appends_multiply
  | |- _ => appends_macro
  end.

(** The statements of [print_number] after the first. *)
Definition print_rest_methods (ws : Z) : list (BF -> BF) :=
  List.tl (
       [move 0 (ws + 1);
        divmod_10 ws;
        move (ws + 4) (ws + 7);
        divmod_10 (ws + 6);
        inc (ws + 12) 1;
        inc (ws + 13) 1;
        loop_open (ws + 10);
        dec (ws + 12) 1;
        dec (ws + 13) 1;
        inc (ws + 10) 48;
        write (ws + 10);
        clear (ws + 10);
        inc (ws + 9) 48;
        write (ws + 9);
        clear (ws + 9);
        inc (ws + 3) 48;
        write (ws + 3);
        clear (ws + 3);
        loop_close (ws + 10);
        loop_open (ws + 12);
        dec (ws + 12) 1;
        loop_open (ws + 9);
        dec (ws + 13) 1;
        inc (ws + 9) 48;
        write (ws + 9);
        clear (ws + 9);
        inc (ws + 3) 48;
        write (ws + 3);
        clear (ws + 3);
        loop_close (ws + 9);
        loop_open (ws + 13);
        dec (ws + 13) 1;
        inc (ws + 3) 48;
        write (ws + 3);
        clear (ws + 3);
        loop_close (ws + 13);
        loop_close (ws + 12)]).

Lemma print_number_methods v ws :
  print_number v ws = seq_ (move v (ws + 1) :: print_rest_methods ws).
Proof. reflexivity. Qed.

Lemma appends_print_rest ws : appends (seq_ (print_rest_methods ws)).
Proof. unfold print_rest_methods. cbn [List.tl]. appends_list appends_any. Qed.

Lemma appends_print_number v ws : appends (print_number v ws).
Proof.
  rewrite print_number_methods. unfold print_rest_methods. cbn [List.tl].
  appends_list appends_any.
Qed.

(** *** The characters emitted *)

Lemma emitted_seq_cons M Ms p :
  appends M -> appends (seq_ Ms) ->
  emitted (seq_ (M :: Ms)) p =
  emitted M p ++ emitted (seq_ Ms) (pos (M (mkBF [] p))).
Proof.
  intros HM HMs. unfold emitted, Codegen.output.
  rewrite seq_cons. rewrite (HM [] p). simpl. rewrite HMs. simpl.
  rewrite concat_app, List.filter_app. reflexivity.
Qed.

Lemma emitted_seq_nil p : emitted (seq_ []) p = [].
Proof. reflexivity. Qed.

Lemma emitted_append s p : emitted (append s) p = strip s.
Proof.
  unfold emitted, Codegen.output, append, strip. simpl.
  rewrite app_nil_r. reflexivity.
Qed.

Lemma emitted_set_pos q p : emitted (set_pos q) p = [].
Proof. reflexivity. Qed.

Lemma strip_repeat c n : is_op c = true -> strip (repeat c n) = repeat c n.
Proof.
  intros H. induction n as [|n IH]; simpl; [reflexivity|].
  rewrite H. f_equal. exact IH.
Qed.

Lemma flat_repeat o n : flat (repeat (Op o) n) = repeat (op_char o) n.
Proof.
  induction n as [|n IH]; [reflexivity|].
  simpl repeat. rewrite flat_op, IH. reflexivity.
Qed.

Lemma emitted_goto c p : emitted (_goto c) p = flat (goto p c).
Proof.
  unfold emitted, Codegen.output, _goto, goto. simpl.
  destruct (c - p >? 0).
  - simpl. rewrite app_nil_r, flat_repeat. apply (strip_repeat ">"). reflexivity.
  - destruct (c - p <? 0).
    + simpl. rewrite app_nil_r, flat_repeat. apply (strip_repeat "<"). reflexivity.
    + reflexivity.
Qed.

Lemma pos_goto c b : pos (_goto c b) = c.
Proof. reflexivity. Qed.

Lemma goto_same c : goto c c = [].
Proof.
  unfold goto. rewrite Z.sub_diag. reflexivity.
Qed.

Lemma goto_shift a b k : goto (a + k) (b + k) = goto a b.
Proof.
  unfold goto. replace (b + k - (a + k)) with (b - a) by lia. reflexivity.
Qed.

(** *** Methods that start with a motion *)

Lemma goto_idem c b : _goto c (_goto c b) = _goto c b.
Proof.
  destruct b as [cd p]. unfold _goto. cbn [pos code set_pos append].
  rewrite Z.sub_diag. cbn. destruct (c - p >? 0); [reflexivity|].
  destruct (c - p <? 0); reflexivity.
Qed.

Lemma begins_goto c : begins c (_goto c).
Proof. intros b. symmetry. apply goto_idem. Qed.

Lemma begins_seq c M Ms : begins c M -> begins c (seq_ (M :: Ms)).
Proof. intros H b. rewrite !seq_cons. rewrite <- H. reflexivity. Qed.

Lemma begins_inc c n : begins c (inc c n).
Proof. apply begins_seq, begins_goto. Qed.

Lemma begins_divmod_10 b : begins (b + 2) (divmod_10 b).
Proof. apply begins_seq, begins_inc. Qed.

Lemma begins_print_rest ws : begins (ws + 2) (seq_ (print_rest_methods ws)).
Proof. apply begins_seq, begins_divmod_10. Qed.

(** A method that starts with a motion emits that motion and then what it
    emits with the cursor already there. *)
Lemma emitted_begins c M p :
  begins c M -> appends M ->
  emitted M p = flat (goto p c) ++ emitted M c.
Proof.
  intros Hb Ha. rewrite <- emitted_goto.
  unfold emitted, Codegen.output.
  rewrite (Hb (mkBF [] p)).
  rewrite (appends_goto c [] p). simpl.
  rewrite Ha. simpl. rewrite concat_app, List.filter_app. reflexivity.
Qed.

(** *** Methods on cells moved by [k] *)

Lemma shifted_append k s : shifted k (append s) (append s).
Proof. intros c p. reflexivity. Qed.

Lemma shifted_set_pos k q q' : q' = q + k -> shifted k (set_pos q) (set_pos q').
Proof. intros -> c p. reflexivity. Qed.

Lemma shifted_goto k cell cell' :
  cell' = cell + k -> shifted k (_goto cell) (_goto cell').
Proof.
  intros -> c p. unfold _goto. simpl.
  replace (cell + k - (p + k)) with (cell - p) by lia.
  destruct (cell - p >? 0); [reflexivity|].
  destruct (cell - p <? 0); reflexivity.
Qed.

Lemma shifted_seq k Ms Ms' :
  Forall2 (shifted k) Ms Ms' -> shifted k (seq_ Ms) (seq_ Ms').
Proof.
  induction 1 as [|M M' Ms Ms' HM _ IH]; intros c p.
  - reflexivity.
  - rewrite !seq_cons. rewrite (HM c p).
    destruct (M (mkBF c p)) as [c1 p1]. simpl. apply IH.
Qed.

Ltac shifted_prim :=
  idtac;
  lazymatch goal with
  | |- shifted _ (append _) (append _) => apply shifted_append
  | |- shifted _ (Codegen._goto _) (Codegen._goto _) => apply shifted_goto; lia
  | |- shifted _ (set_pos _) (set_pos _) => apply shifted_set_pos; lia
  end.

Ltac shifted_list prim :=
  apply shifted_seq;
  repeat (apply List.Forall2_cons; [prim|]); apply List.Forall2_nil.

Ltac shifted_seq_tac := shifted_list shifted_prim.

Lemma shifted_inc k c c' n : c' = c + k -> shifted k (inc c n) (inc c' n).
Proof. intros ->. unfold inc. shifted_seq_tac. Qed.

Lemma shifted_dec k c c' n : c' = c + k -> shifted k (dec c n) (dec c' n).
Proof. intros ->. unfold dec. shifted_seq_tac. Qed.

Lemma shifted_clear k c c' : c' = c + k -> shifted k (clear c) (clear c').
Proof. intros ->. unfold clear. shifted_seq_tac. Qed.

Lemma shifted_write k c c' : c' = c + k -> shifted k (write c) (write c').
Proof. intros ->. unfold write. shifted_seq_tac. Qed.

Lemma shifted_loop_open k c c' :
  c' = c + k -> shifted k (loop_open c) (loop_open c').
Proof. intros ->. unfold loop_open. shifted_seq_tac. Qed.

Lemma shifted_loop_close k c c' :
  c' = c + k -> shifted k (loop_close c) (loop_close c').
Proof. intros ->. unfold loop_close. shifted_seq_tac. Qed.

Lemma shifted_move k a a' b b' :
  a' = a + k -> b' = b + k -> shifted k (move a b) (move a' b').
Proof. intros -> ->. unfold move. shifted_seq_tac. Qed.

Ltac shifted_macro_with rec :=
  idtac;
  lazymatch goal with
  | |- shifted _ (inc _ _) (inc _ _) => apply shifted_inc; lia
  | |- shifted _ (dec _ _) (dec _ _) => apply shifted_dec; lia
  | |- shifted _ (clear _) (clear _) => apply shifted_clear; lia
  | |- shifted _ (write _) (write _) => apply shifted_write; lia
  | |- shifted _ (loop_open _) (loop_open _) => apply shifted_loop_open; lia
  | |- shifted _ (loop_close _) (loop_close _) => apply shifted_loop_close; lia
  | |- shifted _ (move _ _) (move _ _) => apply shifted_move; lia
  | |- _ => first [shifted_prim | rec]
  end.

Ltac shifted_macro := idtac; shifted_macro_with ltac:(fail).

Lemma shifted_divmod_10 k b b' :
  b' = b + k -> shifted k (divmod_10 b) (divmod_10 b').
Proof.
  intros ->. unfold divmod_10. shifted_list shifted_macro.
Qed.

Lemma shifted_print_rest ws :
  shifted ws (seq_ (print_rest_methods 0)) (seq_ (print_rest_methods ws)).
Proof.
  unfold print_rest_methods. cbn [List.tl].
  shifted_list ltac:(shifted_macro_with ltac:(apply shifted_divmod_10; lia)).
Qed.

Lemma emitted_shifted k M M' p :
  shifted k M M' -> emitted M' (p + k) = emitted M p.
Proof.
  intros H. unfold emitted. rewrite (H [] p). reflexivity.
Qed.

Lemma pos_shifted k M M' p :
  shifted k M M' -> pos (M' (mkBF [] (p + k))) = pos (M (mkBF [] p)) + k.
Proof. intros H. rewrite (H [] p). reflexivity. Qed.

End Emitter.

Import Emitter.

(** ** What the macros do *)

Module Macros.

(** The code of [divmod_10] after the first motion, and that of
    [print_number] after its first [move] and the motion that follows. *)
Definition divmod_core : list instr :=
  Eval vm_compute in parse (emitted (divmod_10 0) 2).

Definition print_rest : list instr :=
  Eval vm_compute in parse (emitted (seq_ (print_rest_methods 0)) 2).

(** The loop of [move src dst]. *)
Definition move_loop (src dst : Z) : list instr :=
  [Loop (Op SDec :: goto src dst ++ Op SInc :: goto dst src)].

Definition move_prog (p src dst : Z) : list instr :=
  goto p src ++ move_loop src dst.

Definition divmod_prog (p base : Z) : list instr :=
  goto p (base + 2) ++ divmod_core.

Definition print_prog (p v ws : Z) : list instr :=
  move_prog p v (ws + 1) ++ goto v (ws + 2) ++ print_rest.

(** The window of [divmod_10]: seven cells from [base], the dividend in the
    second. *)
Definition divmod_window (n : Z) : list Z := [0; n; 0; 0; 0; 0; 0].

Definition divmod_done (n : Z) : list Z := [0; 0; 0; n mod 10; n / 10; 0; 0].

Abbreviation divmod_ok n :=
  (ends_in 100000 divmod_core (W (divmod_window n) 2 [] [])
     (W (divmod_done n) 2 [] []) 6000).

(** The window of [print_number]: fourteen cells from [ws], the value
    already moved to the second. *)
Definition print_window (v : Z) : list Z := 0 :: v :: repeat 0 12.

Abbreviation print_ok v :=
  (ends_in 100000 print_rest (W (print_window v) 2 [] [])
     (W (repeat 0 14) 12 [] (decimal v)) 8000).

(** No leading zero, except for 0 itself. *)
Definition no_leading_zero (v : Z) : bool :=
  match decimal v with
  | [] => false
  | d :: rest => if v =? 0 then (d =? 48) && (length rest =? 0)%nat
                 else negb (d =? 48)
  end.

Lemma emitted_move src dst p :
  emitted (move src dst) p = flat (move_prog p src dst).
Proof.
  unfold move, move_prog, move_loop.
  repeat (rewrite emitted_seq_cons;
          [|first [apply appends_goto|apply appends_append]
           |appends_list appends_prim]).
  rewrite emitted_seq_nil, !emitted_goto, !emitted_append, !pos_goto.
  cbn [pos append code].
  rewrite flat_app, flat_loop, flat_op, flat_app, flat_op.
  change (strip (str "[-")) with ["["%char; "-"%char].
  change (strip (str "+")) with ["+"%char].
  change (strip (str "]")) with ["]"%char].
  change (flat []) with (@nil ascii).
  cbn [op_char app]. f_equal. f_equal. f_equal.
  rewrite <- app_assoc. reflexivity.
Qed.

Lemma pos_move src dst p : pos (move src dst (mkBF [] p)) = src.
Proof. reflexivity. Qed.

Lemma flat_divmod_core : flat divmod_core = emitted (divmod_10 0) 2.
Proof. vm_compute. reflexivity. Qed.

Lemma flat_print_rest :
  flat print_rest = emitted (seq_ (print_rest_methods 0)) 2.
Proof. vm_compute. reflexivity. Qed.

Lemma emitted_divmod_10 base p :
  emitted (divmod_10 base) p = flat (divmod_prog p base).
Proof.
  unfold divmod_prog. rewrite flat_app, flat_divmod_core.
  replace p with ((p - base) + base) at 1 by lia.
  rewrite (emitted_shifted base (divmod_10 0) (divmod_10 base))
    by (apply shifted_divmod_10; lia).
  rewrite (emitted_begins (0 + 2) (divmod_10 0))
    by (first [apply begins_divmod_10|apply appends_divmod_10]).
  f_equal.
  replace (goto p (base + 2)) with (goto (p - base + base) (0 + 2 + base))
    by (f_equal; lia).
  rewrite goto_shift. reflexivity.
Qed.

Lemma emitted_print_rest ws p :
  emitted (seq_ (print_rest_methods ws)) p =
  flat (goto p (ws + 2) ++ print_rest).
Proof.
  rewrite flat_app, flat_print_rest.
  replace p with ((p - ws) + ws) at 1 by lia.
  rewrite (emitted_shifted ws _ _ _ (shifted_print_rest ws)).
  rewrite (emitted_begins (0 + 2) (seq_ (print_rest_methods 0)))
    by (first [apply begins_print_rest|apply appends_print_rest]).
  f_equal.
  replace (goto p (ws + 2)) with (goto (p - ws + ws) (0 + 2 + ws))
    by (f_equal; lia).
  rewrite goto_shift. reflexivity.
Qed.

Lemma emitted_print_number v ws p :
  emitted (print_number v ws) p = flat (print_prog p v ws).
Proof.
  rewrite print_number_methods.
  rewrite emitted_seq_cons
    by (first [apply appends_move|apply appends_print_rest]).
  rewrite pos_move, emitted_move, emitted_print_rest.
  unfold print_prog. rewrite !flat_app. reflexivity.
Qed.

Lemma pos_divmod_10 base p : pos (divmod_10 base (mkBF [] p)) = base + 2.
Proof. reflexivity. Qed.

Lemma pos_print_number v ws p : pos (print_number v ws (mkBF [] p)) = ws + 12.
Proof. reflexivity. Qed.

Lemma divmod_checked : forallb (fun n => divmod_ok n) (range 256) = true.
Proof. vm_compute. reflexivity. Qed.

Lemma print_checked :
  forallb (fun v => print_ok v && no_leading_zero v) (range 256) = true.
Proof. vm_compute. reflexivity. Qed.

End Macros.

Import Macros.

(** ** The macros on the tape of the interpreter *)

Module MacroRuns.

Section OnTape.

Variable input_bytes : list Z.
Variable cell_size : Z.
Hypothesis Hsize : 0 < cell_size.

#[local] Abbreviation run := (bs (ceff input_bytes cell_size) cell).

(** [m'] is [m] with the pointer at [b]. *)
Definition moved (m m' : machine) (b : Z) : Prop :=
  ptr m' = b /\ wf m' /\ (forall c, cell_at m' c = cell_at m c) /\
  input_pos m' = input_pos m /\ Interp.output m' = Interp.output m.

Lemma right_run n : forall m, wf m ->
  exists m', run (repeat (Op SRight) n) m n m' /\
             moved m m' (ptr m + Z.of_nat n).
Proof.
  induction n as [|n IH]; intros m Hwf.
  - exists m. split; [constructor|]. unfold moved.
    repeat split; try reflexivity; try apply Hwf. lia.
  - pose proof (ceff_right input_bytes cell_size m) as Hr.
    set (m1 := Machine _ _ _ _) in Hr.
    assert (Hwf1 : wf m1) by (eapply ceff_wf; eassumption).
    destruct (IH m1 Hwf1) as [m' [Hrun [Hp [Hwf' [Hc [Hi Ho]]]]]].
    exists m'. split; [simpl repeat; eapply bs_op; eassumption|].
    unfold moved. repeat split; try apply Hwf'.
    + rewrite Hp. subst m1. simpl. lia.
    + intros c. rewrite Hc. subst m1. unfold cell_at. simpl.
      destruct (ptr m + 1 >=? Z.of_nat (length (tape m)));
        [apply nth_app_zeros|reflexivity].
    + rewrite Hi. reflexivity.
    + rewrite Ho. reflexivity.
Qed.

Lemma left_run n : forall m, wf m -> Z.of_nat n <= ptr m ->
  exists m', run (repeat (Op SLeft) n) m n m' /\
             moved m m' (ptr m - Z.of_nat n).
Proof.
  induction n as [|n IH]; intros m Hwf Hn.
  - exists m. split; [constructor|]. unfold moved.
    repeat split; try reflexivity; try apply Hwf. lia.
  - pose proof (ceff_left input_bytes cell_size m) as Hl.
    destruct (ptr m - 1 <? 0) eqn:E; [lia|].
    set (m1 := Machine _ _ _ _) in Hl.
    assert (Hwf1 : wf m1) by (eapply ceff_wf; eassumption).
    destruct (IH m1 Hwf1) as [m' [Hrun [Hp [Hwf' [Hc [Hi Ho]]]]]].
    { subst m1. simpl. lia. }
    exists m'. split; [simpl repeat; eapply bs_op; eassumption|].
    unfold moved. repeat split; try apply Hwf'.
    + rewrite Hp. subst m1. simpl. lia.
    + intros c. rewrite Hc. reflexivity.
    + rewrite Hi. reflexivity.
    + rewrite Ho. reflexivity.
Qed.

(** The motion from [a] to [b] moves the pointer and nothing else, in
    as many turns as the cells are apart. *)
Lemma goto_run a b m :
  0 <= a -> 0 <= b -> ptr m = a -> wf m ->
  exists m', run (goto a b) m (Z.to_nat (Z.abs (b - a))) m' /\ moved m m' b.
Proof.
  intros Ha Hb Hp Hwf. unfold goto.
  destruct (b - a >? 0) eqn:E1.
  - destruct (right_run (Z.to_nat (b - a)) m Hwf) as [m' [Hr Hm]].
    exists m'. replace (Z.to_nat (Z.abs (b - a))) with (Z.to_nat (b - a)) by lia.
    split; [exact Hr|].
    replace (ptr m + Z.of_nat (Z.to_nat (b - a))) with b in Hm by lia. exact Hm.
  - destruct (b - a <? 0) eqn:E2.
    + destruct (left_run (Z.to_nat (- (b - a))) m Hwf) as [m' [Hr Hm]]; [lia|].
      exists m'.
      replace (Z.to_nat (Z.abs (b - a))) with (Z.to_nat (- (b - a))) by lia.
      split; [exact Hr|].
      replace (ptr m - Z.of_nat (Z.to_nat (- (b - a)))) with b in Hm by lia.
      exact Hm.
    + exists m. replace (Z.to_nat (Z.abs (b - a))) with O by lia.
      split; [constructor|]. unfold moved.
      repeat split; try reflexivity; try apply Hwf. lia.
Qed.

Lemma cell_set_cell v m : wf m -> cell (set_cell v m) = v.
Proof.
  intros Hwf. unfold cell. change (ptr (set_cell v m)) with (ptr m).
  rewrite cell_at_set_cell by (unfold wf in Hwf; lia).
  rewrite Z.eqb_refl. reflexivity.
Qed.

Lemma wf_set_cell v m : wf m -> wf (set_cell v m).
Proof. unfold wf, set_cell. simpl. rewrite length_insert. auto. Qed.

(** The loop of [move]: the source is emptied into the destination. *)
Lemma move_loop_run src dst v : forall m x,
  0 <= src -> 0 <= dst -> src <> dst -> ptr m = src -> wf m ->
  cell_at m src = Z.of_nat v -> cell_at m dst = x ->
  0 <= x -> x + Z.of_nat v < cell_size ->
  exists m',
    run (move_loop src dst) m
        (S (v * (3 + 2 * Z.to_nat (Z.abs (dst - src))))) m' /\
    ptr m' = src /\ wf m' /\
    cell_at m' src = 0 /\ cell_at m' dst = x + Z.of_nat v /\
    (forall c, 0 <= c -> c <> src -> c <> dst -> cell_at m' c = cell_at m c) /\
    input_pos m' = input_pos m /\ Interp.output m' = Interp.output m.
Proof.
  induction v as [|v IH]; intros m x Hs Hd Hne Hp Hwf Hv Hx Hx0 Hxv.
  - exists m. split.
    + apply bs_skip; [unfold cell; rewrite Hp; exact Hv|constructor].
    + repeat split; try assumption; try reflexivity; try apply Hwf. lia.
  - assert (Hcs : cell_size <> 0) by lia.
    (* decrement the source *)
    pose proof (ceff_dec input_bytes cell_size m) as Hdec.
    destruct (cell_size =? 0) eqn:E0; [lia|].
    assert (Hcell : cell m = Z.of_nat (S v)) by (unfold cell; rewrite Hp; exact Hv).
    rewrite Hcell in Hdec.
    replace ((Z.of_nat (S v) - 1) mod cell_size) with (Z.of_nat v) in Hdec
      by (rewrite Z.mod_small; lia).
    set (m1 := set_cell (Z.of_nat v) m) in Hdec.
    assert (Hwf1 : wf m1) by (apply wf_set_cell, Hwf).
    assert (Hc1 : forall c, 0 <= c ->
              cell_at m1 c = if c =? src then Z.of_nat v else cell_at m c).
    { intros c Hc. unfold m1. rewrite cell_at_set_cell by (unfold wf in Hwf; lia).
      rewrite Hp. reflexivity. }
    (* go to the destination *)
    destruct (goto_run src dst m1 Hs Hd Hp Hwf1)
      as [m2 [Hg1 [Hp2 [Hwf2 [Hc2 [Hi2 Ho2]]]]]].
    (* increment it *)
    pose proof (ceff_inc input_bytes cell_size m2) as Hinc.
    rewrite E0 in Hinc.
    assert (Hcell2 : cell m2 = x).
    { unfold cell. rewrite Hp2, Hc2, Hc1 by lia.
      destruct (dst =? src) eqn:E; [lia|exact Hx]. }
    rewrite Hcell2 in Hinc.
    replace ((x + 1) mod cell_size) with (x + 1) in Hinc
      by (rewrite Z.mod_small; lia).
    set (m3 := set_cell (x + 1) m2) in Hinc.
    assert (Hwf3 : wf m3) by (apply wf_set_cell, Hwf2).
    assert (Hc3 : forall c, 0 <= c ->
              cell_at m3 c = if c =? dst then x + 1 else cell_at m2 c).
    { intros c Hc. unfold m3. rewrite cell_at_set_cell by (unfold wf in Hwf2; lia).
      rewrite Hp2. reflexivity. }
    (* go back *)
    destruct (goto_run dst src m3 Hd Hs Hp2 Hwf3)
      as [m4 [Hg2 [Hp4 [Hwf4 [Hc4 [Hi4 Ho4]]]]]].
    assert (Hcells : forall c, 0 <= c ->
              cell_at m4 c = if c =? dst then x + 1
                             else if c =? src then Z.of_nat v else cell_at m c).
    { intros c Hc. rewrite Hc4, Hc3 by exact Hc.
      destruct (c =? dst); [reflexivity|]. rewrite Hc2. apply Hc1, Hc. }
    destruct (IH m4 (x + 1) Hs Hd Hne Hp4 Hwf4)
      as [m' [Hrun [Hp' [Hwf' [Hs' [Hd' [Hf' [Hi' Ho']]]]]]]]; try lia.
    { rewrite Hcells by exact Hs.
      destruct (src =? dst) eqn:E; [lia|]. rewrite Z.eqb_refl. reflexivity. }
    { rewrite Hcells by exact Hd. rewrite Z.eqb_refl. reflexivity. }
    exists m'. split.
    + set (d := Z.to_nat (Z.abs (dst - src))) in *.
      replace (Z.to_nat (Z.abs (src - dst))) with d in Hg2 by lia.
      replace (S (S v * (3 + 2 * d)))
        with (S (S (d + S d) + S (v * (3 + 2 * d))))%nat by lia.
      unfold move_loop in *. eapply bs_iter; [rewrite Hcell; lia| |exact Hrun].
      eapply bs_op; [exact Hdec|].
      eapply bs_app; [exact Hg1|].
      eapply bs_op; [exact Hinc|exact Hg2].
    + split; [exact Hp'|]. split; [exact Hwf'|]. split; [exact Hs'|].
      split; [rewrite Hd'; lia|].
      split.
      * intros c Hc Hcs' Hcd. rewrite Hf' by assumption.
        rewrite Hcells by exact Hc.
        destruct (c =? dst) eqn:E1; [lia|].
        destruct (c =? src) eqn:E2; [lia|]. reflexivity.
      * split.
        -- rewrite Hi', Hi4. unfold m3, set_cell. simpl. rewrite Hi2. reflexivity.
        -- rewrite Ho', Ho4. unfold m3, set_cell. simpl. rewrite Ho2. reflexivity.
Qed.

End OnTape.

(** A program that does not read leaves the input where it is. *)
Lemma bs_no_read_pos inp cs p m n m' :
  bs (ceff inp cs) cell p m n m' -> all_ops (fun o => o <> SRead) p ->
  input_pos m' = input_pos m.
Proof.
  induction 1 as [s|o r s s1 n s2 Heff Hbs IH
                 |b r s n s2 Hz Hbs IH
                 |b r s n1 s1 n2 s2 Hnz Hb IHb Hr IHr]; intros Hok.
  - reflexivity.
  - inversion Hok; subst. rewrite IH by assumption.
    destruct o.
    + rewrite ceff_right in Heff. inversion Heff; subst. reflexivity.
    + rewrite ceff_left in Heff.
      destruct (ptr s - 1 <? 0); inversion Heff; subst. reflexivity.
    + rewrite ceff_inc in Heff.
      destruct (cs =? 0); inversion Heff; subst. reflexivity.
    + rewrite ceff_dec in Heff.
      destruct (cs =? 0); inversion Heff; subst. reflexivity.
    + rewrite ceff_write in Heff.
      destruct (chr (cell s)); inversion Heff; subst. reflexivity.
    + congruence.
  - inversion Hok; subst. auto.
  - inversion Hok; subst. rewrite IHr by assumption. auto.
Qed.

(** A program that runs in a window of cells by computation runs on the
    tape, wherever the window is. *)
Lemma window_run inp base p cells k n cells' k' out' m :
  bs (weff true 256) wcur p (W cells k [] []) n (W cells' k' [] out') ->
  0 <= base -> ptr m = base + Z.of_nat k -> wf m ->
  (k < length cells)%nat ->
  (forall j, (j < length cells)%nat ->
     cell_at m (base + Z.of_nat j) = nth j cells 0) ->
  exists m',
    bs (ceff inp 256) cell p m n m' /\
    ptr m' = base + Z.of_nat k' /\ wf m' /\
    (forall j, (j < length cells')%nat ->
       cell_at m' (base + Z.of_nat j) = nth j cells' 0) /\
    (forall c, 0 <= c ->
       ~ (base <= c < base + Z.of_nat (length cells')) ->
       cell_at m' c = cell_at m c) /\
    Interp.output m' = Interp.output m ++ out'.
Proof.
  intros Hbs Hbase Hp Hwf Hk Hcells.
  apply (lift_strict _ _ _ _ _ _ (Interp.output m)
           (skipn (input_pos m) inp)) in Hbs.
  cbn [wcells wptr winp wout app] in Hbs.
  destruct (bs_fits inp 256 base m ltac:(lia) Hbase false p _ n _ m Hbs)
    as [m' [Hrun Hfit]].
  { constructor; cbn [wcells wptr winp wout]; try assumption; reflexivity. }
  destruct Hfit as [Hp' Hin' Hc' Hf' Hi' Ho' Hwf'].
  cbn [wcells wptr winp wout] in *.
  exists m'. repeat split; try assumption; apply Hwf'.
Qed.

End MacroRuns.

Import MacroRuns.

(** ** What [divmod_10] and [print_number] compute *)

Module MacroSpecs.

Lemma nth_print_window j v :
  nth j (print_window v) 0 = if (j =? 1)%nat then v else 0.
Proof.
  destruct j as [|[|j]]; try reflexivity.
  unfold print_window. cbn [nth Nat.eqb]. apply nth_repeat.
Qed.

(** The turns [print_number] takes at most. *)
Definition print_turns (p val_cell ws v : Z) : Z :=
  Z.abs (val_cell - p) + 1 + v * (3 + 2 * Z.abs (ws + 1 - val_cell)) +
  Z.abs (ws + 2 - val_cell) + 8000.

(** The code of [print_number], run from the cursor [p] on a tape whose
    workspace [ws .. ws+13] is zero and whose cell [val_cell] holds [v],
    writes the decimal digits of [v], and leaves the value cell and the
    workspace zero and the pointer at [ws + 12]. *)
Lemma print_number_run inp val_cell ws p v m :
  0 <= val_cell -> 0 <= ws -> 0 <= p -> ptr m = p -> wf m ->
  cell_at m val_cell = v -> 0 <= v <= 255 ->
  (forall j, 0 <= j < 14 -> cell_at m (ws + j) = 0) ->
  exists n m',
    bs (ceff inp 256) cell (print_prog p val_cell ws) m n m' /\
    Z.of_nat n <= print_turns p val_cell ws v /\
    ptr m' = ws + 12 /\ wf m' /\
    Interp.output m' = Interp.output m ++ decimal v /\
    input_pos m' = input_pos m /\
    (forall c, 0 <= c ->
       cell_at m' c = if (c =? val_cell) || ((ws <=? c) && (c <? ws + 14))
                      then 0 else cell_at m c).
Proof.
  intros Hval Hws Hp0 Hp Hwf Hv Hv255 Hz.
  (* to the value *)
  destruct (goto_run inp 256 p val_cell m Hp0 Hval Hp Hwf)
    as [m1 [Hg1 [Hp1 [Hwf1 [Hc1 [Hi1 Ho1]]]]]].
  (* the value to the second cell of the workspace *)
  assert (Hmove : exists m2,
    bs (ceff inp 256) cell (move_loop val_cell (ws + 1)) m1
       (S (Z.to_nat v * (3 + 2 * Z.to_nat (Z.abs (ws + 1 - val_cell))))) m2 /\
    ptr m2 = val_cell /\ wf m2 /\
    (forall c, 0 <= c ->
       cell_at m2 c = if c =? ws + 1 then v
                      else if c =? val_cell then 0 else cell_at m c) /\
    input_pos m2 = input_pos m /\ Interp.output m2 = Interp.output m).
  { destruct (Z.eq_dec v 0) as [E|E].
    - exists m1. rewrite E. split.
      + apply bs_skip; [unfold cell; rewrite Hp1, Hc1; lia|constructor].
      + repeat split; try assumption; try apply Hwf1.
        intros c Hc. rewrite Hc1.
        destruct (c =? ws + 1) eqn:E1.
        * apply Z.eqb_eq in E1. subst c. apply Hz. lia.
        * destruct (c =? val_cell) eqn:E2; [|reflexivity].
          apply Z.eqb_eq in E2. subst c. lia.
    - assert (Hne : val_cell <> ws + 1).
      { intros ->. specialize (Hz 1). lia. }
      destruct (move_loop_run inp 256 ltac:(lia) val_cell (ws + 1)
                  (Z.to_nat v) m1 0)
        as [m2 [Hrun [Hp2 [Hwf2 [Hs2 [Hd2 [Hf2 [Hi2 Ho2]]]]]]]];
        try assumption; try lia.
      { rewrite Hc1. lia. }
      { rewrite Hc1. apply Hz. lia. }
      exists m2. split; [exact Hrun|].
      repeat split; try assumption; try apply Hwf2; try congruence.
      intros c Hc.
      destruct (c =? ws + 1) eqn:E1.
      * apply Z.eqb_eq in E1. subst c. rewrite Hd2. lia.
      * destruct (c =? val_cell) eqn:E2.
        -- apply Z.eqb_eq in E2. subst c. exact Hs2.
        -- rewrite Hf2 by lia. apply Hc1. }
  destruct Hmove as [m2 [Hrun2 [Hp2 [Hwf2 [Hc2 [Hi2 Ho2]]]]]].
  (* to the third cell of the workspace *)
  destruct (goto_run inp 256 val_cell (ws + 2) m2 Hval ltac:(lia) Hp2 Hwf2)
    as [m3 [Hg3 [Hp3 [Hwf3 [Hc3 [Hi3 Ho3]]]]]].
  (* the digits *)
  pose proof print_checked as H.
  apply (forallb_range _ _ v) in H; [|simpl; lia].
  cbv beta in H. apply andb_true_iff in H as [H _].
  apply ends_in_sound in H as [n4 [Hn4 Hbs]].
  destruct (window_run inp ws print_rest _ 2 n4 _ 12 _ m3 Hbs Hws)
    as [m4 [Hrun4 [Hp4 [Hwf4 [Hc4 [Hf4 Ho4]]]]]].
  { rewrite Hp3. reflexivity. }
  { exact Hwf3. }
  { simpl. lia. }
  { intros j Hj. change (length (print_window v)) with 14%nat in Hj.
    rewrite Hc3, Hc2, nth_print_window by lia.
    destruct (Nat.eqb_spec j 1) as [->|Hj1].
    - rewrite Z.eqb_refl. reflexivity.
    - destruct (ws + Z.of_nat j =? ws + 1) eqn:E1; [lia|].
      destruct (ws + Z.of_nat j =? val_cell); [reflexivity|]. apply Hz. lia. }
  change (length (repeat 0 14)) with 14%nat in Hc4, Hf4.
  eexists. exists m4. split.
  { unfold print_prog, move_prog. rewrite <- app_assoc.
    eapply bs_app; [exact Hg1|].
    eapply bs_app; [exact Hrun2|].
    eapply bs_app; [exact Hg3|exact Hrun4]. }
  split.
  { unfold print_turns.
    rewrite !Nat2Z.inj_add, Nat2Z.inj_succ, Nat2Z.inj_mul, Nat2Z.inj_add.
    rewrite Nat2Z.inj_mul. rewrite !Z2Nat.id by lia. lia. }
  split; [rewrite Hp4; reflexivity|].
  split; [exact Hwf4|].
  split; [rewrite Ho4, Ho3, Ho2; reflexivity|].
  split.
  { rewrite <- Hi2, <- Hi3.
    eapply bs_no_read_pos; [exact Hrun4|]. apply no_read_all. reflexivity. }
  intros c Hc.
  destruct ((ws <=? c) && (c <? ws + 14)) eqn:Ew.
  - rewrite orb_true_r.
    replace c with (ws + Z.of_nat (Z.to_nat (c - ws))) by lia.
    rewrite Hc4 by lia. apply nth_repeat.
  - rewrite orb_false_r. rewrite Hf4 by lia. rewrite Hc3, Hc2 by exact Hc.
    destruct (c =? ws + 1) eqn:E1; [lia|]. reflexivity.
Qed.

(** The turns [divmod_10] takes at most. *)
Definition divmod_turns (p base : Z) : Z := Z.abs (base + 2 - p) + 6000.

(** The code of [divmod_10], run from the cursor [p] on a tape whose
    cells [base .. base+6] are zero except for the dividend [n] in
    [base+1], leaves the remainder in [base+3], the quotient in [base+4],
    the other cells of the window zero and the pointer at [base+2]. *)
Lemma divmod_10_run inp base p n m :
  0 <= base -> 0 <= p -> ptr m = p -> wf m ->
  0 <= n <= 255 -> cell_at m (base + 1) = n ->
  (forall j, 0 <= j < 7 -> j <> 1 -> cell_at m (base + j) = 0) ->
  exists k m',
    bs (ceff inp 256) cell (divmod_prog p base) m k m' /\
    Z.of_nat k <= divmod_turns p base /\
    ptr m' = base + 2 /\ wf m' /\
    Interp.output m' = Interp.output m /\
    input_pos m' = input_pos m /\
    (forall c, 0 <= c ->
       cell_at m' c = if c =? base + 3 then n mod 10
                      else if c =? base + 4 then n / 10
                      else if (base <=? c) && (c <? base + 7) then 0
                      else cell_at m c).
Proof.
  intros Hbase Hp0 Hp Hwf Hn Hcell Hz.
  destruct (goto_run inp 256 p (base + 2) m Hp0 ltac:(lia) Hp Hwf)
    as [m1 [Hg1 [Hp1 [Hwf1 [Hc1 [Hi1 Ho1]]]]]].
  pose proof divmod_checked as H.
  apply (forallb_range _ _ n) in H; [|simpl; lia].
  cbv beta in H.
  apply ends_in_sound in H as [k [Hk Hbs]].
  destruct (window_run inp base divmod_core _ 2 k _ 2 _ m1 Hbs Hbase)
    as [m2 [Hrun [Hp2 [Hwf2 [Hc2 [Hf2 Ho2]]]]]].
  { rewrite Hp1. reflexivity. }
  { exact Hwf1. }
  { simpl. lia. }
  { intros j Hj. change (length (divmod_window n)) with 7%nat in Hj.
    rewrite Hc1.
    destruct j as [|[|j]].
    - apply Hz; lia.
    - exact Hcell.
    - rewrite Hz by lia. unfold divmod_window.
      do 5 (destruct j as [|j]; [reflexivity|]). lia. }
  change (length (divmod_done n)) with 7%nat in Hc2, Hf2.
  eexists. exists m2. split.
  { unfold divmod_prog. eapply bs_app; [exact Hg1|exact Hrun]. }
  split; [unfold divmod_turns; lia|].
  split; [rewrite Hp2; reflexivity|].
  split; [exact Hwf2|].
  split; [rewrite Ho2, Ho1, app_nil_r; reflexivity|].
  split.
  { rewrite <- Hi1.
    eapply bs_no_read_pos; [exact Hrun|]. apply no_read_all. reflexivity. }
  intros c Hc.
  destruct ((base <=? c) && (c <? base + 7)) eqn:Ew.
  - replace c with (base + Z.of_nat (Z.to_nat (c - base))) at 1 by lia.
    rewrite Hc2 by lia.
    assert (Hj : (Z.to_nat (c - base) < 7)%nat) by lia.
    assert (Ec : c = base + Z.of_nat (Z.to_nat (c - base))) by lia.
    revert Hj Ec. generalize (Z.to_nat (c - base)) as j. intros j Hj Ec.
    unfold divmod_done.
    do 7 (destruct j as [|j];
          [subst c;
           repeat match goal with
                  | |- context [?a =? ?b] =>
                      destruct (Z.eqb_spec a b); try lia
                  end; reflexivity|]).
    lia.
  - rewrite Hf2 by lia.
    destruct (c =? base + 3) eqn:E3; [lia|].
    destruct (c =? base + 4) eqn:E4; [lia|]. apply Hc1.
Qed.

End MacroSpecs.

Import MacroSpecs.

(** ** Every halting run of the interpreter is a structured run *)

Module Completeness.

Section Complete.

Variable input_bytes : list Z.
Variable cell_size : Z.
Variable ops : list ascii.
Variable brackets : gmap nat nat.
Variable max_steps : Z.
Hypothesis Hbrackets : match_brackets ops = inr brackets.

#[local] Abbreviation run := (run_loop ops brackets input_bytes cell_size max_steps).
#[local] Abbreviation eff := (ceff input_bytes cell_size).

(** A run that halts took its first turn without raising. *)
Lemma halted_turn f m ip s op mf :
  nth_error ops ip = Some op -> run (S f) m ip s = Halted mf ->
  s + 1 <= max_steps /\
  exists m1 ip1,
    exec_op brackets input_bytes cell_size op m ip (s + 1) = inr (m1, ip1) /\
    run f m1 (S ip1) (s + 1) = Halted mf.
Proof.
  intros Hop H. simpl run_loop in H. unfold step in H. rewrite Hop in H.
  destruct (s + 1 >? max_steps) eqn:E; [discriminate|].
  destruct (exec_op _ _ _ op m ip (s + 1)) as [e|[m1 ip1]]; [discriminate|].
  split; [lia|]. exists m1, ip1. split; [reflexivity|exact H].
Qed.

Lemma exec_op_simple_inv br o m ip s m1 ip1 :
  exec_op br input_bytes cell_size (op_char o) m ip s = inr (m1, ip1) ->
  eff o m = Some m1 /\ ip1 = ip.
Proof.
  unfold ceff, exec_op.
  destruct o; simpl; repeat case_match; intros; simplify_eq;
    split; reflexivity.
Qed.

(** From [ip], with [fuel] turns, a run that halts runs [p] first, and
    is then at [ip'] with the fuel that is left. *)
Definition runs_first (fuel : nat) (p : list instr) (ip ip' : nat) : Prop :=
  forall m s mf, run fuel m ip s = Halted mf ->
  exists n m', bs eff cell p m n m' /\ (n <= fuel)%nat /\
               s + Z.of_nat n <= Z.max s max_steps /\
               run (fuel - n) m' ip' (s + Z.of_nat n) = Halted mf.

(** The statement for all programs placed in [ops], entered at the start
    or, for a loop, at its closing bracket. *)
Definition complete_at (fuel : nat) : Prop :=
  (forall p pre post, ops = pre ++ flat p ++ post ->
     runs_first fuel p (length pre) (length pre + length (flat p))) /\
  (forall b r pre post, ops = pre ++ flat (Loop b :: r) ++ post ->
     runs_first fuel (Loop b :: r) (length pre + length (flat b) + 1)
                (length pre + length (flat (Loop b :: r)))).

Lemma loop_layout b r pre post :
  ops = pre ++ flat (Loop b :: r) ++ post ->
  ops = pre ++ "["%char :: flat b ++ "]"%char :: flat r ++ post.
Proof.
  intros ->. rewrite flat_loop. simpl app. rewrite <- app_assoc. reflexivity.
Qed.

Lemma nth_error_close (pre : list ascii) b rest :
  nth_error (pre ++ "["%char :: flat b ++ "]"%char :: rest)
            (length pre + length (flat b) + 1) = Some "]"%char.
Proof.
  replace (pre ++ "["%char :: flat b ++ "]"%char :: rest)
    with ((pre ++ "["%char :: flat b) ++ "]"%char :: rest)
    by (rewrite <- app_assoc; reflexivity).
  replace (length pre + length (flat b) + 1)%nat
    with (length (pre ++ "["%char :: flat b))
    by (rewrite length_app; simpl; lia).
  apply nth_error_mid.
Qed.

(** After the test of a loop, on either bracket. *)
Lemma complete_loop f b r pre post m s mf :
  (forall f', (f' <= f)%nat -> complete_at f') ->
  ops = pre ++ flat (Loop b :: r) ++ post -> s + 1 <= max_steps ->
  (cell m = 0 /\
   run f m (S (length pre + length (flat b) + 1)) (s + 1) = Halted mf) \/
  (cell m <> 0 /\ run f m (S (length pre)) (s + 1) = Halted mf) ->
  exists n m',
    bs eff cell (Loop b :: r) m n m' /\ (n <= S f)%nat /\
    s + Z.of_nat n <= Z.max s max_steps /\
    run (S f - n) m' (length pre + length (flat (Loop b :: r)))
        (s + Z.of_nat n) = Halted mf.
Proof.
  intros IH Hops Hs [[Hz Hrun]|[Hnz Hrun]].
  - destruct (IH f ltac:(lia)) as [IHA _].
    destruct (IHA r (pre ++ "["%char :: flat b ++ ["]"%char]) post) with
      (m := m) (s := s + 1) (mf := mf) as [n [m' [Hbs [Hn [Hb Hrest]]]]].
    { rewrite (loop_layout _ _ _ _ Hops), <- !app_assoc. simpl.
      rewrite <- !app_assoc. reflexivity. }
    { rewrite length_app. simpl length. rewrite length_app. simpl length.
      replace (length pre + S (length (flat b) + 1))%nat
        with (S (length pre + length (flat b) + 1)) by lia.
      exact Hrun. }
    exists (S n), m'. split; [apply bs_skip; assumption|]. split; [lia|].
    split; [lia|].
    rewrite flat_loop. simpl length. rewrite length_app. simpl length.
    rewrite length_app in Hrest. simpl length in Hrest.
    rewrite length_app in Hrest. simpl length in Hrest.
    replace (S f - S n)%nat with (f - n)%nat by lia.
    replace (s + Z.of_nat (S n)) with (s + 1 + Z.of_nat n) by lia.
    replace (length pre + S (length (flat b) + S (length (flat r))))%nat
      with (length pre + S (length (flat b) + 1) + length (flat r))%nat by lia.
    exact Hrest.
  - destruct (IH f ltac:(lia)) as [IHA _].
    destruct (IHA b (pre ++ ["["%char]) ("]"%char :: flat r ++ post)) with
      (m := m) (s := s + 1) (mf := mf) as [n1 [m1 [Hbs1 [Hn1 [Hb1 Hrest1]]]]].
    { rewrite (loop_layout _ _ _ _ Hops), <- !app_assoc. reflexivity. }
    { rewrite length_app. simpl length.
      replace (length pre + 1)%nat with (S (length pre)) by lia. exact Hrun. }
    rewrite length_app in Hrest1. simpl length in Hrest1.
    destruct (IH (f - n1)%nat ltac:(lia)) as [_ IHB].
    destruct (IHB b r pre post Hops) with
      (m := m1) (s := s + 1 + Z.of_nat n1) (mf := mf)
      as [n2 [m' [Hbs2 [Hn2 [Hb2 Hrest2]]]]].
    { replace (length pre + length (flat b) + 1)%nat
        with (length pre + 1 + length (flat b))%nat by lia. exact Hrest1. }
    exists (S (n1 + n2)), m'. split; [eapply bs_iter; eassumption|].
    split; [lia|]. split; [lia|].
    replace (S f - S (n1 + n2))%nat with (f - n1 - n2)%nat by lia.
    replace (s + Z.of_nat (S (n1 + n2)))
      with (s + 1 + Z.of_nat n1 + Z.of_nat n2) by lia.
    exact Hrest2.
Qed.

Lemma run_complete fuel : complete_at fuel.
Proof.
  induction fuel as [fuel IH] using lt_wf_ind. split.
  - intros p pre post Hops m s mf Hrun.
    destruct p as [|[o|b] r].
    + exists O, m. split; [constructor|]. split; [lia|]. split; [lia|].
      simpl flat. simpl length.
      rewrite Nat.sub_0_r, Nat.add_0_r, Z.add_0_r. exact Hrun.
    + destruct fuel as [|f]; [discriminate|].
      pose proof Hops as Hops'. rewrite flat_op in Hops'. simpl app in Hops'.
      destruct (halted_turn f m (length pre) s (op_char o) mf)
        as [Hs [m1 [ip1 [He Hr]]]];
        [rewrite Hops'; apply nth_error_mid|exact Hrun|].
      apply exec_op_simple_inv in He as [Heff ->].
      destruct (IH f ltac:(lia)) as [IHA _].
      destruct (IHA r (pre ++ [op_char o]) post) with
        (m := m1) (s := s + 1) (mf := mf) as [n [m' [Hbs [Hn [Hb Hrest]]]]].
      { rewrite Hops', <- app_assoc. reflexivity. }
      { rewrite length_app. simpl length.
        replace (length pre + 1)%nat with (S (length pre)) by lia. exact Hr. }
      exists (S n), m'. split; [eapply bs_op; eassumption|]. split; [lia|].
      split; [lia|].
      rewrite flat_op. simpl length.
      rewrite length_app in Hrest. simpl length in Hrest.
      replace (S f - S n)%nat with (f - n)%nat by lia.
      replace (length pre + S (length (flat r)))%nat
        with (length pre + 1 + length (flat r))%nat by lia.
      replace (s + Z.of_nat (S n)) with (s + 1 + Z.of_nat n) by lia.
      exact Hrest.
    + destruct fuel as [|f]; [discriminate|].
      pose proof (loop_layout _ _ _ _ Hops) as Hops'.
      destruct (brackets_loop pre b (flat r ++ post) brackets) as [Ho Hc].
      { rewrite <- Hbrackets, Hops'. reflexivity. }
      destruct (halted_turn f m (length pre) s "["%char mf)
        as [Hs [m1 [ip1 [He Hr]]]];
        [rewrite Hops'; apply nth_error_mid|exact Hrun|].
      rewrite exec_op_open in He.
      apply (complete_loop f b r pre post m s mf);
        [intros f' Hf'; apply IH; lia|exact Hops|exact Hs|].
      destruct (cell m =? 0) eqn:Ez.
      * rewrite Ho in He. inversion He; subst m1 ip1.
        left. split; [apply Z.eqb_eq, Ez|exact Hr].
      * inversion He; subst m1 ip1.
        right. split; [apply Z.eqb_neq, Ez|exact Hr].
  - intros b r pre post Hops m s mf Hrun.
    destruct fuel as [|f]; [discriminate|].
    pose proof (loop_layout _ _ _ _ Hops) as Hops'.
    destruct (brackets_loop pre b (flat r ++ post) brackets) as [Ho Hc].
    { rewrite <- Hbrackets, Hops'. reflexivity. }
    destruct (halted_turn f m (length pre + length (flat b) + 1)%nat s
                "]"%char mf) as [Hs [m1 [ip1 [He Hr]]]];
      [rewrite Hops'; apply nth_error_close|exact Hrun|].
    rewrite exec_op_close in He.
    apply (complete_loop f b r pre post m s mf);
      [intros f' Hf'; apply IH; lia|exact Hops|exact Hs|].
    destruct (cell m =? 0) eqn:Ez; simpl negb in He; cbv iota in He.
    * inversion He; subst m1 ip1.
      left. split; [apply Z.eqb_eq, Ez|exact Hr].
    * rewrite Hc in He. inversion He; subst m1 ip1.
      right. split; [apply Z.eqb_neq, Ez|exact Hr].
Qed.

End Complete.

(** A structured program that is the whole program: what the loop of the
    interpreter halts in is what the big-step semantics says. *)
Lemma halted_structured p br inp cs ms fuel m s mf :
  match_brackets (flat p) = inr br ->
  run_loop (flat p) br inp cs ms fuel m 0 s = Halted mf ->
  exists n, bs (ceff inp cs) cell p m n mf /\ (n < fuel)%nat /\
            s + Z.of_nat n <= Z.max s ms.
Proof.
  intros Hbr Hrun.
  destruct (run_complete inp cs (flat p) br ms Hbr fuel) as [HA _].
  destruct (HA p [] []) with (m := m) (s := s) (mf := mf)
    as [n [m' [Hbs [Hn [Hb Hrest]]]]].
  { rewrite app_nil_r. reflexivity. }
  { exact Hrun. }
  simpl length in Hrest.
  destruct (fuel - n)%nat as [|k] eqn:Ek; [discriminate|].
  rewrite run_loop_end in Hrest by (apply nth_error_None; simpl; lia).
  inversion Hrest; subst m'.
  exists n. split; [exact Hbs|]. split; [lia|exact Hb].
Qed.

End Completeness.

Import Completeness.

(** ** The cursor of the emitter and the pointer of the machine *)

Module Cursor.

(** *** The code of the methods, structured *)

Definition inc_prog (p c n : Z) : list instr :=
  goto p c ++ repeat (Op SInc) (Z.to_nat n).

Definition dec_prog (p c n : Z) : list instr :=
  goto p c ++ repeat (Op SDec) (Z.to_nat n).

Definition clear_prog (p c : Z) : list instr :=
  goto p c ++ [Loop [Op SDec]].

Definition read_prog (p c : Z) : list instr := goto p c ++ [Op SRead].

Definition write_prog (p c : Z) : list instr := goto p c ++ [Op SWrite].

Definition copy_prog (p src dst tmp : Z) : list instr :=
  goto p src ++
  [Loop (Op SDec :: goto src dst ++ Op SInc :: goto dst tmp ++
         Op SInc :: goto tmp src)] ++
  move_prog src tmp src.

Definition multiply_prog (p a b result tmp : Z) : list instr :=
  goto p a ++
  [Loop (Op SDec :: goto a b ++
         [Loop (Op SDec :: goto b result ++ Op SInc :: goto result tmp ++
                Op SInc :: goto tmp b)] ++
         move_prog b tmp b ++ goto tmp a)].

(** A loop opened on [c], with the body [body] that leaves the cursor
    at [q], and closed on [c]. *)
Definition loop_prog (p c : Z) (body : list instr) (q : Z) : list instr :=
  goto p c ++ [Loop (body ++ goto q c)].

Ltac emitted_steps :=
  repeat (rewrite emitted_seq_cons;
          [|appends_macro|appends_list appends_macro]);
  rewrite ?emitted_seq_nil, ?emitted_goto, ?emitted_append, ?emitted_move,
          ?pos_goto, ?pos_move;
  cbn [pos append code];
  rewrite ?emitted_goto, ?emitted_move, ?pos_goto, ?pos_move;
  change (strip (str "[-")) with ["["%char; "-"%char];
  change (strip (str "[-]")) with ["["%char; "-"%char; "]"%char];
  change (strip (str "+")) with ["+"%char];
  change (strip (str ",")) with [","%char];
  change (strip (str ".")) with ["."%char];
  change (strip (str "[")) with ["["%char];
  change (strip (str "]")) with ["]"%char].

Ltac flat_steps :=
  repeat first [rewrite flat_app | rewrite flat_loop | rewrite flat_op];
  change (flat []) with (@nil ascii);
  cbn [op_char];
  repeat first [rewrite <- app_assoc | progress cbn [app] | rewrite app_nil_r].

Lemma emitted_inc c n p : emitted (inc c n) p = flat (inc_prog p c n).
Proof.
  unfold inc, inc_prog. emitted_steps.
  unfold times. rewrite strip_repeat by reflexivity.
  rewrite flat_app, flat_repeat, app_nil_r. reflexivity.
Qed.

Lemma emitted_dec c n p : emitted (dec c n) p = flat (dec_prog p c n).
Proof.
  unfold dec, dec_prog. emitted_steps.
  unfold times. rewrite strip_repeat by reflexivity.
  rewrite flat_app, flat_repeat, app_nil_r. reflexivity.
Qed.

Lemma emitted_clear c p : emitted (clear c) p = flat (clear_prog p c).
Proof. unfold clear, clear_prog. emitted_steps. flat_steps. reflexivity. Qed.

Lemma emitted_read c p : emitted (read c) p = flat (read_prog p c).
Proof. unfold read, read_prog. emitted_steps. flat_steps. reflexivity. Qed.

Lemma emitted_write c p : emitted (write c) p = flat (write_prog p c).
Proof. unfold write, write_prog. emitted_steps. flat_steps. reflexivity. Qed.

Lemma emitted_copy src dst tmp p :
  emitted (copy src dst tmp) p = flat (copy_prog p src dst tmp).
Proof. unfold copy, copy_prog. emitted_steps. flat_steps. reflexivity. Qed.

Lemma emitted_multiply a b result tmp p :
  emitted (multiply a b result tmp) p = flat (multiply_prog p a b result tmp).
Proof.
  unfold multiply, multiply_prog. emitted_steps. flat_steps. reflexivity.
Qed.

(** *** The net motion of structured code *)

Definition op_shift (o : simple) : Z :=
  match o with SRight => 1 | SLeft => -1 | _ => 0 end.

Lemma shift_nil : shift [] = Some 0.
Proof. reflexivity. Qed.

Lemma shift_op o r b : shift r = Some b -> shift (Op o :: r) = Some (op_shift o + b).
Proof.
  intros H. change (shift (Op o :: r)) with
    (match shift_instr (Op o), shift r with
     | Some a, Some b => Some (a + b) | _, _ => None end).
  rewrite H. destruct o; reflexivity.
Qed.

Lemma shift_loop body r a b :
  shift body = Some a -> a = 0 -> shift r = Some b ->
  shift (Loop body :: r) = Some b.
Proof.
  intros Hb -> Hr. change (shift (Loop body :: r)) with
    (match (match shift body with Some 0 => Some 0 | _ => None end), shift r with
     | Some a, Some b => Some (a + b) | _, _ => None end).
  rewrite Hb, Hr. reflexivity.
Qed.

Lemma shift_app p q a b :
  shift p = Some a -> shift q = Some b -> shift (p ++ q) = Some (a + b).
Proof.
  revert a. induction p as [|i p IH]; intros a Hp Hq.
  - inversion Hp; subst. simpl app. rewrite Hq. reflexivity.
  - change (shift (i :: p)) with
      (match shift_instr i, shift p with
       | Some a, Some b => Some (a + b) | _, _ => None end) in Hp.
    simpl app. change (shift (i :: p ++ q)) with
      (match shift_instr i, shift (p ++ q) with
       | Some a, Some b => Some (a + b) | _, _ => None end).
    destruct (shift_instr i) as [x|]; [|discriminate].
    destruct (shift p) as [y|]; [|discriminate].
    inversion Hp; subst. rewrite (IH y eq_refl Hq). f_equal. lia.
Qed.

Lemma shift_repeat o n : op_shift o = 0 -> shift (repeat (Op o) n) = Some 0.
Proof.
  intros H. induction n as [|n IH]; [reflexivity|].
  simpl repeat. rewrite (shift_op o _ 0 IH), H. reflexivity.
Qed.

Lemma shift_right n : shift (repeat (Op SRight) n) = Some (Z.of_nat n).
Proof.
  induction n as [|n IH]; [reflexivity|].
  simpl repeat. rewrite (shift_op _ _ _ IH). f_equal. cbn [op_shift]. lia.
Qed.

Lemma shift_left n : shift (repeat (Op SLeft) n) = Some (- Z.of_nat n).
Proof.
  induction n as [|n IH]; [reflexivity|].
  simpl repeat. rewrite (shift_op _ _ _ IH). f_equal. cbn [op_shift]. lia.
Qed.

Lemma shift_goto a b : shift (goto a b) = Some (b - a).
Proof.
  unfold goto. destruct (b - a >? 0) eqn:E1.
  - rewrite shift_right. f_equal. lia.
  - destruct (b - a <? 0) eqn:E2.
    + rewrite shift_left. f_equal. lia.
    + rewrite shift_nil. f_equal. lia.
Qed.

Lemma shift_eq p a b : shift p = Some a -> a = b -> shift p = Some b.
Proof. intros H <-. exact H. Qed.

Ltac shift_tac :=
  idtac;
  lazymatch goal with
  | |- shift [] = _ => apply shift_nil
  | |- shift (goto _ _) = _ => apply shift_goto
  | |- shift (repeat _ _) = _ => apply shift_repeat; reflexivity
  | |- shift (_ ++ _) = _ => eapply shift_app; [shift_tac|shift_tac]
  | |- shift (Op _ :: _) = _ => eapply shift_op; shift_tac
  | |- shift (Loop _ :: _) = _ =>
      eapply shift_loop; [shift_tac|cbn [op_shift]; lia|shift_tac]
  end.

Ltac shift_of := eapply shift_eq; [shift_tac|cbn [op_shift]; lia].

Lemma shift_inc p c n : shift (inc_prog p c n) = Some (c - p).
Proof. unfold inc_prog. shift_of. Qed.

Lemma shift_dec p c n : shift (dec_prog p c n) = Some (c - p).
Proof. unfold dec_prog. shift_of. Qed.

Lemma shift_clear p c : shift (clear_prog p c) = Some (c - p).
Proof. unfold clear_prog. shift_of. Qed.

Lemma shift_read p c : shift (read_prog p c) = Some (c - p).
Proof. unfold read_prog. shift_of. Qed.

Lemma shift_write p c : shift (write_prog p c) = Some (c - p).
Proof. unfold write_prog. shift_of. Qed.

Lemma shift_move p src dst : shift (move_prog p src dst) = Some (src - p).
Proof. unfold move_prog, move_loop. shift_of. Qed.

Lemma shift_copy p src dst tmp :
  shift (copy_prog p src dst tmp) = Some (tmp - p).
Proof. unfold copy_prog, move_prog, move_loop. shift_of. Qed.

Lemma shift_multiply p a b result tmp :
  shift (multiply_prog p a b result tmp) = Some (a - p).
Proof. unfold multiply_prog, move_prog, move_loop. shift_of. Qed.

Lemma shift_loop_prog p c body q :
  shift body = Some (q - c) -> shift (loop_prog p c body q) = Some (c - p).
Proof.
  intros H. unfold loop_prog.
  eapply shift_eq.
  - eapply shift_app; [apply shift_goto|].
    eapply shift_loop; [eapply shift_app; [exact H|apply shift_goto]
                       |lia|apply shift_nil].
  - lia.
Qed.

(** *** Runs follow the net motion *)

Lemma ceff_ptr inp cs o m m1 :
  ceff inp cs o m = Some m1 -> ptr m1 = ptr m + op_shift o.
Proof.
  intros H. destruct o; cbn [op_shift].
  - rewrite ceff_right in H. inversion H; subst. reflexivity.
  - rewrite ceff_left in H.
    destruct (ptr m - 1 <? 0); inversion H; subst. simpl. lia.
  - rewrite ceff_inc in H.
    destruct (cs =? 0); inversion H; subst. simpl. lia.
  - rewrite ceff_dec in H.
    destruct (cs =? 0); inversion H; subst. simpl. lia.
  - rewrite ceff_write in H.
    destruct (chr (cell m)); inversion H; subst. simpl. lia.
  - rewrite ceff_read in H.
    destruct (nth_error inp (input_pos m)); inversion H; subst; simpl; lia.
Qed.

(** A run of a program with net motion [k] moves the pointer by [k]. *)
Lemma shift_sound inp cs p m n m' :
  bs (ceff inp cs) cell p m n m' ->
  forall k, shift p = Some k -> ptr m' = ptr m + k.
Proof.
  induction 1 as [s|o r s s1 n s2 Heff Hbs IH
                 |b r s n s2 Hz Hbs IH
                 |b r s n1 s1 n2 s2 Hnz Hb IHb Hr IHr]; intros k Hk.
  - inversion Hk. lia.
  - change (shift (Op o :: r)) with
      (match shift_instr (Op o), shift r with
       | Some a, Some b => Some (a + b) | _, _ => None end) in Hk.
    destruct (shift r) as [y|] eqn:Er;
      [|destruct (shift_instr (Op o)); discriminate].
    rewrite (IH y eq_refl), (ceff_ptr _ _ _ _ _ Heff).
    destruct o; inversion Hk; cbn [op_shift]; lia.
  - change (shift (Loop b :: r)) with
      (match (match shift b with Some 0 => Some 0 | _ => None end), shift r with
       | Some a, Some b => Some (a + b) | _, _ => None end) in Hk.
    destruct (shift b) as [[| |]|]; try discriminate.
    destruct (shift r) as [y|] eqn:Er; [|discriminate].
    inversion Hk; subst. rewrite (IH y eq_refl). lia.
  - pose proof Hk as Hk'.
    change (shift (Loop b :: r)) with
      (match (match shift b with Some 0 => Some 0 | _ => None end), shift r with
       | Some a, Some b => Some (a + b) | _, _ => None end) in Hk'.
    destruct (shift b) as [[| |]|] eqn:Eb; try discriminate.
    rewrite (IHr k Hk), (IHb 0 eq_refl). lia.
Qed.

(** The cursor is the pointer: when the code a method emits from the
    cursor [p] is the structured program [prog], whose net motion is to
    the cursor the method leaves, every run of that code by the loop of
    the interpreter that starts with the pointer at [p] and halts, halts
    with the pointer at that cursor. *)
Lemma cursor_is_pointer M prog p br inp cs ms fuel m s mf :
  emitted M p = flat prog ->
  shift prog = Some (pos (M (mkBF [] p)) - p) ->
  match_brackets (emitted M p) = inr br ->
  ptr m = p ->
  run_loop (emitted M p) br inp cs ms fuel m 0 s = Halted mf ->
  ptr mf = pos (M (mkBF [] p)).
Proof.
  intros He Hs Hbr Hp Hrun. rewrite He in Hbr, Hrun.
  destruct (halted_structured prog br inp cs ms fuel m s mf Hbr Hrun)
    as [n [Hbs _]].
  rewrite (shift_sound _ _ _ _ _ _ Hbs _ Hs). lia.
Qed.

(** The cursor a method leaves is the pointer of every machine that has
    run its code, from the pointer at the cursor the method found, and
    halted. *)
Definition tracks (M : BF -> BF) : Prop :=
  forall code p br inp cs ms fuel m s mf,
    match_brackets (emitted M p) = inr br -> ptr m = p ->
    run_loop (emitted M p) br inp cs ms fuel m 0 s = Halted mf ->
    ptr mf = pos (M (mkBF code p)).

Lemma pos_appends M code p : appends M -> pos (M (mkBF code p)) = pos (M (mkBF [] p)).
Proof. intros H. rewrite (H code p). reflexivity. Qed.

Lemma tracks_structured M (prog : Z -> list instr) :
  appends M ->
  (forall p, emitted M p = flat (prog p)) ->
  (forall p, shift (prog p) = Some (pos (M (mkBF [] p)) - p)) ->
  tracks M.
Proof.
  intros HA HE HS code p br inp cs ms fuel m s mf Hbr Hp Hrun.
  rewrite (pos_appends M code p HA).
  eapply cursor_is_pointer; [apply HE|apply HS|exact Hbr|exact Hp|exact Hrun].
Qed.

Lemma tracks_inc c n : tracks (inc c n).
Proof.
  apply (tracks_structured _ (fun p => inc_prog p c n));
    [apply appends_inc|apply emitted_inc|intros p; apply shift_inc].
Qed.

Lemma tracks_dec c n : tracks (dec c n).
Proof.
  apply (tracks_structured _ (fun p => dec_prog p c n));
    [apply appends_dec|apply emitted_dec|intros p; apply shift_dec].
Qed.

Lemma tracks_clear c : tracks (clear c).
Proof.
  apply (tracks_structured _ (fun p => clear_prog p c));
    [apply appends_clear|apply emitted_clear|intros p; apply shift_clear].
Qed.

Lemma tracks_read c : tracks (read c).
Proof.
  apply (tracks_structured _ (fun p => read_prog p c));
    [apply appends_read|apply emitted_read|intros p; apply shift_read].
Qed.

Lemma tracks_write c : tracks (write c).
Proof.
  apply (tracks_structured _ (fun p => write_prog p c));
    [apply appends_write|apply emitted_write|intros p; apply shift_write].
Qed.

Lemma tracks_move src dst : tracks (move src dst).
Proof.
  apply (tracks_structured _ (fun p => move_prog p src dst));
    [apply appends_move|apply emitted_move|intros p; apply shift_move].
Qed.

Lemma tracks_copy src dst tmp : tracks (copy src dst tmp).
Proof.
  apply (tracks_structured _ (fun p => copy_prog p src dst tmp));
    [apply appends_copy|apply emitted_copy|intros p; apply shift_copy].
Qed.

Lemma tracks_multiply a b result tmp : tracks (multiply a b result tmp).
Proof.
  apply (tracks_structured _ (fun p => multiply_prog p a b result tmp));
    [apply appends_multiply|apply emitted_multiply
    |intros p; apply shift_multiply].
Qed.

(** A loop opened and closed on [c] around a method whose code is
    structured and moves to its cursor. *)
Lemma emitted_loop c M p :
  appends M ->
  emitted (seq_ [loop_open c; M; loop_close c]) p =
  flat (goto p c) ++ "["%char :: emitted M c ++
  flat (goto (pos (M (mkBF [] c))) c) ++ ["]"%char].
Proof.
  intros HM.
  rewrite emitted_seq_cons;
    [|apply appends_loop_open
     |apply appends_seq; repeat (apply List.Forall_cons;
        [first [exact HM|apply appends_loop_close]|]); apply List.Forall_nil].
  rewrite emitted_seq_cons;
    [|exact HM
     |apply appends_seq; repeat (apply List.Forall_cons;
        [apply appends_loop_close|]); apply List.Forall_nil].
  rewrite emitted_seq_cons;
    [|apply appends_loop_close|apply appends_seq, List.Forall_nil].
  rewrite emitted_seq_nil, app_nil_r.
  unfold loop_open, loop_close.
  emitted_steps. rewrite <- !app_assoc. reflexivity.
Qed.

Lemma tracks_loop c M (body : list instr) :
  appends M -> emitted M c = flat body ->
  shift body = Some (pos (M (mkBF [] c)) - c) ->
  tracks (seq_ [loop_open c; M; loop_close c]).
Proof.
  intros HM HE HS.
  apply (tracks_structured _
           (fun p => loop_prog p c body (pos (M (mkBF [] c))))).
  - apply appends_seq. repeat (apply List.Forall_cons;
      [first [exact HM|apply appends_loop_open|apply appends_loop_close]|]).
    apply List.Forall_nil.
  - intros p. rewrite (emitted_loop c M p HM), HE. unfold loop_prog.
    rewrite flat_app, flat_loop, flat_app.
    change (flat []) with (@nil ascii).
    rewrite <- ?app_assoc, ?app_nil_r. reflexivity.
  - intros p. rewrite (shift_loop_prog p c body _ HS). reflexivity.
Qed.

End Cursor.

Import Cursor.

(** ** How a call of [run_bf] ends *)

Module Outcomes.

(** The variables of [run_bf] when it reaches its [return]. *)
Definition final_machine (code input_str : list ascii) (cell_size max_steps : Z)
    : option machine :=
  match match_brackets (strip code) with
  | inl _ => None
  | inr br =>
      match run_loop (strip code) br (encode_latin1 input_str) cell_size
              max_steps (enough_fuel max_steps) initial 0 0 with
      | Halted m => Some m
      | _ => None
      end
  end.

(** The output a raised exception carries in its message. *)
Definition partial_output (e : error) : option (list Z) :=
  match e with
  | StepsExceeded _ out => Some out
  | _ => None
  end.

Lemma final_machine_run_bf code inp cs ms m :
  final_machine code inp cs ms = Some m ->
  run_bf code inp cs ms = Returned (Interp.output m).
Proof.
  unfold final_machine, run_bf.
  destruct (match_brackets (strip code)) as [e|br]; [discriminate|].
  destruct (run_loop _ _ _ _ _ _ _ _ _); try discriminate.
  intros H. inversion H; subst. reflexivity.
Qed.

Lemma run_loop_S ops br inp cs ms f m ip s :
  run_loop ops br inp cs ms (S f) m ip s =
  match step ops br inp cs ms m ip s with
  | None => Halted m
  | Some (inl e) => Failed e
  | Some (inr (m', ip', s')) => run_loop ops br inp cs ms f m' ip' s'
  end.
Proof. reflexivity. Qed.

Section Turns.

Variable code input_str : list ascii.
Variable cell_size max_steps : Z.
Variable br : gmap nat nat.
Hypothesis Hbr : match_brackets (strip code) = inr br.

#[local] Abbreviation after :=
  (fun n => turns (strip code) br (encode_latin1 input_str) cell_size max_steps
                  n initial 0 0).
#[local] Abbreviation turn :=
  (step (strip code) br (encode_latin1 input_str) cell_size max_steps).

(** After [n] turns the loop of [run_bf] has fuel left. *)
Lemma after_fuel n m ip s :
  after n = Some (m, ip, s) ->
  exists k, enough_fuel max_steps = (n + S k)%nat /\ s = Z.of_nat n.
Proof.
  intros H. apply turns_steps in H as [Hs Hn].
  exists (Z.to_nat max_steps - n)%nat. unfold enough_fuel. split; lia.
Qed.

(** What raises in a turn is what [run_bf] raises. *)
Lemma run_bf_raises n m ip s e :
  after n = Some (m, ip, s) -> turn m ip s = Some (inl e) ->
  run_bf code input_str cell_size max_steps = Raised e.
Proof.
  intros Hn He. unfold run_bf. rewrite Hbr.
  destruct (after_fuel _ _ _ _ Hn) as [k [-> _]].
  rewrite (run_turns _ _ _ _ _ _ _ _ _ _ _ _ _ Hn).
  rewrite run_loop_S, He. reflexivity.
Qed.

(** When the loop condition fails, [run_bf] returns. *)
Lemma run_bf_returns n m ip s :
  after n = Some (m, ip, s) -> turn m ip s = None ->
  run_bf code input_str cell_size max_steps = Returned (Interp.output m) /\
  final_machine code input_str cell_size max_steps = Some m.
Proof.
  intros Hn He. unfold run_bf, final_machine. rewrite Hbr.
  destruct (after_fuel _ _ _ _ Hn) as [k [-> _]].
  rewrite (run_turns _ _ _ _ _ _ _ _ _ _ _ _ _ Hn).
  rewrite run_loop_S, He. split; reflexivity.
Qed.

(** What [run_bf] raises after loading was raised in a turn. *)
Lemma run_bf_raised e :
  run_bf code input_str cell_size max_steps = Raised e ->
  exists n m ip s, after n = Some (m, ip, s) /\ turn m ip s = Some (inl e).
Proof.
  unfold run_bf. rewrite Hbr.
  destruct (run_loop _ _ _ _ _ _ _ _ _) as [m|e'|] eqn:E; try discriminate.
  intros H. inversion H; subst e'.
  eapply run_failed. exact E.
Qed.

(** The exceptions of a turn. *)
Lemma turn_error m ip s e :
  turn m ip s = Some (inl e) ->
  (max_steps < s + 1 /\ e = StepsExceeded max_steps (Interp.output m)) \/
  (s + 1 <= max_steps /\
   (e = PointerBelowZero (s + 1) \/ e = ZeroDivisionError \/ e = ValueError \/
    exists k, e = KeyError k)).
Proof.
  unfold step. destruct (nth_error (strip code) ip) as [op|]; [|discriminate].
  destruct (s + 1 >? max_steps) eqn:E.
  - intros H. inversion H. left. split; [lia|reflexivity].
  - intros H. right. split; [lia|].
    unfold exec_op in H.
    repeat case_match; simplify_eq; eauto.
Qed.

End Turns.

(** A program that loads has balanced brackets. *)
Lemma loaded_balanced ops br : match_brackets ops = inr br -> balanced ops.
Proof.
  unfold match_brackets. intros H.
  pose proof (scan_open_at ops [] [] ∅ (open_none [] balanced_nil)) as Hs.
  simpl length in Hs. simpl app in Hs.
  destruct (scan_loop 0 ops [] ∅) as [e|[st br']]; [discriminate|].
  destruct st; [|discriminate].
  inversion Hs; subst. assumption.
Qed.

Lemma strip_all_ops l : Forall (fun c => is_op c = true) l -> strip l = l.
Proof.
  induction 1 as [|c l Hc Hl IH]; [reflexivity|].
  unfold strip in *. simpl. rewrite Hc, IH. reflexivity.
Qed.

Lemma encode_latin1_bytes s : Forall (fun b => 0 <= b < 256) (encode_latin1 s).
Proof.
  unfold encode_latin1. apply List.Forall_forall. intros b Hb.
  apply in_map_iff in Hb as [c [<- _]].
  pose proof (N_ascii_bounded c). lia.
Qed.

End Outcomes.

Import Outcomes.

(** ** Facts used by the statements below *)

Module Facts.

Lemma zeros_digits n : Forall is_digit (repeat 0 n).
Proof.
  induction n; simpl; constructor; [unfold is_digit; lia|assumption].
Qed.

Lemma zeros_fit n : forall i, products_fit i (repeat 0 n).
Proof. induction n; intros i; simpl; [exact I|split; [lia|apply IHn]]. Qed.

Lemma derivative_zeros n : forall i, derivative_from i (repeat 0 n) = repeat 0 n.
Proof. induction n; intros i; simpl; [reflexivity|rewrite IHn; reflexivity]. Qed.

(** The line printed for the zero polynomial: as many zeros as it has
    coefficients after the constant term. *)
Lemma zeros_line n :
  derivative_line (repeat 0 n) = join [32] (repeat [48] n) ++ [10].
Proof.
  unfold derivative_line, derivative. rewrite derivative_zeros.
  f_equal. f_equal. induction n; simpl; [reflexivity|].
  rewrite IHn. reflexivity.
Qed.

Lemma ord_space t : t <> " "%char -> ord t <> 32.
Proof.
  intros Ht H. apply Ht. rewrite <- (ascii_N_embedding t).
  unfold ord in H. replace (N_of_ascii t) with 32%N by lia. reflexivity.
Qed.

(** A bare constant: what [run_bf] returns and how much it has read. *)
Lemma constant_run d t rest ms :
  is_digit d -> t <> " "%char -> 1501 <= ms ->
  run_bf generate (char (48 + d) :: t :: rest) 256 ms = Returned [48; 10] /\
  exists m, final_machine generate (char (48 + d) :: t :: rest) 256 ms = Some m /\
            input_pos m = 2%nat.
Proof.
  intros Hd Ht Hms.
  destruct (gen_prog_constant d (ord t) (encode_latin1 rest) Hd (ord_range t)
              (ord_space t Ht)) as [n [Hn Hbs]].
  assert (Henc : encode_latin1 (char (48 + d) :: t :: rest) =
                 48 + d :: ord t :: encode_latin1 rest).
  { unfold encode_latin1 at 1. simpl map. f_equal.
    apply ord_char. unfold is_digit in Hd. lia. }
  rewrite <- Henc in Hbs.
  destruct (run_bf_window _ _ n ms Hbs ltac:(lia))
    as [Hret [br [m [Hbr [Hrun [_ [Hskip Hlen]]]]]]].
  split; [exact Hret|].
  exists m. split.
  - unfold final_machine. rewrite Hbr, Hrun. reflexivity.
  - cbn [winp] in Hskip. eapply skipn_pos; [exact Henc|exact Hlen|exact Hskip].
Qed.

(** The cell under the pointer of a machine whose cells are in range. *)
Lemma cell_in_range cs m :
  Range.in_range cs m -> wf m -> 0 <= cell m < cs.
Proof.
  unfold Range.in_range, wf, cell, cell_at. intros Hr Hwf.
  rewrite List.Forall_forall in Hr. apply Hr, nth_In. lia.
Qed.

(** [divmod_10] on the interpreter: with cells of 8 bits and the seven
    cells [base .. base+6] zero but for the dividend, the emitted code
    halts with remainder and quotient in place, the divisor cleared, and
    the pointer at the cursor of the emitter. *)
Lemma divmod_10_computes code base p n inp ms m :
  0 <= base -> 0 <= p -> ptr m = p -> wf m ->
  0 <= n <= 255 -> cell_at m (base + 1) = n ->
  (forall j, 0 <= j < 7 -> j <> 1 -> cell_at m (base + j) = 0) ->
  divmod_turns p base <= ms ->
  exists br mf,
    match_brackets (emitted (divmod_10 base) p) = inr br /\
    run_loop (emitted (divmod_10 base) p) br inp 256 ms (enough_fuel ms)
      m 0 0 = Halted mf /\
    ptr mf = pos (divmod_10 base (mkBF code p)) /\
    cell_at mf (base + 3) = n mod 10 /\ cell_at mf (base + 4) = n / 10 /\
    cell_at mf (base + 2) = 0.
Proof.
  intros Hbase Hp0 Hp Hwf Hn Hcell Hz Hms.
  rewrite emitted_divmod_10.
  destruct (match_brackets_flat (divmod_prog p base)) as [br Hbr].
  destruct (divmod_10_run inp base p n m)
    as [k [mf [Hbs [Hk [Hptr [_ [_ [_ Hcells]]]]]]]]; try assumption.
  exists br, mf. split; [exact Hbr|]. split.
  - unfold enough_fuel.
    replace (Z.to_nat ms) with (k + (Z.to_nat ms - k))%nat by lia.
    eapply run_whole; [exact Hbr|exact Hbs|lia].
  - split.
    + rewrite (pos_appends _ code p (appends_divmod_10 base)), pos_divmod_10.
      exact Hptr.
    + repeat split; rewrite Hcells by lia.
      * rewrite Z.eqb_refl. reflexivity.
      * destruct (base + 4 =? base + 3) eqn:E; [lia|].
        rewrite Z.eqb_refl. reflexivity.
      * destruct (base + 2 =? base + 3) eqn:E3; [lia|].
        destruct (base + 2 =? base + 4) eqn:E4; [lia|].
        destruct ((base <=? base + 2) && (base + 2 <? base + 7)) eqn:E;
          [reflexivity|lia].
Qed.

(** [print_number] on the interpreter leaves the pointer at the cursor of
    the emitter. *)
Lemma print_number_pointer code val_cell ws p v inp ms m :
  0 <= val_cell -> 0 <= ws -> 0 <= p -> ptr m = p -> wf m ->
  cell_at m val_cell = v -> 0 <= v <= 255 ->
  (forall j, 0 <= j < 14 -> cell_at m (ws + j) = 0) ->
  print_turns p val_cell ws v <= ms ->
  exists br mf,
    match_brackets (emitted (print_number val_cell ws) p) = inr br /\
    run_loop (emitted (print_number val_cell ws) p) br inp 256 ms
      (enough_fuel ms) m 0 0 = Halted mf /\
    ptr mf = pos (print_number val_cell ws (mkBF code p)).
Proof.
  intros Hval Hws Hp0 Hp Hwf Hv Hv255 Hz Hms.
  rewrite emitted_print_number.
  destruct (match_brackets_flat (print_prog p val_cell ws)) as [br Hbr].
  destruct (print_number_run inp val_cell ws p v m)
    as [n [mf [Hbs [Hn [Hptr _]]]]]; try assumption.
  exists br, mf. split; [exact Hbr|]. split.
  - unfold enough_fuel.
    replace (Z.to_nat ms) with (n + (Z.to_nat ms - n))%nat by lia.
    eapply run_whole; [exact Hbr|exact Hbs|lia].
  - rewrite (pos_appends _ code p (appends_print_number val_cell ws)),
      pos_print_number. exact Hptr.
Qed.

(** The characters [_goto] emits. *)
Lemma goto_chars c p :
  emitted (_goto c) p =
  if p <? c then repeat ">"%char (Z.to_nat (c - p))
  else repeat "<"%char (Z.to_nat (p - c)).
Proof.
  rewrite emitted_goto. unfold goto.
  destruct (c - p >? 0) eqn:E1.
  - destruct (p <? c) eqn:E; [|lia]. apply flat_repeat.
  - destruct (p <? c) eqn:E; [lia|].
    destruct (c - p <? 0) eqn:E2.
    + rewrite flat_repeat. f_equal. lia.
    + replace (p - c) with 0 by lia. reflexivity.
Qed.

(** A bracket leaves the machine as it is. *)
Lemma bracket_keeps br inp cs op m ip s m' ip' :
  op = "["%char \/ op = "]"%char ->
  exec_op br inp cs op m ip s = inr (m', ip') -> m' = m.
Proof.
  intros [-> | ->] H.
  - rewrite exec_op_open in H. repeat case_match; simplify_eq; reflexivity.
  - rewrite exec_op_close in H. repeat case_match; simplify_eq; reflexivity.
Qed.

End Facts.

Import Facts.

(** ** The properties stated about the program *)

Module Claims.

(** C1: for every digit sequence c0 c1 ... ck with k >= 1, every digit in
    0..9 and every product ci*i at most 255, [run_bf] on the program of
    [generate()] and the input "c0 c1 ... ck\n", with cells of 8 bits and
    a step budget of at least 1000 + 15002 k, returns exactly the line
    "(c1*1) (c2*2) ... (ck*k)\n": the coefficients of the derivative in
    decimal, separated by spaces and ended by a newline. *)
Theorem derivative_printed c0 c r max_steps :
  is_digit c0 -> Forall is_digit (c :: r) -> products_fit 1 (c :: r) ->
  1000 + 15002 * Z.of_nat (length (c :: r)) <= max_steps ->
  run_bf generate (input_text c0 (c :: r)) default_cell_size max_steps =
  Returned (derivative_line (c :: r)).
Proof. apply generate_derivative. Qed.

Lemma derivative_printed_witness :
  run_bf generate (input_text 1 [5; 0; 3]) default_cell_size default_max_steps =
  Returned (derivative_line [5; 0; 3]).
Proof.
  apply derivative_printed.
  - unfold is_digit. lia.
  - repeat constructor; unfold is_digit; lia.
  - simpl. lia.
  - simpl length. unfold default_max_steps. lia.
Defined.

(** C2, as stated, fails: the zero polynomial "0 0 0\n" yields "0 0\n",
    not "0\n". *)
Lemma zero_polynomial_two_zeros :
  run_bf generate (input_text 0 [0; 0]) default_cell_size 40000 =
    Returned [48; 32; 48; 10] /\
  run_bf generate (input_text 0 [0; 0]) default_cell_size 40000 <>
    Returned [48; 10].
Proof.
  assert (H : run_bf generate (input_text 0 [0; 0]) default_cell_size 40000 =
              Returned [48; 32; 48; 10]).
  { apply (generate_derivative 0 0 [0] 40000).
    - unfold is_digit. lia.
    - repeat constructor; unfold is_digit; lia.
    - simpl. lia.
    - simpl length. lia. }
  split; [exact H|]. rewrite H. discriminate.
Qed.

(** C2: a bare constant, that is a digit followed by a character other
    than a space, whatever follows, makes the program of [generate()]
    print exactly "0\n" and read two bytes, the digit and its terminator;
    the zero polynomial with k+1 coefficients after its constant term makes
    it print k+1 zeros, "0 0 ... 0\n", which is "0\n" only for k = 0. *)
Theorem constant_prints_zero d t rest k max_steps :
  is_digit d -> t <> " "%char ->
  1000 + 15002 * Z.of_nat (S k) <= max_steps ->
  (run_bf generate (char (48 + d) :: t :: rest) default_cell_size max_steps =
     Returned [48; 10] /\
   exists m,
     final_machine generate (char (48 + d) :: t :: rest) default_cell_size
       max_steps = Some m /\ input_pos m = 2%nat) /\
  run_bf generate (input_text 0 (repeat 0 (S k))) default_cell_size max_steps =
    Returned (join [32] (repeat [48] (S k)) ++ [10]).
Proof.
  intros Hd Ht Hms. split.
  - apply constant_run; [exact Hd|exact Ht|lia].
  - rewrite <- zeros_line. simpl repeat.
    apply generate_derivative.
    + unfold is_digit. lia.
    + apply (zeros_digits (S k)).
    + apply (zeros_fit (S k)).
    + rewrite <- Hms. simpl length. rewrite repeat_length. lia.
Qed.

Lemma constant_prints_zero_witness :
  (run_bf generate (char (48 + 7) :: "010"%char :: []) default_cell_size
     default_max_steps = Returned [48; 10] /\
   exists m,
     final_machine generate (char (48 + 7) :: "010"%char :: []) default_cell_size
       default_max_steps = Some m /\ input_pos m = 2%nat) /\
  run_bf generate (input_text 0 (repeat 0 2)) default_cell_size
    default_max_steps = Returned (join [32] (repeat [48] 2) ++ [10]).
Proof.
  apply (constant_prints_zero 7 "010"%char [] 1 default_max_steps).
  - unfold is_digit. lia.
  - discriminate.
  - unfold default_max_steps. lia.
Defined.

(** C3, as stated, fails: with [cell_size = 100], Read stores the byte 122
    of "z" as it is; with [cell_size = -3], Increment leaves -2. *)
Lemma cell_out_of_range :
  option_map (fun m => cell_at m 0)
    (final_machine (str ",") (str "z") 100 10) = Some 122 /\
  option_map (fun m => cell_at m 0)
    (final_machine (str "+") [] (-3) 10) = Some (-2).
Proof. split; vm_compute; reflexivity. Qed.

(** C3: when [cell_size] is positive and every byte of the input is below
    it (as all are when [cell_size >= 256]), every cell of the tape is in
    [0, cell_size) after every turn of the interpreter, for every program
    and step budget; on such a tape Increment and Decrement wrap modulo
    [cell_size] in both directions: [cell_size - 1] goes to 0 and 0 goes
    to [cell_size - 1]. *)
Theorem cells_stay_in_range code input_str cell_size max_steps br n m ip s :
  0 < cell_size ->
  Forall (fun b => 0 <= b < cell_size) (encode_latin1 input_str) ->
  match_brackets (strip code) = inr br ->
  turns (strip code) br (encode_latin1 input_str) cell_size max_steps
        n initial 0 0 = Some (m, ip, s) ->
  Forall (fun v => 0 <= v < cell_size) (tape m) /\
  (forall ip' s',
     exec_op br (encode_latin1 input_str) cell_size "+" m ip' s' =
     inr (set_cell (if cell m =? cell_size - 1 then 0 else cell m + 1) m, ip')) /\
  (forall ip' s',
     exec_op br (encode_latin1 input_str) cell_size "-" m ip' s' =
     inr (set_cell (if cell m =? 0 then cell_size - 1 else cell m - 1) m, ip')).
Proof.
  intros Hsize Hinput Hbr Hturns.
  assert (Hr : Range.in_range cell_size m).
  { eapply turns_in_range; [exact Hsize|exact Hinput| |exact Hturns].
    apply initial_in_range, Hsize. }
  assert (Hwf : wf m) by (eapply turns_wf; [apply initial_wf|exact Hturns]).
  pose proof (cell_in_range _ _ Hr Hwf) as Hc.
  split; [exact Hr|].
  assert (Hz : (cell_size =? 0) = false) by lia.
  split; intros ip' s'; unfold exec_op; simpl; rewrite Hz; do 3 f_equal.
  - destruct (cell m =? cell_size - 1) eqn:E.
    + replace (cell m + 1) with cell_size by lia. apply Z_mod_same_full.
    + apply Z.mod_small. lia.
  - destruct (cell m =? 0) eqn:E.
    + replace (cell m - 1) with (cell_size - 1 + (-1) * cell_size) by lia.
      rewrite Z.mod_add by lia. apply Z.mod_small. lia.
    + apply Z.mod_small. lia.
Qed.

Lemma cells_stay_in_range_witness :
  match turns (str "+>,-") ∅ (encode_latin1 (str "A")) 256 10 3 initial 0 0 with
  | Some (m, _, _) => Forall (fun v => 0 <= v < 256) (tape m)
  | None => True
  end.
Proof.
  destruct (turns (str "+>,-") ∅ (encode_latin1 (str "A")) 256 10 3 initial 0 0)
    as [[[m ip] s]|] eqn:E; [|exact I].
  refine (proj1 (cells_stay_in_range (str "+>,-") (str "A") 256 10 ∅ 3
                   m ip s _ _ _ E)).
  - lia.
  - repeat constructor; lia.
  - vm_compute. reflexivity.
Defined.

(** C4: [divmod_10(0)] on a tape whose cells 0 to 5 are as its docstring
    asks, zero but for the dividend 1 in cell 1, and whose cell 6 holds 1.
    The tape is prepared by [inc(1); inc(6)].  The remainder 1 and the
    quotient 0 are in cells 3 and 4, but the divisor cell 2 is left holding
    9, not 0, and the pointer is at cell 5 where the cursor of the emitter
    is 2: the code reads the seventh cell, [base + 6]. *)
Theorem divmod_10_seventh_cell :
  option_map (fun m => (firstn 8 (tape m), ptr m))
    (final_machine (Codegen.output (seq_ [inc 1 1; inc 6 1] new)) [] 256 1000) =
    Some ([0; 1; 0; 0; 0; 0; 1; 0], 6) /\
  option_map (fun m => (firstn 8 (tape m), ptr m))
    (final_machine (Codegen.output (seq_ [inc 1 1; inc 6 1; divmod_10 0] new))
       [] 256 1000) =
    Some ([0; 0; 9; 1; 0; 0; 0; 1], 5) /\
  pos (seq_ [inc 1 1; inc 6 1; divmod_10 0] new) = 2.
Proof. repeat split; vm_compute; reflexivity. Qed.

(** C5: for every value v in [0, 255] held in the cell [val_cell], with
    the 14 cells of the workspace [ws .. ws+13] zero, the instruction
    sequence emitted by [print_number(val_cell, ws)], executed by the
    interpreter with cells of 8 bits from the pointer at the cursor of
    the emitter, halts, has written exactly the decimal digits of v, with
    no leading '0' except for v = 0, which is written as one '0', and
    leaves [val_cell] holding 0. *)
Theorem print_number_decimal val_cell ws p v input_bytes max_steps m :
  0 <= val_cell -> 0 <= ws -> 0 <= p -> ptr m = p -> wf m ->
  cell_at m val_cell = v -> 0 <= v <= 255 ->
  (forall j, 0 <= j < 14 -> cell_at m (ws + j) = 0) ->
  print_turns p val_cell ws v <= max_steps ->
  exists br m',
    match_brackets (emitted (print_number val_cell ws) p) = inr br /\
    run_loop (emitted (print_number val_cell ws) p) br input_bytes 256
      max_steps (enough_fuel max_steps) m 0 0 = Halted m' /\
    Interp.output m' = Interp.output m ++ decimal v /\
    no_leading_zero v = true /\
    cell_at m' val_cell = 0.
Proof.
  intros Hval Hws Hp0 Hp Hwf Hv Hv255 Hz Hms.
  rewrite emitted_print_number.
  destruct (match_brackets_flat (print_prog p val_cell ws)) as [br Hbr].
  destruct (print_number_run input_bytes val_cell ws p v m)
    as [n [m' [Hbs [Hn [_ [_ [Hout [_ Hcells]]]]]]]]; try assumption.
  exists br, m'. split; [exact Hbr|]. split.
  - unfold enough_fuel.
    replace (Z.to_nat max_steps) with (n + (Z.to_nat max_steps - n))%nat by lia.
    eapply run_whole; [exact Hbr|exact Hbs|lia].
  - split; [exact Hout|]. split.
    + pose proof print_checked as H.
      apply (forallb_range _ _ v) in H; [|simpl; lia].
      cbv beta in H. apply andb_true_iff in H as [_ H]. exact H.
    + rewrite Hcells by exact Hval. rewrite Z.eqb_refl. reflexivity.
Qed.

Lemma print_number_decimal_witness :
  exists br m',
    match_brackets (emitted (print_number 3 7) 0) = inr br /\
    run_loop (emitted (print_number 3 7) 0) br [] 256 20000 (enough_fuel 20000)
      (Machine (<[3%nat := 207]> (repeat 0 30)) 0 0 []) 0 0 = Halted m' /\
    Interp.output m' = [] ++ decimal 207 /\
    no_leading_zero 207 = true /\
    cell_at m' 3 = 0.
Proof.
  apply (print_number_decimal 3 7 0 207 [] 20000
           (Machine (<[3%nat := 207]> (repeat 0 30)) 0 0 [])).
  - lia.
  - lia.
  - lia.
  - reflexivity.
  - unfold wf. simpl. lia.
  - reflexivity.
  - lia.
  - intros j Hj.
    assert (Hn : (Z.to_nat j < 14)%nat) by lia.
    replace j with (Z.of_nat (Z.to_nat j)) by lia.
    destruct (Z.to_nat j) as [|k]; [reflexivity|].
    do 13 (destruct k as [|k]; [reflexivity|]). lia.
  - vm_compute. discriminate.
Defined.

(** C6: for every instruction stream whose brackets are unbalanced,
    [run_bf] raises while it loads, whatever the input, the cell size and
    the step budget: the error names the position of a closing bracket met
    with an empty stack, all before it being balanced, or that of the last
    opening bracket left on the stack, all after it being balanced.  The
    loop of the interpreter is not entered: there is no final machine, and
    the error carries no output. *)
Theorem unbalanced_never_runs code :
  ~ balanced (strip code) ->
  exists e,
    (forall input_str cell_size max_steps,
       run_bf code input_str cell_size max_steps = Raised e /\
       final_machine code input_str cell_size max_steps = None) /\
    partial_output e = None /\
    ((exists i, e = UnmatchedClose i /\ unmatched_close (strip code) i) \/
     (exists i, e = UnmatchedOpen i /\ unmatched_open (strip code) i)).
Proof.
  intros H. destruct (load_unbalanced _ H) as [i [[He Hi]|[He Hi]]].
  - exists (UnmatchedClose i). split; [|split; [reflexivity|left; eauto]].
    intros inp cs ms. unfold run_bf, final_machine. rewrite He.
    split; reflexivity.
  - exists (UnmatchedOpen i). split; [|split; [reflexivity|right; eauto]].
    intros inp cs ms. unfold run_bf, final_machine. rewrite He.
    split; reflexivity.
Qed.

Lemma unbalanced_never_runs_witness :
  exists e,
    (forall input_str cell_size max_steps,
       run_bf (str "+[-]]") input_str cell_size max_steps = Raised e /\
       final_machine (str "+[-]]") input_str cell_size max_steps = None) /\
    partial_output e = None /\
    ((exists i, e = UnmatchedClose i /\
                unmatched_close (strip (str "+[-]]")) i) \/
     (exists i, e = UnmatchedOpen i /\
                unmatched_open (strip (str "+[-]]")) i)).
Proof.
  apply (unbalanced_never_runs (str "+[-]]")).
  intros H. apply load_balanced in H as [br H].
  vm_compute in H. discriminate.
Defined.

(** C7: how [run_bf] fails while it runs.  At any point of a run, the
    state after n turns: if the next instruction is [<] and the pointer
    is at 0, [run_bf] raises the bounds error at once, and it carries a
    step number and no output; if an instruction is left and the budget
    is spent, [run_bf] raises the budget error with the output written
    so far, so the budget is checked at every instruction; and whenever
    [run_bf] raises an error that carries output, it is the budget error,
    with the output of the machine at the turn that raised it. *)
Theorem failure_propagation code input_str cell_size max_steps br n m ip s :
  match_brackets (strip code) = inr br ->
  turns (strip code) br (encode_latin1 input_str) cell_size max_steps
        n initial 0 0 = Some (m, ip, s) ->
  (nth_error (strip code) ip = Some "<"%char -> ptr m = 0 ->
   s + 1 <= max_steps ->
   run_bf code input_str cell_size max_steps = Raised (PointerBelowZero (s + 1)) /\
   partial_output (PointerBelowZero (s + 1)) = None) /\
  (nth_error (strip code) ip <> None -> max_steps < s + 1 ->
   run_bf code input_str cell_size max_steps =
   Raised (StepsExceeded max_steps (Interp.output m))) /\
  (forall e out,
     run_bf code input_str cell_size max_steps = Raised e ->
     partial_output e = Some out ->
     e = StepsExceeded max_steps out /\
     exists n' m' ip' s',
       turns (strip code) br (encode_latin1 input_str) cell_size max_steps
             n' initial 0 0 = Some (m', ip', s') /\
       out = Interp.output m' /\ max_steps < s' + 1 /\
       nth_error (strip code) ip' <> None).
Proof.
  intros Hbr Hturns. split; [|split].
  - intros Hop Hptr Hs. split; [|reflexivity].
    eapply run_bf_raises; [exact Hbr|exact Hturns|].
    apply turn_below_zero; assumption.
  - intros Hop Hs.
    eapply run_bf_raises; [exact Hbr|exact Hturns|].
    apply turn_over_budget; assumption.
  - intros e out Hrun Hout.
    destruct (run_bf_raised _ _ _ _ _ Hbr e Hrun) as [n' [m' [ip' [s' [Hn' He]]]]].
    destruct e; try discriminate. simpl in Hout. inversion Hout; subst out0.
    apply turn_exceeded in He as [-> [-> [Hs Hop]]].
    split; [reflexivity|]. exists n', m', ip', s'. auto.
Qed.

Lemma failure_propagation_witness :
  run_bf (str "<") [] 256 10 = Raised (PointerBelowZero (0 + 1)) /\
  partial_output (PointerBelowZero (0 + 1)) = None.
Proof.
  refine (proj1 (failure_propagation (str "<") [] 256 10 ∅ 0 initial 0%nat 0
                   _ _) _ _ _).
  - vm_compute. reflexivity.
  - reflexivity.
  - reflexivity.
  - reflexivity.
  - lia.
Defined.

(** C8: [run_bf] is deterministic.  The runs of a call, told turn by turn
    without a bound on their number, are a relation between the four
    arguments and a result: the value returned, or the error raised with
    the position, the step number or the output it carries.  Two runs on
    the same program, input, cell size and step budget have the same
    result, and it is the one [run_bf] computes. *)
Theorem run_bf_deterministic code input_str cell_size max_steps r1 r2 :
  bf_runs code input_str cell_size max_steps r1 ->
  bf_runs code input_str cell_size max_steps r2 ->
  r1 = r2 /\ r1 = run_bf code input_str cell_size max_steps.
Proof.
  intros H1 H2. split.
  - eapply bf_runs_unique; eassumption.
  - eapply bf_runs_unique; [exact H1|apply bf_runs_run_bf].
Qed.

Lemma run_bf_deterministic_witness :
  run_bf (str "+.<") [] 256 10 = Raised (PointerBelowZero 3) /\
  run_bf (str "+.<") [] 256 10 = run_bf (str "+.<") [] 256 10.
Proof.
  assert (H : run_bf (str "+.<") [] 256 10 = Raised (PointerBelowZero 3))
    by (vm_compute; reflexivity).
  destruct (run_bf_deterministic (str "+.<") [] 256 10
              (run_bf (str "+.<") [] 256 10) (Raised (PointerBelowZero 3)))
    as [H1 H2].
  - apply bf_runs_run_bf.
  - rewrite <- H. apply bf_runs_run_bf.
  - split; [exact H1|exact H2].
Defined.

(** C9, as stated, fails: after [inc(1); inc(5); divmod_10(0)] the machine
    that ran the emitted code has its pointer at cell 5, while the cursor
    of the emitter is 2. *)
Lemma cursor_astray :
  option_map ptr
    (final_machine (Codegen.output (seq_ [inc 1 1; inc 5 1; divmod_10 0] new))
       [] 256 1000) = Some 5 /\
  pos (seq_ [inc 1 1; inc 5 1; divmod_10 0] new) = 2.
Proof. split; vm_compute; reflexivity. Qed.

(** C9: the cursor of the emitter and the pointer of the machine.
    [_goto(c)] emits exactly |c - pos| motions, all [>] or all [<], none
    when the cursor is at c, and sets the cursor to c.  For [inc], [dec],
    [clear], [read], [write], [move], [copy] and [multiply], every run of
    the emitted code by the interpreter that starts with the pointer at
    the cursor and halts, halts with the pointer at the cursor the method
    leaves: the cell c, and [src], [tmp] and [a] for the last three.
    [loop_open(c)] and [loop_close(c)] set the cursor to c, a bracket does
    not move the pointer, and a loop opened and closed on c around code
    that moves to its cursor does as the methods above.  For [divmod_10]
    and [print_number] the same holds on cells of 8 bits when the cells
    they use are as they require: the seven cells [base .. base+6] zero
    but for a dividend, the fourteen cells of the workspace zero and the
    value at most 255. *)
Theorem cursor_invariant :
  (forall c p code,
     emitted (_goto c) p =
       (if p <? c then repeat ">"%char (Z.to_nat (c - p))
        else repeat "<"%char (Z.to_nat (p - c))) /\
     pos (_goto c (mkBF code p)) = c) /\
  (forall c n b, tracks (inc c n) /\ pos (inc c n b) = c) /\
  (forall c n b, tracks (dec c n) /\ pos (dec c n b) = c) /\
  (forall c b, tracks (clear c) /\ pos (clear c b) = c) /\
  (forall c b, tracks (read c) /\ pos (read c b) = c) /\
  (forall c b, tracks (write c) /\ pos (write c b) = c) /\
  (forall src dst b, tracks (move src dst) /\ pos (move src dst b) = src) /\
  (forall src dst tmp b,
     tracks (copy src dst tmp) /\ pos (copy src dst tmp b) = tmp) /\
  (forall a b result tmp self,
     tracks (multiply a b result tmp) /\
     pos (multiply a b result tmp self) = a) /\
  (forall c b,
     pos (loop_open c b) = c /\ pos (loop_close c b) = c /\
     forall br inp cs op m ip s m' ip',
       op = "["%char \/ op = "]"%char ->
       exec_op br inp cs op m ip s = inr (m', ip') -> m' = m) /\
  (forall c M body,
     appends M -> emitted M c = flat body ->
     shift body = Some (pos (M (mkBF [] c)) - c) ->
     tracks (seq_ [loop_open c; M; loop_close c])) /\
  (forall code base p n inp ms m,
     0 <= base -> 0 <= p -> ptr m = p -> wf m ->
     0 <= n <= 255 -> cell_at m (base + 1) = n ->
     (forall j, 0 <= j < 7 -> j <> 1 -> cell_at m (base + j) = 0) ->
     divmod_turns p base <= ms ->
     exists br mf,
       match_brackets (emitted (divmod_10 base) p) = inr br /\
       run_loop (emitted (divmod_10 base) p) br inp 256 ms (enough_fuel ms)
         m 0 0 = Halted mf /\
       ptr mf = pos (divmod_10 base (mkBF code p))) /\
  (forall code val_cell ws p v inp ms m,
     0 <= val_cell -> 0 <= ws -> 0 <= p -> ptr m = p -> wf m ->
     cell_at m val_cell = v -> 0 <= v <= 255 ->
     (forall j, 0 <= j < 14 -> cell_at m (ws + j) = 0) ->
     print_turns p val_cell ws v <= ms ->
     exists br mf,
       match_brackets (emitted (print_number val_cell ws) p) = inr br /\
       run_loop (emitted (print_number val_cell ws) p) br inp 256 ms
         (enough_fuel ms) m 0 0 = Halted mf /\
       ptr mf = pos (print_number val_cell ws (mkBF code p))).
Proof.
  repeat match goal with |- _ /\ _ => split end.
  - intros c p code. split; [apply goto_chars|reflexivity].
  - intros c n b. split; [apply tracks_inc|reflexivity].
  - intros c n b. split; [apply tracks_dec|reflexivity].
  - intros c b. split; [apply tracks_clear|reflexivity].
  - intros c b. split; [apply tracks_read|reflexivity].
  - intros c b. split; [apply tracks_write|reflexivity].
  - intros src dst b. split; [apply tracks_move|reflexivity].
  - intros src dst tmp b. split; [apply tracks_copy|reflexivity].
  - intros a b result tmp self. split; [apply tracks_multiply|reflexivity].
  - intros c b. split; [reflexivity|]. split; [reflexivity|].
    intros br inp cs op m ip s m' ip' Hop H.
    eapply bracket_keeps; eassumption.
  - intros c M body. apply tracks_loop.
  - intros code base p n inp ms m H1 H2 H3 H4 H5 H6 H7 H8.
    destruct (divmod_10_computes code base p n inp ms m)
      as [br [mf [Ha [Hb [Hc _]]]]]; try assumption.
    exists br, mf. auto.
  - intros code val_cell ws p v inp ms m. apply print_number_pointer.
Qed.

(** C10: the program of [generate()] consists of the eight characters of
    the instruction set only, its brackets are balanced, the load phase
    of [run_bf] builds its table of brackets, and no call of [run_bf] on
    it raises either of the two structural errors, whatever the input,
    the cell size and the step budget. *)
Theorem generate_loads :
  Forall (fun c => is_op c = true) generate /\
  balanced generate /\
  (exists br, match_brackets (strip generate) = inr br) /\
  forall input_str cell_size max_steps i,
    run_bf generate input_str cell_size max_steps <> Raised (UnmatchedClose i) /\
    run_bf generate input_str cell_size max_steps <> Raised (UnmatchedOpen i).
Proof.
  assert (Hops : Forall (fun c => is_op c = true) generate)
    by (apply (strip_ops (concat (code (generate_body new))))).
  assert (Hflat : generate = flat gen_prog)
    by (rewrite <- strip_generate; symmetry; apply strip_all_ops, Hops).
  destruct (match_brackets_flat gen_prog) as [br Hbr].
  rewrite <- strip_generate in Hbr.
  split; [exact Hops|]. split; [rewrite Hflat; apply balanced_flat|].
  split; [exists br; exact Hbr|].
  intros inp cs ms i.
  assert (H : forall e, run_bf generate inp cs ms = Raised e ->
                        e <> UnmatchedClose i /\ e <> UnmatchedOpen i).
  { intros e He.
    destruct (run_bf_raised _ _ _ _ _ Hbr e He) as [n [m [ip [s [_ Ht]]]]].
    apply turn_error in Ht as [[_ ->]|[_ [->|[->|[->|[k ->]]]]]];
      split; discriminate. }
  split; intros He; apply H in He as [H1 H2]; congruence.
Qed.

End Claims.
